(** * eyd: pruning a filesystem subtree around a keep set

    A shallow embedding of [eyd.py] and the properties of its four
    components: the path classifier [walk_action], the tree walker [walk],
    the keep-set normaliser [normalize_keep] and the archiver [move_dirty],
    together with the driver [main].

    - Python [str] values are [string] (byte strings; for UTF-8 text the
      bytewise order is the code-point order Python uses).
    - A Python [set] is the list of its elements in iteration order;
      [normalize_keep] sorts its result, which makes the order immaterial
      ([normalize_keep_order]).
    - Paths are strings, handled by [os.path] and [pathlib] as in the
      source: [pathlib] normalises what it is given, [os.path.join] does
      not.
    - The filesystem is a parameter of the program: a type of states with
      the calls the program makes.  A run returns its outcome, the final
      state and the sequence of calls, prints and yields.  An instance on
      directory trees ([MemFS]) runs the program on concrete inputs.
    - The generator [walk] is given with the loop body that consumes it, so
      that moves made between two yields are seen by the rest of the walk;
      its recursion is bounded by fuel.  [Tree.walk] is the list of paths
      it yields over a snapshot, which the generator produces when the
      filesystem does not change ([walk_on_snapshot]). *)

From Stdlib Require Import String Ascii List Bool Arith NArith Lia.
From Stdlib Require Import Permutation Sorted Mergesort Orders.
Import ListNotations.
Open Scope string_scope.
Open Scope list_scope.

Set Implicit Arguments.
Set Warnings "-register-all".

(** ** Python string operations *)

Module Str.

(** [s.startswith(p)] *)
Fixpoint startswith (s p : string) {struct p} : bool :=
  match p with
  | EmptyString => true
  | String b p' =>
      match s with
      | EmptyString => false
      | String a s' => Ascii.eqb a b && startswith s' p'
      end
  end.

(** [s[n:]] *)
Fixpoint drop (n : nat) (s : string) : string :=
  match n, s with
  | O, _ => s
  | S _, EmptyString => EmptyString
  | S n', String _ s' => drop n' s'
  end.

(** [s.endswith('/')] *)
Fixpoint endswith_sep (s : string) : bool :=
  match s with
  | EmptyString => false
  | String c EmptyString => Ascii.eqb c "/"
  | String _ s' => endswith_sep s'
  end.

(** [s.rstrip('/')] *)
Fixpoint rstrip_sep (s : string) : string :=
  match s with
  | EmptyString => EmptyString
  | String c s' =>
      let r := rstrip_sep s' in
      if Ascii.eqb c "/" && String.eqb r "" then EmptyString else String c r
  end.

(** [s[:s.rfind('/') + 1]]: everything up to and including the last
    separator, the empty string when there is none. *)
Fixpoint upto_last_sep (s : string) : string :=
  match s with
  | EmptyString => EmptyString
  | String c s' =>
      let h := upto_last_sep s' in
      if Ascii.eqb c "/" || negb (String.eqb h "") then String c h
      else EmptyString
  end.

(** ['/' not in s] *)
Fixpoint no_sep (s : string) : bool :=
  match s with
  | EmptyString => true
  | String c s' => negb (Ascii.eqb c "/") && no_sep s'
  end.

End Str.

(** ** [os.path] (posixpath) *)

(** [os.path.join(a, b)] for two arguments: an absolute [b] discards [a];
    otherwise a separator is inserted unless [a] is empty or already ends
    with one. *)
Definition os_path_join (a b : string) : string :=
  if Str.startswith b "/" then b
  else if String.eqb a "" || Str.endswith_sep a then a ++ b
  else a ++ "/" ++ b.

(** [os.path.dirname(p)] *)
Definition os_path_dirname (p : string) : string :=
  let head := Str.upto_last_sep p in
  if String.eqb (Str.rstrip_sep head) "" then head else Str.rstrip_sep head.

(** ** PathClassifier: [walk_action] *)

Inductive action : Type := Skip | Recurse | Yield.

Fixpoint walk_action (entry : string) (keep : list string) : action :=
  match keep with
  | [] => Yield
  | path :: keep' =>
      if String.eqb entry path then Skip
      else if Str.startswith path (entry ++ "/") then Recurse
      else walk_action entry keep'
  end.

(** ** KeepSetNormalizer: [normalize_keep] *)

Module StringOrder <: TotalLeBool.
Definition t := string.
Definition leb := String.leb.
Theorem leb_total : forall a1 a2, leb a1 a2 = true \/ leb a2 a1 = true.
Proof. exact String.leb_total. Qed.
End StringOrder.

Module StringSort := Sort StringOrder.

(** [sorted(l)] on a list of [str] *)
Definition sorted (l : list string) : list string := StringSort.sort l.

(** The inner [for item2 in items: if ...: break] loop: [true] when the
    loop leaves through [break], so the [else] branch is not run. *)
Definition inner_breaks (items : list string) (item1 : string) : bool :=
  existsb (fun item2 =>
             negb (String.eqb item1 item2)
             && Str.startswith item1 (item2 ++ "/")) items.

(** [items] is a Python [set]; it is given as the list of its elements in
    iteration order (any order, no repetition). *)
Definition normalize_keep (root : string) (items : list string) : list string :=
  sorted
    (map (fun item1 => os_path_join root (Str.drop 1 item1))
         (filter (fun item1 => negb (inner_breaks items item1)) items)).

(** [set(l)]: the distinct elements of a list, in some order. *)
Definition py_set (l : list string) : list string := nodup string_dec l.

(** [a | b] on sets *)
Definition set_union (a b : list string) : list string :=
  py_set (a ++ b).

(** [a - b] on sets *)
Definition set_diff (a b : list string) : list string :=
  filter (fun x => negb (existsb (String.eqb x) b)) a.

(** ** [pathlib] on POSIX

    [pathlib.Path(s)] parses [s] into an anchor (["/"], ["//"] or none) and
    the list of its components, dropping empty components and ["."]; the
    string form of a path is the anchor followed by the components joined
    with ["/"], or ["."] when both are empty. *)

Module Pathlib.

(** [s.split('/')] *)
Fixpoint split_sep (s : string) : list string :=
  match s with
  | EmptyString => [EmptyString]
  | String c s' =>
      if Ascii.eqb c "/" then EmptyString :: split_sep s'
      else match split_sep s' with
           | [] => [String c EmptyString]
           | h :: t => String c h :: t
           end
  end.

(** Exactly two leading slashes are kept; one, or three and more, give
    the root ["/"]. *)
Definition anchor (s : string) : string :=
  if Str.startswith s "//" && negb (Str.startswith s "///") then "//"
  else if Str.startswith s "/" then "/"
  else "".

Definition is_part (x : string) : bool :=
  negb (String.eqb x "") && negb (String.eqb x ".").

Definition parts (s : string) : list string :=
  filter is_part (split_sep s).

Definition render (a : string) (ps : list string) : string :=
  match a, ps with
  | EmptyString, [] => "."
  | _, _ => a ++ String.concat "/" ps
  end.

(** [str(pathlib.Path(s))], which is also its [as_posix()] *)
Definition posix (s : string) : string := render (anchor s) (parts s).

(** The string of the entry [Path(p) / name] that [iterdir] builds, for
    [p] the string form of a path. *)
Definition child (p name : string) : string :=
  if String.eqb p "." then name
  else if Str.endswith_sep p then p ++ name
  else p ++ "/" ++ name.

(** [Path(s).absolute().as_posix()] in a process whose working directory
    is [cwd] *)
Definition absolute (cwd s : string) : string :=
  if Str.startswith s "/" then posix s
  else posix (os_path_join cwd (posix s)).

(** What a directory listing can contain: a non-empty name without a
    separator, other than the special entries. *)
Definition valid_name (n : string) : bool :=
  Str.no_sep n && negb (String.eqb n "") && negb (String.eqb n ".")
  && negb (String.eqb n "..").

End Pathlib.

(** ** Directory trees

    A snapshot of what lies below a directory: the entries of each
    directory in listing order.  A symbolic link to a directory appears as
    the directory it points to, which is how [is_dir] and [iterdir] see
    it. *)

Inductive node : Type :=
| File
| Dir (entries : list (string * node)).

Module Tree.

Definition is_dir (n : node) : bool :=
  match n with Dir _ => true | File => false end.

(** One turn of the loop over the entries of the directory [path]. *)
Definition walk_entry (recurse : string -> node -> list string)
           (path : string) (keep : list string) (e : string * node)
  : list string :=
  let entry_path := Pathlib.child path (fst e) in
  match walk_action entry_path keep with
  | Recurse =>
      match snd e with
      | Dir _ => recurse entry_path (snd e)
      | File => []
      end
  | Yield => [entry_path]
  | Skip => []
  end.

(** The paths [walk(path, keep)] yields, in order, when [path] is the
    absolute string form of a directory whose content is [n] and nothing
    changes during the walk. *)
Fixpoint walk (path : string) (n : node) (keep : list string)
  : list string :=
  match n with
  | File => []
  | Dir entries =>
      flat_map (walk_entry (fun p c => walk p c keep) path keep) entries
  end.

Definition names (entries : list (string * node)) : list string :=
  map fst entries.

Fixpoint distinct (l : list string) : bool :=
  match l with
  | [] => true
  | x :: l' => negb (existsb (String.eqb x) l') && distinct l'
  end.

(** A tree a filesystem can hold: valid names, no name twice in a
    directory. *)
Fixpoint wf (n : node) : bool :=
  match n with
  | File => true
  | Dir entries =>
      forallb (fun e => Pathlib.valid_name (fst e)) entries
      && distinct (names entries)
      && forallb (fun e => wf (snd e)) entries
  end.

End Tree.

(** ** Effects

    The program talks to the filesystem, prints, and, through the generator
    [walk], hands paths to the loop that consumes it.  A computation takes
    the filesystem state and returns its outcome, the new state and the
    events it emitted, oldest first. *)

Inductive event : Type :=
| EListdir (p : string)                 (* [Path(p).iterdir()] *)
| EStat (p : string)                    (* [Path(p).is_dir()] *)
| EYield (p : string)                   (* [yield p] *)
| EIsdir (p : string)                   (* [os.path.isdir(p)] *)
| ERmtree (p : string)                  (* [shutil.rmtree(p)] *)
| EMakedirs (p : string) (mode : nat)   (* [os.makedirs(p, mode)] *)
| EPrint (items : list string)          (* [print] of the items *)
| EMove (src dst : string).             (* [shutil.move(src, dst)] *)

Inductive result (A : Type) : Type :=
| Ok (a : A)
| Raised
| OutOfFuel.

Arguments Raised {A}.
Arguments OutOfFuel {A}.

(** What [stat] finds at a path. *)
Inductive stat_result : Type :=
| IsDirectory
| NotDirectory      (* something else, or nothing at all *)
| StatFails.        (* an error [Path.is_dir] does not swallow *)

(** JSON values as far as the program distinguishes them. *)
Inductive json : Type :=
| JString (s : string)
| JArray (l : list json)
| JOther.           (* null, booleans, numbers, objects *)

Section Program.

(** The filesystem: its states and the calls the program makes.  A call
    that can fail returns [None], or [false] with the state it left. *)
Variable FS : Type.
Variable fs_listdir : string -> FS -> option (list string).
Variable fs_stat : string -> FS -> stat_result.
Variable fs_rmtree : string -> FS -> bool * FS.
Variable fs_makedirs : string -> nat -> FS -> bool * FS.
Variable fs_move : string -> string -> FS -> bool * FS.

(** The working directory of the process and the JSON decoder. *)
Variable cwd : string.
Variable json_loads : string -> option json.

Definition M (A : Type) : Type := FS -> result A * FS * list event.

Definition ret {A} (a : A) : M A := fun f => (Ok a, f, []).

Definition bind {A B} (c : M A) (k : A -> M B) : M B :=
  fun f =>
    match c f with
    | (Ok a, f1, ev1) =>
        match k a f1 with
        | (r, f2, ev2) => (r, f2, ev1 ++ ev2)
        end
    | (Raised, f1, ev1) => (Raised, f1, ev1)
    | (OutOfFuel, f1, ev1) => (OutOfFuel, f1, ev1)
    end.

Definition raise {A} : M A := fun f => (Raised, f, []).
Definition out_of_fuel {A} : M A := fun f => (OutOfFuel, f, []).

Notation "x <- c ;; k" := (bind c (fun x => k))
  (at level 61, c at next level, right associativity).
Notation "c ;;; k" := (bind c (fun _ => k))
  (at level 61, right associativity).

(** [for x in l: body(x)] *)
Fixpoint for_each {A} (l : list A) (body : A -> M unit) : M unit :=
  match l with
  | [] => ret tt
  | x :: l' => body x ;;; for_each l' body
  end.

Definition path_iterdir (p : string) : M (list string) :=
  fun f =>
    match fs_listdir p f with
    | Some names => (Ok names, f, [EListdir p])
    | None => (Raised, f, [EListdir p])
    end.

Definition path_is_dir (p : string) : M bool :=
  fun f =>
    match fs_stat p f with
    | IsDirectory => (Ok true, f, [EStat p])
    | NotDirectory => (Ok false, f, [EStat p])
    | StatFails => (Raised, f, [EStat p])
    end.

Definition os_path_isdir (p : string) : M bool :=
  fun f =>
    match fs_stat p f with
    | IsDirectory => (Ok true, f, [EIsdir p])
    | _ => (Ok false, f, [EIsdir p])
    end.

Definition call (e : event) (op : FS -> bool * FS) : M unit :=
  fun f =>
    match op f with
    | (true, f') => (Ok tt, f', [e])
    | (false, f') => (Raised, f', [e])
    end.

Definition shutil_rmtree (p : string) : M unit :=
  call (ERmtree p) (fs_rmtree p).

Definition os_makedirs (p : string) (mode : nat) : M unit :=
  call (EMakedirs p mode) (fs_makedirs p mode).

Definition shutil_move (src dst : string) : M unit :=
  call (EMove src dst) (fs_move src dst).

Definition print (items : list string) : M unit :=
  fun f => (Ok tt, f, [EPrint items]).

Definition yield (p : string) : M unit :=
  fun f => (Ok tt, f, [EYield p]).

(** ** TreeWalker: [walk]

    The generator is given together with the body of the [for] loop that
    consumes it: the body runs at each [yield], before the walk goes on,
    as it does in Python.  [fuel] bounds the depth of the recursion. *)

(** One turn of [for entry in pathlib.Path(root).iterdir()], for the entry
    called [name] of the directory whose string form is [dir]; [recurse]
    is the recursive call. *)
Definition walk_entry (recurse : string -> M unit) (dir : string)
           (keep : list string) (body : string -> M unit) (name : string)
  : M unit :=
  let entry := Pathlib.child dir name in
  let entry_path := Pathlib.absolute cwd entry in
  match walk_action entry_path keep with
  | Recurse =>
      is_dir <- path_is_dir entry ;;
      if is_dir then recurse entry_path else ret tt
  | Yield => yield entry_path ;;; body entry_path
  | Skip => ret tt
  end.

Fixpoint walk (fuel : nat) (root : string) (keep : list string)
         (body : string -> M unit) : M unit :=
  match fuel with
  | O => out_of_fuel
  | S fuel' =>
      let dir := Pathlib.posix root in
      names <- path_iterdir dir ;;
      for_each names
               (walk_entry (fun p => walk fuel' p keep body) dir keep body)
  end.

(** ** Archiver: [move_dirty] *)

(** The destination computed for a yielded [path]. *)
Definition move_to (root target path : string) : string :=
  os_path_join target
    (Str.drop 1 (Str.drop (String.length (Str.rstrip_sep root)) path)).

(** The body of the [for path in walk(root, keep)] loop; [target] is the
    joined quarantine path. *)
Definition move_one (root target path : string) : M unit :=
  let to := move_to root target path in
  let parent := os_path_dirname to in
  exists_ <- os_path_isdir parent ;;
  (if exists_ then ret tt else os_makedirs parent 448) ;;;
  print ["moving"; path; "to"; to] ;;;
  shutil_move path to.

Definition move_dirty (fuel : nat) (root target : string)
           (keep : list string) : M unit :=
  let target := os_path_join root (Str.drop 1 target) in
  exists_ <- os_path_isdir target ;;
  (if exists_ then shutil_rmtree target else ret tt) ;;;
  walk fuel root keep (move_one root target).

(** ** [main] *)

(** [for arg in args: keep = keep + json.loads(arg)]; [None] when
    [json.loads] raises or the decoded value is not a list. *)
Fixpoint load_args (args : list string) (keep : list json)
  : option (list json) :=
  match args with
  | [] => Some keep
  | arg :: args' =>
      match json_loads arg with
      | Some (JArray l) => load_args args' (keep ++ l)
      | _ => None
      end
  end.

(** The decoded fragments as strings; a fragment that is not a string
    makes [set(keep)] or the first [normalize_keep] raise, where it is
    compared with the quarantine fragment, which is one. *)
Fixpoint strings_of (l : list json) : option (list string) :=
  match l with
  | [] => Some []
  | JString s :: l' => option_map (cons s) (strings_of l')
  | _ :: _ => None
  end.

Definition quarantine : string := "/oldroot".

(** The keep list [main] passes to [move_dirty]. *)
Definition final_keep (root : string) (keep partitions : list string)
  : list string :=
  let mountpoints :=
    py_set (filter (fun x => Str.startswith x (root ++ "/")) partitions) in
  normalize_keep "/"
    (set_union
       (py_set (normalize_keep root (set_union (py_set keep) [quarantine])))
       (set_diff mountpoints [root])).

(** [argv] is [sys.argv[1:]], [partitions] the mount points that
    [psutil.disk_partitions()] reports and [stamp] the formatted time. *)
Definition main (fuel : nat) (argv partitions : list string)
           (stamp : string) : M unit :=
  match argv with
  | [] => raise
  | root :: args =>
      match load_args args [] with
      | None => raise
      | Some decoded =>
          match strings_of decoded with
          | None => raise
          | Some keep =>
              move_dirty fuel root (os_path_join quarantine stamp)
                         (final_keep root keep partitions)
          end
      end
  end.

(** What a snapshot has to say about the filesystem for the walk of the
    directory whose string form is [dir] and whose absolute form is [abs]:
    the listing of every directory and the kind of every entry. *)
Fixpoint represents (f : FS) (dir abs : string) (n : node) : Prop :=
  match n with
  | File => True
  | Dir entries =>
      fs_listdir dir f = Some (map fst entries)
      /\ (fix all (es : list (string * node)) : Prop :=
            match es with
            | [] => True
            | e :: es' =>
                match snd e with
                | File => fs_stat (Pathlib.child dir (fst e)) f = NotDirectory
                | Dir _ =>
                    fs_stat (Pathlib.child dir (fst e)) f = IsDirectory
                    /\ represents f (Pathlib.child abs (fst e))
                                  (Pathlib.child abs (fst e)) (snd e)
                end
                /\ all es'
            end) entries
  end.

End Program.

(** ** Reading a run *)

Definition outcome {A FS : Type} (x : result A * FS * list event) : result A :=
  fst (fst x).

Definition final_state {A FS : Type} (x : result A * FS * list event) : FS :=
  snd (fst x).

Definition events {A FS : Type} (x : result A * FS * list event)
  : list event :=
  snd x.

(** The paths yielded, in order. *)
Fixpoint yields_of (evs : list event) : list string :=
  match evs with
  | [] => []
  | EYield p :: evs' => p :: yields_of evs'
  | _ :: evs' => yields_of evs'
  end.

(** The moves made, in order, each as source and destination. *)
Fixpoint moves_of (evs : list event) : list (string * string) :=
  match evs with
  | [] => []
  | EMove src dst :: evs' => (src, dst) :: moves_of evs'
  | _ :: evs' => moves_of evs'
  end.

Definition is_yield (e : event) : bool :=
  match e with EYield _ => true | _ => false end.

Definition is_move (e : event) : bool :=
  match e with EMove _ _ => true | _ => false end.

(** Every event of every run of [c] satisfies [P]. *)
Definition always {FS A : Type} (P : event -> Prop) (c : M FS A) : Prop :=
  forall f, Forall P (events (c f)).

Definition failed {A : Type} (r : result A) : Prop :=
  match r with Ok _ => False | _ => True end.

(** Each yielded path has been moved as [mv] says, in order, except
    possibly the last one when the run did not complete. *)
Definition paired {A : Type} (mv : string -> string * string)
           (r : result A) (evs : list event) : Prop :=
  moves_of evs = map mv (yields_of evs)
  \/ (failed r
      /\ exists ys y, yields_of evs = (ys ++ [y])%list
                      /\ moves_of evs = map mv ys).

Definition pairs {FS A : Type} (mv : string -> string * string) (c : M FS A)
  : Prop :=
  forall f, paired mv (outcome (c f)) (events (c f)).

(** The depth of a tree: the fuel its walk needs. *)
Fixpoint depth (n : node) : nat :=
  match n with
  | File => 0
  | Dir entries => S (fold_right (fun e d => Nat.max (depth (snd e)) d) 0 entries)
  end.


(** ** A filesystem in memory

    An instance of the filesystem interface on directory trees, used to run
    the program on concrete inputs.  The state is the content of ["/"];
    paths are resolved the way the kernel does for plain directories:
    relative to the working directory, skipping empty components and
    ["."]. *)

Module MemFS.

Definition state : Type := node.

Fixpoint assoc (k : string) (es : list (string * node)) : option node :=
  match es with
  | [] => None
  | (k', v) :: es' => if String.eqb k k' then Some v else assoc k es'
  end.

Fixpoint remove_entry (k : string) (es : list (string * node))
  : list (string * node) :=
  match es with
  | [] => []
  | (k', v) :: es' =>
      if String.eqb k k' then es' else (k', v) :: remove_entry k es'
  end.

(** Replace the entry named [k], or add it at the end. *)
Fixpoint put_entry (k : string) (v : node) (es : list (string * node))
  : list (string * node) :=
  match es with
  | [] => [(k, v)]
  | (k', v') :: es' =>
      if String.eqb k k' then (k, v) :: es'
      else (k', v') :: put_entry k v es'
  end.

Definition comps (cwd p : string) : list string :=
  Pathlib.parts (if Str.startswith p "/" then p else cwd ++ "/" ++ p).

Fixpoint lookup (ps : list string) (n : node) : option node :=
  match ps with
  | [] => Some n
  | k :: ps' =>
      match n with
      | File => None
      | Dir es =>
          match assoc k es with
          | Some c => lookup ps' c
          | None => None
          end
      end
  end.

(** Rewrite the entries of the directory that holds the last component
    of [ps]. *)
Fixpoint alter (ps : list string)
         (g : string -> list (string * node) -> option (list (string * node)))
         (n : node) : option node :=
  match ps with
  | [] => None
  | k :: ps' =>
      match n with
      | File => None
      | Dir es =>
          match ps' with
          | [] => option_map Dir (g k es)
          | _ :: _ =>
              match assoc k es with
              | Some c =>
                  option_map (fun c' => Dir (put_entry k c' es))
                             (alter ps' g c)
              | None => None
              end
          end
      end
  end.

Fixpoint chain (ps : list string) : node :=
  match ps with
  | [] => Dir []
  | k :: ps' => Dir [(k, chain ps')]
  end.

Fixpoint mkdirs (ps : list string) (n : node) : option node :=
  match ps with
  | [] => None
  | k :: ps' =>
      match n with
      | File => None
      | Dir es =>
          match assoc k es with
          | Some c =>
              option_map (fun c' => Dir (put_entry k c' es)) (mkdirs ps' c)
          | None => Some (Dir (es ++ [(k, chain ps')]))
          end
      end
  end.

Fixpoint is_prefix (a b : list string) : bool :=
  match a, b with
  | [], _ => true
  | _ :: _, [] => false
  | x :: a', y :: b' => String.eqb x y && is_prefix a' b'
  end.

Section WithCwd.

Variable cwd : string.

(** [os.listdir] never reports ["."], [".."] or a name with a
    separator, and reports a name once. *)
Definition listdir (p : string) (f : state) : option (list string) :=
  match lookup (comps cwd p) f with
  | Some (Dir es) =>
      Some (nodup string_dec (filter Pathlib.valid_name (map fst es)))
  | _ => None
  end.

Definition stat (p : string) (f : state) : stat_result :=
  match lookup (comps cwd p) f with
  | Some (Dir _) => IsDirectory
  | _ => NotDirectory
  end.

Definition rmtree (p : string) (f : state) : bool * state :=
  match lookup (comps cwd p) f with
  | Some (Dir _) =>
      match alter (comps cwd p)
                  (fun k es => Some (remove_entry k es)) f with
      | Some f' => (true, f')
      | None => (false, f)
      end
  | _ => (false, f)
  end.

Definition makedirs (p : string) (mode : nat) (f : state) : bool * state :=
  match mkdirs (comps cwd p) f with
  | Some f' => (true, f')
  | None => (false, f)
  end.

(** [shutil.move]: into [dst] when it is a directory, otherwise onto
    it; a file may replace a file, nothing else is overwritten, and a
    directory does not move into itself. *)
Definition move (src dst : string) (f : state) : bool * state :=
  let s := comps cwd src in
  let d0 := comps cwd dst in
  match lookup s f with
  | None => (false, f)
  | Some n =>
      let d :=
        match lookup d0 f with
        | Some (Dir _) => d0 ++ [last s ""]
        | _ => d0
        end in
      let free :=
        match lookup d f, n with
        | None, _ => true
        | Some File, File => true
        | _, _ => false
        end in
      if is_prefix s d || negb free then (false, f)
      else
        match alter s (fun k es => Some (remove_entry k es)) f with
        | None => (false, f)
        | Some f1 =>
            match alter d (fun k es => Some (put_entry k n es)) f1 with
            | Some f2 => (true, f2)
            | None => (false, f)
            end
        end
  end.

(** The program on this filesystem. *)
Definition run_walk (fuel : nat) (root : string) (keep : list string)
           (f : state) : result unit * state * list event :=
  walk listdir stat cwd fuel root keep (fun _ => ret tt) f.

Definition run_move_dirty (fuel : nat) (root target : string)
           (keep : list string) (f : state)
  : result unit * state * list event :=
  move_dirty listdir stat rmtree makedirs move cwd fuel root target keep f.

Definition run_main (json_loads : string -> option json) (fuel : nat)
           (argv partitions : list string) (stamp : string) (f : state)
  : result unit * state * list event :=
  main listdir stat rmtree makedirs move cwd json_loads fuel argv
       partitions stamp f.

End WithCwd.

End MemFS.

(** ** Sample inputs *)

(** The content of a root directory: two subtrees, a directory with two
    files, and a file whose name extends the name of that directory. *)
Definition sample_tree : node :=
  Dir [("keep", Dir [("x", File)]);
       ("drop", Dir [("y", File)]);
       ("a", Dir [("b", File); ("c", File)]);
       ("ab", File)].

(** The filesystem of the end-to-end scenarios: [/data] holds [keep/x] and
    [drop/y]. *)
Definition sample_fs : MemFS.state :=
  Dir [("data", Dir [("keep", Dir [("x", File)]);
                     ("drop", Dir [("y", File)])])].

(** The same with a quarantine directory left by an earlier run. *)
Definition stale_fs : MemFS.state :=
  Dir [("data", Dir [("oldroot", Dir [("T", Dir [("stale", File)])]);
                     ("drop", Dir [("y", File)])])].

Definition dquote : ascii := "034"%char.

(** The argument text for the one fragment [/keep]: an opening bracket, the
    fragment between double quotes, a closing bracket. *)
Definition keep_arg : string :=
  "[" ++ String dquote ("/keep" ++ String dquote "]").

(** [json.loads] on the texts the examples use; the unterminated text
    ["[/keep"] and every other text are not decoded. *)
Definition sample_json_loads (s : string) : option json :=
  if String.eqb s "[]" then Some (JArray [])
  else if String.eqb s keep_arg then Some (JArray [JString "/keep"])
  else None.

(** ** Vocabulary of the specification *)

(** [q] is a strict descendant of [p]: it has [p + '/'] as a prefix. *)
Definition strict_descendant (q p : string) : bool :=
  Str.startswith q (p ++ "/").

(** [p] is a proper prefix of [s]. *)
Definition proper_prefix (p s : string) : Prop :=
  Str.startswith s p = true /\ p <> s.

Definition begins_with_sep (s : string) : bool := Str.startswith s "/".

(** [s] begins with one separator and not with two. *)
Definition single_sep (s : string) : bool :=
  Str.startswith s "/" && negb (Str.startswith s "//").

(** No distinct element of [items] is a strict ancestor of [f]. *)
Definition survives (items : list string) (f : string) : Prop :=
  forall g, In g items -> g <> f -> strict_descendant f g = false.

(** No element is a strict descendant of another. *)
Definition non_nested (l : list string) : Prop :=
  forall p q, In p l -> In q l -> strict_descendant q p = false.

(** A directory path with its separator: what the paths of the entries of
    the directory begin with. *)
Definition dirsep (d : string) : string :=
  if String.eqb d "" || Str.endswith_sep d then d else d ++ "/".

Definition lex_sorted (l : list string) : Prop :=
  StronglySorted (fun a b => String.leb a b = true) l.

(** [s] is empty or begins with the separator: what can follow a name in
    a path. *)
Definition sep_or_end (s : string) : Prop :=
  s = "" \/ Str.startswith s "/" = true.

(** No keep element is the directory [d] or a strict ancestor of it. *)
Definition clear_of (keep : list string) (d : string) : Prop :=
  forall P, In P keep -> Str.startswith (dirsep d) (P ++ "/") = false.

(** [p] lies below the directory [d]: it is [d], a separator, and a
    non-empty relative path. *)
Definition below (d p : string) : Prop :=
  exists rel, rel <> "" /\ Str.startswith rel "/" = false
              /\ p = (dirsep d ++ rel)%string.

(** An event that is not a yield, or yields a path below [d]. *)
Definition yield_below (d : string) (e : event) : Prop :=
  match e with EYield p => below d p | _ => True end.

(** An event that is not a yield, or yields a path that is neither a keep
    element nor strictly under one. *)
Definition yield_avoids (keep : list string) (e : event) : Prop :=
  match e with
  | EYield p =>
      forall P, In P keep -> p <> P /\ strict_descendant p P = false
  | _ => True
  end.

(** [p] is the entry [n] of the directory [d] or lies below that entry. *)
Definition at_entry (d n p : string) : Prop :=
  exists s, p = (Pathlib.child d n ++ s)%string /\ sep_or_end s.

(** An event that is not a yield, or yields a path at one of the entries
    [names] of [d]. *)
Definition yield_at (d : string) (names : list string) (e : event) : Prop :=
  match e with
  | EYield p => exists n, In n names /\ at_entry d n p
  | _ => True
  end.

(** The yields of a list of events are pairwise distinct and non-nested. *)
Definition yields_apart (evs : list event) : Prop :=
  NoDup (yields_of evs) /\ non_nested (yields_of evs).

(** The path of [p] relative to the directory [d], for [p] below [d]. *)
Definition relative_to (d p : string) : string :=
  Str.drop (String.length (dirsep d)) p.

(** The root is absolute and, trailing separators apart, written the way
    [pathlib] prints it: [/], [/data], [/data/] but not [//], [/data/.] or
    [/a//b]. *)
Definition plain_root (cwd root : string) : bool :=
  String.eqb (dirsep (Pathlib.absolute cwd root)) (Str.rstrip_sep root ++ "/").

(** A component of a parsed path. *)
Definition part_ok (p : string) : bool := Pathlib.is_part p && Str.no_sep p.

Definition is_anchor (a : string) : Prop := a = "" \/ a = "/" \/ a = "//".

(** ** Vocabulary of the traces *)

Definition is_listdir (e : event) : bool :=
  match e with EListdir _ => true | _ => false end.

Definition is_rmtree (e : event) : bool :=
  match e with ERmtree _ => true | _ => false end.

Definition is_print (e : event) : bool :=
  match e with EPrint _ => true | _ => false end.




(** An event that is not a yield, or yields a path that no keep element
    equals or lies strictly under. *)
Definition yield_holds_none (keep : list string) (e : event) : Prop :=
  match e with
  | EYield p =>
      forall P, In P keep -> P <> p /\ strict_descendant P p = false
  | _ => True
  end.

(** An event that is not a listing, or lists the directory [top] or a
    strict ancestor of a keep element. *)
Definition listing_towards (keep : list string) (top : string) (e : event)
  : Prop :=
  match e with
  | EListdir d =>
      d = top \/ exists P, In P keep /\ strict_descendant P d = true
  | _ => True
  end.

(** What an event of a run of [move_dirty] may be, for the absolute root
    [A] and the joined target [T], when it changes the filesystem: the
    removal of [T], the creation with mode [0o700] of the parent of a
    destination, or the move of a path below [A] to [T] joined with the
    path relative to [A]. *)
Definition mover_event (A T : string) (e : event) : Prop :=
  match e with
  | ERmtree p => p = T
  | EMakedirs p m =>
      m = 448
      /\ exists rel, rel <> "" /\ Str.startswith rel "/" = false
                     /\ p = os_path_dirname (os_path_join T rel)
  | EMove s d =>
      exists rel, rel <> "" /\ Str.startswith rel "/" = false
                  /\ s = (dirsep A ++ rel)%string /\ d = os_path_join T rel
  | _ => True
  end.

(** The fragments [main] normalises against the root: those of the
    arguments and the quarantine fragment. *)
Definition main_fragments (keep : list string) : list string :=
  set_union (py_set keep) [quarantine].

(** The mount points [main] keeps: those strictly under the root. *)
Definition main_mountpoints (root : string) (partitions : list string)
  : list string :=
  set_diff
    (py_set (filter (fun x => Str.startswith x (root ++ "/")) partitions))
    [root].

(** The set [main] hands to the second [normalize_keep]: the output of
    the first and the mount points. *)
Definition main_kept (root : string) (keep partitions : list string)
  : list string :=
  set_union (py_set (normalize_keep root (main_fragments keep)))
            (main_mountpoints root partitions).

(** [p] is an element of the keep list [l] or strictly under one. *)
Definition covered (l : list string) (p : string) : Prop :=
  exists k, In k l /\ (k = p \/ strict_descendant p k = true).

(** [s] has no two separators in a row, as the mount points that the
    kernel reports. *)
Fixpoint no_double_sep (s : string) : bool :=
  match s with
  | EmptyString => true
  | String c s' =>
      negb (Ascii.eqb c "/" && Str.startswith s' "/") && no_double_sep s'
  end.

(** The paths of everything that lies below the directory [path] whose
    content is [n]: each entry, followed by what lies below it. *)
Fixpoint tree_paths (path : string) (n : node) : list string :=
  match n with
  | File => []
  | Dir entries =>
      flat_map (fun e =>
                  Pathlib.child path (fst e)
                  :: tree_paths (Pathlib.child path (fst e)) (snd e))
               entries
  end.

(** [p] is an absolute path in normal form, as [pathlib] prints the paths
    of the entries the walk visits: one leading separator, then names
    joined by single separators, none of them empty, ["."] or [".."], and
    no trailing separator; ["/"] alone is the root directory. *)
Definition normal_path (p : string) : bool :=
  single_sep p && String.eqb (Pathlib.posix p) p
  && forallb Pathlib.valid_name (Pathlib.parts p).

(** An absolute path in normal form other than the root directory: the
    form of the path of an entry. *)
Definition normal_entry (p : string) : bool :=
  normal_path p && negb (String.eqb p "/").

(** [p] names the entry [P] or something inside it: the names of [P]
    begin the names of [p]. *)
Definition at_or_under (p P : string) : bool :=
  MemFS.is_prefix (Pathlib.parts P) (Pathlib.parts p).

(** An event that is not a yield, or yields the path of an entry in normal
    form. *)
Definition yield_normal (e : event) : Prop :=
  match e with EYield p => normal_entry p = true | _ => True end.

(** * Properties *)

Open Scope string_scope.
Unset Implicit Arguments.

(** ** Strings *)

Lemma append_assoc (a b c : string) : (a ++ b) ++ c = a ++ (b ++ c).
Proof. induction a as [|x a IH]; simpl; [reflexivity | now rewrite IH]. Qed.

Lemma append_nil_r (a : string) : a ++ "" = a.
Proof. induction a as [|x a IH]; simpl; [reflexivity | now rewrite IH]. Qed.

Lemma length_append (a b : string) :
  String.length (a ++ b) = String.length a + String.length b.
Proof. induction a as [|x a IH]; simpl; [reflexivity | now rewrite IH]. Qed.

Lemma append_inj_l (p a b : string) : p ++ a = p ++ b -> a = b.
Proof.
  induction p as [|x p IH]; simpl; intros H; [exact H|].
  injection H as H. auto.
Qed.

Lemma startswith_iff (s p : string) :
  Str.startswith s p = true <-> exists r, s = p ++ r.
Proof.
  revert s. induction p as [|x p IH]; intros s; simpl.
  - split; eauto.
  - destruct s as [|y s].
    + split; [discriminate | intros [r Hr]; discriminate].
    + destruct (Ascii.eqb_spec y x) as [->|Hne]; simpl.
      * rewrite IH. split; intros [r Hr].
        -- exists r. now rewrite Hr.
        -- injection Hr as Hr. eauto.
      * split; [discriminate|]. intros [r Hr]. injection Hr as Hxy _.
        congruence.
Qed.

Lemma startswith_app (p r : string) : Str.startswith (p ++ r) p = true.
Proof. apply startswith_iff. eauto. Qed.

Lemma startswith_cancel (p a b : string) :
  Str.startswith (p ++ a) (p ++ b) = Str.startswith a b.
Proof.
  induction p as [|x p IH]; simpl; [reflexivity|].
  now rewrite Ascii.eqb_refl.
Qed.

Lemma startswith_longer (s p : string) :
  Str.startswith s p = true -> String.length p <= String.length s.
Proof.
  intros H. apply startswith_iff in H as [r ->]. rewrite length_append. lia.
Qed.

Lemma startswith_trans (s p q : string) :
  Str.startswith s p = true -> Str.startswith p q = true ->
  Str.startswith s q = true.
Proof.
  intros H1 H2. apply startswith_iff in H1 as [r1 ->].
  apply startswith_iff in H2 as [r2 ->].
  rewrite append_assoc. apply startswith_app.
Qed.

Lemma not_self_descendant (s : string) : strict_descendant s s = false.
Proof.
  unfold strict_descendant.
  destruct (Str.startswith s (s ++ "/")) eqn:E; [|reflexivity].
  apply startswith_longer in E. rewrite length_append in E. simpl in E. lia.
Qed.

(** ** The classifier *)

Lemma walk_action_recurse_inv (entry : string) (keep : list string) :
  walk_action entry keep = Recurse ->
  exists path, In path keep /\ Str.startswith path (entry ++ "/") = true
               /\ path <> entry.
Proof.
  induction keep as [|path keep IH]; simpl; [discriminate|].
  destruct (String.eqb entry path) eqn:E; [discriminate|].
  destruct (Str.startswith path (entry ++ "/")) eqn:P.
  - intros _. exists path. repeat split; auto.
    apply String.eqb_neq in E. congruence.
  - intros H. destruct (IH H) as (q & Hq & Hp & Hn). exists q. auto.
Qed.

Lemma walk_action_yield_inv (entry : string) (keep : list string) :
  walk_action entry keep = Yield ->
  forall path, In path keep ->
               path <> entry /\ strict_descendant path entry = false.
Proof.
  induction keep as [|p keep IH]; simpl; [contradiction|].
  destruct (String.eqb entry p) eqn:E; [discriminate|].
  destruct (Str.startswith p (entry ++ "/")) eqn:P; [discriminate|].
  intros H path [<-|Hin]; [|auto].
  apply String.eqb_neq in E. split; [congruence | exact P].
Qed.

Lemma walk_action_skip_inv (entry : string) (keep : list string) :
  walk_action entry keep = Skip -> In entry keep.
Proof.
  induction keep as [|p keep IH]; simpl; [discriminate|].
  destruct (String.eqb entry p) eqn:E.
  - apply String.eqb_eq in E. auto.
  - destruct (Str.startswith p (entry ++ "/")); [discriminate | auto].
Qed.

Lemma sibling_not_prefix (entry rest : string) (c : ascii) :
  c <> "/"%char ->
  Str.startswith (entry ++ String c rest) (entry ++ "/") = false.
Proof.
  intros Hc. rewrite startswith_cancel. simpl.
  destruct (Ascii.eqb_spec c "/"); [congruence | reflexivity].
Qed.

(** ** Sorting *)

Lemma string_leb_trans (a b c : string) :
  String.leb a b = true -> String.leb b c = true -> String.leb a c = true.
Proof.
  unfold String.leb. revert b c.
  induction a as [|x a IH]; intros [|y b] [|z c]; simpl; try congruence.
  unfold Ascii.compare.
  destruct (N.compare_spec (N_of_ascii x) (N_of_ascii y)) as [Exy|Lxy|Gxy];
    destruct (N.compare_spec (N_of_ascii y) (N_of_ascii z)) as [Eyz|Lyz|Gyz];
    try congruence.
  - rewrite Exy, Eyz, N.compare_refl. apply IH.
  - rewrite Exy. rewrite (proj2 (N.compare_lt_iff _ _) Lyz). congruence.
  - rewrite <- Eyz. rewrite (proj2 (N.compare_lt_iff _ _) Lxy). congruence.
  - assert (H : (N_of_ascii x < N_of_ascii z)%N) by lia.
    rewrite (proj2 (N.compare_lt_iff _ _) H). congruence.
Qed.

Lemma sorted_lex_sorted (l : list string) : lex_sorted (sorted l).
Proof.
  apply StringSort.StronglySorted_sort.
  intros a b c Hab Hbc. exact (string_leb_trans _ _ _ Hab Hbc).
Qed.

Lemma sorted_permutation (l : list string) : Permutation l (sorted l).
Proof. apply StringSort.Permuted_sort. Qed.

Lemma in_sorted (l : list string) (x : string) : In x (sorted l) <-> In x l.
Proof.
  split; apply Permutation_in;
    [apply Permutation_sym|]; apply sorted_permutation.
Qed.

(** A list has one sorted arrangement. *)
Lemma lex_sorted_unique (l l' : list string) :
  Permutation l l' -> lex_sorted l -> lex_sorted l' -> l = l'.
Proof.
  revert l'. induction l as [|x l IH]; intros l' HP Hs Hs'.
  - apply Permutation_nil in HP. now subst.
  - destruct l' as [|y l'].
    + apply Permutation_sym, Permutation_nil in HP. discriminate.
    + inversion Hs as [|? ? Hs1 Hx]; subst.
      inversion Hs' as [|? ? Hs1' Hy]; subst.
      assert (x = y) as ->.
      { assert (In x (y :: l')) as [->|Hin]
          by (eapply Permutation_in; [exact HP | now left]); [reflexivity|].
        assert (In y (x :: l)) as [->|Hin']
          by (eapply Permutation_in;
              [apply Permutation_sym; exact HP | now left]); [reflexivity|].
        rewrite Forall_forall in Hx, Hy.
        apply String.leb_antisym; auto. }
      f_equal. apply IH; auto. eapply Permutation_cons_inv; eauto.
Qed.

Lemma sorted_of_permutation (l l' : list string) :
  Permutation l l' -> sorted l = sorted l'.
Proof.
  intros HP. apply lex_sorted_unique; try apply sorted_lex_sorted.
  eapply Permutation_trans; [apply Permutation_sym, sorted_permutation|].
  eapply Permutation_trans; [exact HP | apply sorted_permutation].
Qed.

Lemma sorted_of_lex_sorted (l : list string) : lex_sorted l -> sorted l = l.
Proof.
  intros Hs. apply lex_sorted_unique; auto using sorted_lex_sorted.
  apply Permutation_sym, sorted_permutation.
Qed.

(** ** The normaliser *)

Lemma single_sep_inv (f : string) :
  single_sep f = true ->
  f = "/" ++ Str.drop 1 f /\ Str.startswith (Str.drop 1 f) "/" = false.
Proof.
  unfold single_sep. destruct f as [|c f]; simpl; [discriminate|].
  destruct (Ascii.eqb_spec c "/") as [->|]; simpl; [|discriminate].
  destruct f as [|d f]; simpl; [auto|].
  destruct (Ascii.eqb d "/"); simpl; [discriminate | auto].
Qed.

Lemma os_path_join_rel (root r : string) :
  Str.startswith r "/" = false -> os_path_join root r = dirsep root ++ r.
Proof.
  intros H. unfold os_path_join, dirsep. rewrite H.
  destruct (String.eqb root "" || Str.endswith_sep root); [reflexivity|].
  now rewrite append_assoc.
Qed.

Lemma join_drop_single (root f : string) :
  single_sep f = true ->
  os_path_join root (Str.drop 1 f) = dirsep root ++ Str.drop 1 f.
Proof. intros H. apply os_path_join_rel, single_sep_inv, H. Qed.

(** Joining keeps the descendant relation of fragments that begin with one
    separator. *)
Lemma descendant_join (root f g : string) :
  single_sep f = true -> single_sep g = true ->
  strict_descendant (os_path_join root (Str.drop 1 g))
                    (os_path_join root (Str.drop 1 f))
  = strict_descendant g f.
Proof.
  intros Hf Hg. rewrite !join_drop_single by assumption.
  destruct (single_sep_inv _ Hf) as [Ef _].
  destruct (single_sep_inv _ Hg) as [Eg _].
  unfold strict_descendant. rewrite append_assoc, startswith_cancel.
  transitivity (Str.startswith ("/" ++ Str.drop 1 g)
                               (("/" ++ Str.drop 1 f) ++ "/")).
  - reflexivity.
  - now rewrite <- Ef, <- Eg.
Qed.

Lemma join_inj (root f g : string) :
  single_sep f = true -> single_sep g = true ->
  os_path_join root (Str.drop 1 f) = os_path_join root (Str.drop 1 g) ->
  f = g.
Proof.
  intros Hf Hg. rewrite !join_drop_single by assumption. intros H.
  apply append_inj_l in H.
  destruct (single_sep_inv _ Hf) as [Ef _].
  destruct (single_sep_inv _ Hg) as [Eg _].
  rewrite Ef, Eg. now rewrite H.
Qed.

Lemma inner_breaks_false (items : list string) (f : string) :
  inner_breaks items f = false <-> survives items f.
Proof.
  unfold inner_breaks, survives, strict_descendant. split.
  - intros H g Hg Hne.
    destruct (Str.startswith f (g ++ "/")) eqn:E; [|reflexivity].
    assert (X : existsb
                  (fun item2 => negb (String.eqb f item2)
                                && Str.startswith f (item2 ++ "/")) items
                = true).
    { apply existsb_exists. exists g. split; [exact Hg|].
      rewrite E.
      assert (Hb : String.eqb f g = false)
        by (apply String.eqb_neq; congruence).
      now rewrite Hb. }
    congruence.
  - intros H.
    destruct (existsb _ items) eqn:E; [|reflexivity].
    apply existsb_exists in E as (g & Hg & Hc).
    apply andb_prop in Hc as [Hn Hp].
    apply negb_true_iff, String.eqb_neq in Hn.
    rewrite H in Hp; [discriminate | exact Hg | congruence].
Qed.

Lemma normalize_keep_in (root : string) (items : list string) (p : string) :
  In p (normalize_keep root items) <->
  exists f, In f items /\ survives items f
            /\ p = os_path_join root (Str.drop 1 f).
Proof.
  unfold normalize_keep. rewrite in_sorted, in_map_iff. split.
  - intros (f & <- & Hf). apply filter_In in Hf as [Hin Hs].
    exists f. repeat split; auto.
    apply inner_breaks_false. now apply negb_true_iff.
  - intros (f & Hin & Hs & ->). exists f. split; [reflexivity|].
    apply filter_In. split; [exact Hin|].
    apply negb_true_iff. now apply inner_breaks_false.
Qed.

Lemma normalize_keep_sorted (root : string) (items : list string) :
  lex_sorted (normalize_keep root items).
Proof. apply sorted_lex_sorted. Qed.

Lemma normalize_keep_non_nested (root : string) (items : list string) :
  Forall (fun f => single_sep f = true) items ->
  non_nested (normalize_keep root items).
Proof.
  intros Hs p q Hp Hq. rewrite Forall_forall in Hs.
  apply normalize_keep_in in Hp as (f & Hf & _ & ->).
  apply normalize_keep_in in Hq as (g & Hg & Hsg & ->).
  rewrite descendant_join by auto.
  destruct (string_dec f g) as [->|Hne]; [apply not_self_descendant|].
  now apply Hsg.
Qed.

Lemma normalize_keep_nodup (root : string) (items : list string) :
  NoDup items -> Forall (fun f => single_sep f = true) items ->
  NoDup (normalize_keep root items).
Proof.
  intros Hnd Hs. rewrite Forall_forall in Hs.
  unfold normalize_keep.
  eapply Permutation_NoDup; [apply sorted_permutation|].
  apply NoDup_map_NoDup_ForallPairs; [|now apply NoDup_filter].
  intros f g Hf Hg. apply filter_In in Hf as [Hf _].
  apply filter_In in Hg as [Hg _]. apply join_inj; auto.
Qed.

Lemma filter_permutation (P : string -> bool) (l l' : list string) :
  Permutation l l' -> Permutation (filter P l) (filter P l').
Proof.
  induction 1 as [|x l l' _ IH|x y l|l l' l'' _ IH1 _ IH2]; simpl.
  - constructor.
  - destruct (P x); auto.
  - destruct (P x), (P y); auto using perm_swap.
  - eapply Permutation_trans; eauto.
Qed.

(** The order in which the set is iterated does not matter. *)
Lemma normalize_keep_order (root : string) (items items' : list string) :
  Permutation items items' ->
  normalize_keep root items = normalize_keep root items'.
Proof.
  intros HP. unfold normalize_keep. apply sorted_of_permutation.
  apply Permutation_map.
  assert (E : forall f, inner_breaks items f = inner_breaks items' f).
  { intros f. destruct (inner_breaks items' f) eqn:E'.
    - unfold inner_breaks in *. apply existsb_exists in E' as (g & Hg & Hc).
      apply existsb_exists. exists g. split; [|exact Hc].
      eapply Permutation_in; [apply Permutation_sym; exact HP | exact Hg].
    - apply inner_breaks_false. apply inner_breaks_false in E'.
      intros g Hg. apply E'. eapply Permutation_in; eauto. }
  rewrite (filter_ext _ (fun f => negb (inner_breaks items' f)))
    by (intros f; now rewrite E).
  now apply filter_permutation.
Qed.

Lemma filter_all (P : string -> bool) (l : list string) :
  (forall x, In x l -> P x = true) -> filter P l = l.
Proof.
  induction l as [|x l IH]; simpl; intros H; [reflexivity|].
  rewrite (H x) by now left. f_equal. apply IH. auto.
Qed.

Lemma join_single_sep (root f : string) :
  single_sep root = true -> single_sep f = true ->
  single_sep (os_path_join root (Str.drop 1 f)) = true.
Proof.
  intros Hr Hf. rewrite join_drop_single by assumption.
  destruct (single_sep_inv _ Hf) as [_ Hrel].
  generalize dependent (Str.drop 1 f). intros r Hrel. clear Hf.
  unfold dirsep, single_sep in *.
  destruct root as [|c root]; cbn in Hr; [discriminate|].
  destruct (Ascii.eqb_spec c "/") as [->|]; cbn in Hr; [|discriminate].
  destruct root as [|d root].
  - destruct r as [|e r]; cbn in *; [reflexivity|].
    destruct (Ascii.eqb e "/"); cbn in *; congruence.
  - cbn in Hr.
    destruct (String.eqb _ _ || Str.endswith_sep _); cbn;
      destruct (Ascii.eqb d "/"); cbn in *; congruence.
Qed.

Lemma join_root_single (o : string) :
  single_sep o = true -> os_path_join "/" (Str.drop 1 o) = o.
Proof.
  intros H. rewrite join_drop_single by assumption.
  destruct (single_sep_inv _ H) as [E _].
  change (dirsep "/") with "/". now rewrite <- E.
Qed.

(** C3, as amended: for every base and every set of fragments each of which
    begins with exactly one separator, the output of [normalize_keep] is
    lexicographically sorted and without repetition, its elements are exactly
    the base joined with the surviving fragments (a fragment survives exactly
    when no distinct fragment of the set is its strict ancestor), and no
    element of the output is a strict descendant of another; for the
    fragments ["/a"] and ["/a/b"] the output is the path for ["/a"] alone. *)
Theorem normalize_keep_canonical (root : string) (items : list string) :
  NoDup items ->
  Forall (fun f => single_sep f = true) items ->
  lex_sorted (normalize_keep root items)
  /\ NoDup (normalize_keep root items)
  /\ (forall p, In p (normalize_keep root items) <->
                exists f, In f items /\ survives items f
                          /\ p = os_path_join root (Str.drop 1 f))
  /\ non_nested (normalize_keep root items)
  /\ normalize_keep root ["/a"; "/a/b"] = [os_path_join root "a"]
  /\ normalize_keep root ["/a/b"; "/a"] = [os_path_join root "a"].
Proof.
  intros Hnd Hs. repeat split.
  - apply normalize_keep_sorted.
  - now apply normalize_keep_nodup.
  - apply normalize_keep_in.
  - apply normalize_keep_in.
  - now apply normalize_keep_non_nested.
Qed.

Lemma normalize_keep_canonical_witness :
  NoDup ["/a"; "/a/b"; "/oldroot"]
  /\ Forall (fun f => single_sep f = true) ["/a"; "/a/b"; "/oldroot"]
  /\ lex_sorted (normalize_keep "/data" ["/a"; "/a/b"; "/oldroot"])
  /\ non_nested (normalize_keep "/data" ["/a"; "/a/b"; "/oldroot"]).
Proof.
  assert (Hnd : NoDup ["/a"; "/a/b"; "/oldroot"]).
  { repeat constructor; simpl; intuition discriminate. }
  assert (Hs : Forall (fun f => single_sep f = true)
                      ["/a"; "/a/b"; "/oldroot"]).
  { repeat constructor. }
  split; [exact Hnd|]. split; [exact Hs|].
  destruct (normalize_keep_canonical "/data" _ Hnd Hs) as (H1 & _ & _ & H4 & _).
  split; assumption.
Defined.

(** C3 as stated fails: a fragment that begins with two separators makes
    [os.path.join] drop the base, and the output can then hold a path
    together with one of its strict descendants. *)
Lemma normalize_keep_double_sep_nested :
  NoDup ["//x"; "/a"]
  /\ Forall (fun f => begins_with_sep f = true) ["//x"; "/a"]
  /\ normalize_keep "/x" ["//x"; "/a"] = ["/x"; "/x/a"]
  /\ ~ non_nested (normalize_keep "/x" ["//x"; "/a"]).
Proof.
  split; [repeat constructor; simpl; intuition discriminate|].
  split; [repeat constructor|].
  split; [reflexivity|].
  intros H. specialize (H "/x" "/x/a").
  assert (E : strict_descendant "/x/a" "/x" = true) by reflexivity.
  rewrite H in E; [discriminate | vm_compute; auto | vm_compute; auto].
Qed.

(** C4, as amended: for every base that begins with exactly one separator
    and every set of fragments each of which does, normalising the set of
    the output paths against ["/"] gives the output again, whatever the
    order in which that set is iterated. *)
Theorem normalize_keep_idempotent (root : string) (items items2 : list string) :
  single_sep root = true ->
  NoDup items ->
  Forall (fun f => single_sep f = true) items ->
  Permutation items2 (py_set (normalize_keep root items)) ->
  normalize_keep "/" items2 = normalize_keep root items.
Proof.
  intros Hr Hnd Hs HP.
  pose proof (normalize_keep_nodup root items Hnd Hs) as Hnd'.
  pose proof (normalize_keep_non_nested root items Hs) as Hnn.
  pose proof (normalize_keep_sorted root items) as Hsorted.
  assert (Hsingle : forall o, In o (normalize_keep root items) ->
                              single_sep o = true).
  { intros o Ho. apply normalize_keep_in in Ho as (f & Hf & _ & ->).
    rewrite Forall_forall in Hs. apply join_single_sep; auto. }
  unfold py_set in HP. rewrite nodup_fixed_point in HP by assumption.
  rewrite (normalize_keep_order "/" _ _ HP).
  set (out := normalize_keep root items) in *.
  unfold normalize_keep. rewrite filter_all.
  - rewrite (map_ext_in _ (fun o => o)), map_id.
    + now apply sorted_of_lex_sorted.
    + intros o Ho. apply join_root_single. auto.
  - intros o Ho. apply negb_true_iff, inner_breaks_false.
    intros g Hg _. now apply Hnn.
Qed.

Lemma normalize_keep_idempotent_witness :
  single_sep "/data" = true
  /\ NoDup ["/a"; "/a/b"; "/oldroot"]
  /\ Forall (fun f => single_sep f = true) ["/a"; "/a/b"; "/oldroot"]
  /\ Permutation ["/data/oldroot"; "/data/a"]
                 (py_set (normalize_keep "/data" ["/a"; "/a/b"; "/oldroot"]))
  /\ normalize_keep "/" ["/data/oldroot"; "/data/a"]
     = normalize_keep "/data" ["/a"; "/a/b"; "/oldroot"].
Proof.
  assert (Hnd : NoDup ["/a"; "/a/b"; "/oldroot"]).
  { repeat constructor; simpl; intuition discriminate. }
  assert (Hs : Forall (fun f => single_sep f = true)
                      ["/a"; "/a/b"; "/oldroot"]).
  { repeat constructor. }
  assert (HP : Permutation
                 ["/data/oldroot"; "/data/a"]
                 (py_set (normalize_keep "/data"
                                         ["/a"; "/a/b"; "/oldroot"]))).
  { apply perm_swap. }
  split; [reflexivity|]. split; [exact Hnd|]. split; [exact Hs|].
  split; [exact HP|].
  exact (normalize_keep_idempotent "/data" _ _ eq_refl Hnd Hs HP).
Defined.

(** C4 as stated fails for a fragment that begins with two separators: the
    first pass keeps ["/a/b"] next to ["/a"], the second drops it. *)
Lemma normalize_keep_double_sep_not_idempotent :
  NoDup ["//a/b"; "/a"]
  /\ Forall (fun f => begins_with_sep f = true) ["//a/b"; "/a"]
  /\ normalize_keep "/" ["//a/b"; "/a"] = ["/a"; "/a/b"]
  /\ normalize_keep "/" (py_set (normalize_keep "/" ["//a/b"; "/a"])) = ["/a"]
  /\ normalize_keep "/" (py_set (normalize_keep "/" ["//a/b"; "/a"]))
     <> normalize_keep "/" ["//a/b"; "/a"].
Proof.
  split; [repeat constructor; simpl; intuition discriminate|].
  split; [repeat constructor|].
  repeat split; vm_compute; congruence.
Qed.

(** C5, as amended: [walk_action] returns [Recurse] only when some keep
    element has [entry + '/'] as a prefix (the element may be [entry + '/']
    itself); a keep element that extends [entry] by anything that does not
    start with the separator does not match, so that for the entry ["/a"] and
    the keep list [["/ab"]] the answer is [Yield]. *)
Theorem walk_action_recurse_only_under_entry :
  (forall entry keep,
      walk_action entry keep = Recurse ->
      exists path, In path keep
                   /\ Str.startswith path (entry ++ "/") = true)
  /\ (forall entry c rest,
         c <> "/"%char ->
         walk_action entry [entry ++ String c rest] = Yield)
  /\ walk_action "/a" ["/ab"] = Yield.
Proof.
  split; [|split].
  - intros entry keep H.
    destruct (walk_action_recurse_inv _ _ H) as (p & Hp & Hs & _). eauto.
  - intros entry c rest Hc. simpl.
    rewrite sibling_not_prefix by assumption.
    destruct (String.eqb_spec entry (entry ++ String c rest)) as [E|];
      [|reflexivity].
    apply (f_equal String.length) in E. rewrite length_append in E.
    simpl in E. lia.
  - reflexivity.
Qed.

Lemma walk_action_recurse_only_under_entry_witness :
  walk_action "/a" ["/x"; "/a/b"] = Recurse
  /\ exists path, In path ["/x"; "/a/b"]
                  /\ Str.startswith path ("/a" ++ "/") = true.
Proof.
  split; [reflexivity|].
  apply (proj1 walk_action_recurse_only_under_entry). reflexivity.
Defined.

(** C5 as stated fails: for the entry ["/a"] and the keep element ["/a/"]
    the answer is [Recurse], and [entry + '/'] is the whole element, not a
    proper prefix of it. *)
Lemma walk_action_recurse_on_whole_element :
  walk_action "/a" ["/a/"] = Recurse
  /\ forall path, In path ["/a/"] -> ~ proper_prefix ("/a" ++ "/") path.
Proof.
  split; [reflexivity|].
  intros path [<-|[]] [_ H]. now apply H.
Qed.

(** ** Paths of directory entries *)

Lemma no_sep_app (a b : string) :
  Str.no_sep (a ++ b) = Str.no_sep a && Str.no_sep b.
Proof.
  induction a as [|c a IH]; simpl; [reflexivity|].
  now rewrite IH, andb_assoc.
Qed.

Lemma no_sep_not_startswith (n : string) :
  Str.no_sep n = true -> Str.startswith n "/" = false.
Proof.
  destruct n as [|c n]; simpl; [reflexivity|].
  destruct (Ascii.eqb c "/"); simpl; [discriminate | reflexivity].
Qed.

(** A name is delimited by the first separator after it. *)
Lemma name_split (a b x y : string) :
  Str.no_sep a = true -> Str.no_sep b = true ->
  sep_or_end x -> sep_or_end y ->
  a ++ x = b ++ y -> a = b /\ x = y.
Proof.
  revert b. induction a as [|c a IH]; intros [|d b] Ha Hb Hx Hy E;
    simpl in *.
  - auto.
  - subst x. apply andb_prop in Hb as [Hd _].
    destruct Hx as [Hx|Hx]; [discriminate|]. simpl in Hx.
    destruct (Ascii.eqb d "/"); discriminate.
  - subst y. apply andb_prop in Ha as [Hc _].
    destruct Hy as [Hy|Hy]; [discriminate|]. simpl in Hy.
    destruct (Ascii.eqb c "/"); discriminate.
  - injection E as -> E. apply andb_prop in Ha as [_ Ha].
    apply andb_prop in Hb as [_ Hb].
    destruct (IH b Ha Hb Hx Hy E) as [-> ->]. auto.
Qed.

(** When [q + '/'] is a prefix of [d ++ x], the separator lies in [d] or
    in [x]. *)
Lemma prefix_sep_split (d x q : string) :
  Str.startswith (d ++ x) (q ++ "/") = true ->
  Str.startswith d (q ++ "/") = true
  \/ exists u v, x = u ++ "/" ++ v /\ q = d ++ u.
Proof.
  revert q. induction d as [|c d IH]; intros q H.
  - right. apply startswith_iff in H as [t Ht]. simpl in Ht.
    exists q, t. rewrite append_assoc in Ht. auto.
  - destruct q as [|e q]; simpl in H |- *.
    + left. destruct (Ascii.eqb c "/"); [reflexivity | discriminate].
    + destruct (Ascii.eqb_spec c e) as [->|]; simpl in H; [|discriminate].
      destruct (IH q H) as [Hl|(u & v & -> & ->)].
      * left. now rewrite Hl.
      * right. exists u, v. auto.
Qed.

Lemma no_sep_no_split (n u v : string) :
  Str.no_sep n = true -> n <> u ++ "/" ++ v.
Proof.
  intros Hn E. rewrite E, !no_sep_app in Hn. simpl in Hn.
  now rewrite andb_false_r in Hn.
Qed.

Lemma name_then_sep (n u v : string) :
  Str.no_sep n = true -> n ++ "/" = u ++ "/" ++ v -> u = n.
Proof.
  revert u. induction n as [|c n IH]; intros [|d u] Hn E; simpl in *.
  - reflexivity.
  - injection E as _ E. destruct u; discriminate.
  - injection E as -> _. discriminate.
  - injection E as -> E. apply andb_prop in Hn as [_ Hn].
    f_equal. now apply IH.
Qed.

Lemma endswith_sep_app (x n : string) :
  n <> "" -> Str.endswith_sep (x ++ n) = Str.endswith_sep n.
Proof.
  intros Hn. induction x as [|c x IH]; simpl; [reflexivity|].
  destruct (x ++ n) eqn:E; [|exact IH].
  destruct x; simpl in E; [congruence | discriminate].
Qed.

Lemma no_sep_not_endswith (n : string) :
  Str.no_sep n = true -> Str.endswith_sep n = false.
Proof.
  induction n as [|c n IH]; simpl; [reflexivity|].
  intros H. apply andb_prop in H as [Hc Hn].
  destruct n; [now apply negb_true_iff in Hc | auto].
Qed.

Lemma valid_name_inv (n : string) :
  Pathlib.valid_name n = true ->
  Str.no_sep n = true /\ n <> "" /\ n <> "." /\ n <> "..".
Proof.
  unfold Pathlib.valid_name. intros H.
  apply andb_prop in H as [H H3]. apply andb_prop in H as [H H2].
  apply andb_prop in H as [H0 H1].
  rewrite negb_true_iff in H1, H2, H3.
  apply String.eqb_neq in H1, H2, H3. auto.
Qed.

Lemma begins_with_sep_inv (d : string) :
  begins_with_sep d = true -> exists d', d = String "/" d'.
Proof.
  unfold begins_with_sep. destruct d as [|c d]; simpl; [discriminate|].
  destruct (Ascii.eqb_spec c "/") as [->|]; [eauto | discriminate].
Qed.

(** The path of an entry of an absolute directory. *)
Lemma child_dirsep (d n : string) :
  begins_with_sep d = true -> Pathlib.child d n = dirsep d ++ n.
Proof.
  intros H. apply begins_with_sep_inv in H as [d' ->].
  unfold Pathlib.child, dirsep.
  replace (String.eqb (String "/" d') ".") with false
    by (destruct d'; reflexivity).
  replace (String.eqb (String "/" d') "") with false by reflexivity.
  rewrite orb_false_l. destruct (Str.endswith_sep _); [reflexivity|].
  now rewrite append_assoc.
Qed.

Lemma dirsep_begins (d : string) :
  begins_with_sep d = true -> begins_with_sep (dirsep d) = true.
Proof.
  intros H. apply begins_with_sep_inv in H as [d' ->].
  unfold dirsep. destruct (_ || _); reflexivity.
Qed.

Lemma child_begins (d n : string) :
  begins_with_sep d = true -> begins_with_sep (Pathlib.child d n) = true.
Proof.
  intros H. rewrite child_dirsep by assumption.
  apply dirsep_begins in H. apply begins_with_sep_inv in H as [d' ->].
  reflexivity.
Qed.

Lemma dirsep_child (d n : string) :
  begins_with_sep d = true -> Pathlib.valid_name n = true ->
  dirsep (Pathlib.child d n) = Pathlib.child d n ++ "/".
Proof.
  intros Hd Hn. destruct (valid_name_inv _ Hn) as (Hs & Hne & _).
  pose proof (child_begins d n Hd) as Hb.
  apply begins_with_sep_inv in Hb as [c' Hc'].
  unfold dirsep at 1.
  replace (String.eqb (Pathlib.child d n) "") with false
    by (now rewrite Hc').
  rewrite child_dirsep, endswith_sep_app, no_sep_not_endswith by assumption.
  reflexivity.
Qed.

(** ** The walk over a snapshot *)

Lemma node_ind' (P : node -> Prop) :
  P File ->
  (forall es, Forall (fun e => P (snd e)) es -> P (Dir es)) ->
  forall n, P n.
Proof.
  intros HF HD. fix IH 1. intros [|es]; [exact HF|].
  apply HD. induction es as [|e es IHes]; constructor;
    [apply IH | exact IHes].
Qed.

Lemma distinct_NoDup (l : list string) :
  Tree.distinct l = true -> NoDup l.
Proof.
  induction l as [|x l IH]; simpl; intros H; constructor.
  - apply andb_prop in H as [H _]. apply negb_true_iff in H.
    intros Hin.
    assert (E : existsb (String.eqb x) l = true).
    { apply existsb_exists. exists x. split; [exact Hin|].
      apply String.eqb_refl. }
    congruence.
  - apply andb_prop in H as [_ H]. auto.
Qed.

Lemma wf_dir_inv (es : list (string * node)) :
  Tree.wf (Dir es) = true ->
  (forall e, In e es ->
             Pathlib.valid_name (fst e) = true /\ Tree.wf (snd e) = true)
  /\ NoDup (Tree.names es).
Proof.
  simpl. intros H. apply andb_prop in H as [H Hw].
  apply andb_prop in H as [Hv Hd].
  rewrite forallb_forall in Hv, Hw. split; [auto|].
  now apply distinct_NoDup.
Qed.

Lemma wf_dir_tail (e : string * node) (es : list (string * node)) :
  Tree.wf (Dir (e :: es)) = true -> Tree.wf (Dir es) = true.
Proof.
  simpl. intros H. apply andb_prop in H as [H Hw].
  apply andb_prop in H as [Hv Hd].
  apply andb_prop in Hw as [_ Hw]. apply andb_prop in Hv as [_ Hv].
  apply andb_prop in Hd as [_ Hd]. now rewrite Hv, Hd, Hw.
Qed.

Lemma tree_walk_cons (path : string) (e : string * node)
      (es : list (string * node)) (keep : list string) :
  Tree.walk path (Dir (e :: es)) keep
  = (Tree.walk_entry (fun p c => Tree.walk p c keep) path keep e
     ++ Tree.walk path (Dir es) keep)%list.
Proof. reflexivity. Qed.

Lemma tree_walk_in (path : string) (es : list (string * node))
      (keep : list string) (p : string) :
  In p (Tree.walk path (Dir es) keep) <->
  exists e, In e es
            /\ In p (Tree.walk_entry (fun p c => Tree.walk p c keep)
                                     path keep e).
Proof. simpl. apply in_flat_map. Qed.

(** What one entry contributes begins with the path of the entry, given
    that this holds below it. *)
Lemma entry_form_from (d : string) (e : string * node) (keep : list string) :
  begins_with_sep d = true ->
  Pathlib.valid_name (fst e) = true ->
  (forall d' p, begins_with_sep d' = true ->
                In p (Tree.walk d' (snd e) keep) ->
                exists nm s, Pathlib.valid_name nm = true
                             /\ p = Pathlib.child d' nm ++ s
                             /\ sep_or_end s) ->
  forall p, In p (Tree.walk_entry (fun p c => Tree.walk p c keep) d keep e) ->
            exists s, p = Pathlib.child d (fst e) ++ s /\ sep_or_end s.
Proof.
  intros Hd Hv IH p Hp. destruct e as [k c].
  unfold Tree.walk_entry in Hp. simpl fst in *. simpl snd in *.
  destruct (walk_action _ keep).
  - contradiction.
  - destruct c as [|es]; [contradiction|].
    apply IH in Hp as (nm & s & Hnm & -> & Hs); [|now apply child_begins].
    rewrite (child_dirsep _ nm) by now apply child_begins.
    rewrite dirsep_child by assumption.
    exists ("/" ++ nm ++ s). split.
    + now rewrite !append_assoc.
    + right. reflexivity.
  - destruct Hp as [<-|[]]. exists "". rewrite append_nil_r.
    split; [reflexivity | now left].
Qed.

Lemma walk_form (n : node) (keep : list string) :
  Tree.wf n = true ->
  forall d p, begins_with_sep d = true ->
              In p (Tree.walk d n keep) ->
              exists nm s, Pathlib.valid_name nm = true
                           /\ p = Pathlib.child d nm ++ s
                           /\ sep_or_end s.
Proof.
  induction n as [|es IH] using node_ind'; intros Hwf d p Hd Hp.
  - contradiction.
  - destruct (wf_dir_inv _ Hwf) as [Hes _].
    apply tree_walk_in in Hp as (e & He & Hp).
    rewrite Forall_forall in IH. destruct (Hes e He) as [Hv Hw].
    exists (fst e).
    destruct (entry_form_from d e keep Hd Hv (IH e He Hw) p Hp)
      as (s & -> & Hs).
    eauto.
Qed.

Lemma entry_form (d : string) (e : string * node) (keep : list string) :
  begins_with_sep d = true ->
  Pathlib.valid_name (fst e) = true -> Tree.wf (snd e) = true ->
  forall p, In p (Tree.walk_entry (fun p c => Tree.walk p c keep) d keep e) ->
            exists s, p = Pathlib.child d (fst e) ++ s /\ sep_or_end s.
Proof.
  intros Hd Hv Hw. apply entry_form_from; auto.
  intros d' p. now apply walk_form.
Qed.

(** Paths that come from two entries with different names are neither equal
    nor nested. *)
Lemma entries_apart (d n n' s s' : string) :
  begins_with_sep d = true ->
  Pathlib.valid_name n = true -> Pathlib.valid_name n' = true ->
  n <> n' -> sep_or_end s -> sep_or_end s' ->
  Pathlib.child d n ++ s <> Pathlib.child d n' ++ s'
  /\ strict_descendant (Pathlib.child d n' ++ s') (Pathlib.child d n ++ s)
     = false.
Proof.
  intros Hd Hn Hn' Hne Hs Hs'.
  destruct (valid_name_inv _ Hn) as (Hn0 & _).
  destruct (valid_name_inv _ Hn') as (Hn0' & _).
  rewrite !child_dirsep by assumption. rewrite !append_assoc. split.
  - intros E. apply append_inj_l in E.
    now destruct (name_split n n' s s' Hn0 Hn0' Hs Hs' E).
  - unfold strict_descendant.
    destruct (Str.startswith _ _) eqn:E; [|reflexivity].
    rewrite !append_assoc, startswith_cancel in E.
    apply startswith_iff in E as [t Et]. rewrite !append_assoc in Et.
    symmetry in Et.
    assert (Hx : sep_or_end (s ++ "/" ++ t)).
    { right. destruct Hs as [->|Hs]; [reflexivity|].
      apply startswith_iff in Hs as [r ->]. reflexivity. }
    now destruct (name_split n n' _ s' Hn0 Hn0' Hx Hs' Et).
Qed.

Lemma non_nested_app (l1 l2 : list string) :
  non_nested l1 -> non_nested l2 ->
  (forall p q, In p l1 -> In q l2 ->
               strict_descendant q p = false
               /\ strict_descendant p q = false) ->
  non_nested (l1 ++ l2).
Proof.
  intros H1 H2 H12 p q Hp Hq.
  apply in_app_or in Hp as [Hp|Hp]; apply in_app_or in Hq as [Hq|Hq]; auto.
  - now destruct (H12 p q Hp Hq).
  - now destruct (H12 q p Hq Hp).
Qed.

Lemma walk_dir_apart (d : string) (es : list (string * node))
      (keep : list string) :
  begins_with_sep d = true -> Tree.wf (Dir es) = true ->
  (forall e, In e es ->
     NoDup (Tree.walk_entry (fun p c => Tree.walk p c keep) d keep e)
     /\ non_nested (Tree.walk_entry (fun p c => Tree.walk p c keep) d keep e)) ->
  NoDup (Tree.walk d (Dir es) keep) /\ non_nested (Tree.walk d (Dir es) keep).
Proof.
  intros Hd. induction es as [|e es IH]; intros Hwf He.
  - split; [constructor | intros p q []].
  - rewrite tree_walk_cons.
    destruct (He e (or_introl eq_refl)) as [Hnd Hnn].
    destruct (IH (wf_dir_tail _ _ Hwf) (fun x Hx => He x (or_intror Hx)))
      as [Hnd' Hnn'].
    destruct (wf_dir_inv _ Hwf) as [Hes Hnames].
    assert (Hcross : forall p q,
               In p (Tree.walk_entry (fun p c => Tree.walk p c keep) d keep e) ->
               In q (Tree.walk d (Dir es) keep) ->
               p <> q /\ strict_descendant q p = false
               /\ strict_descendant p q = false).
    { intros p q Hp Hq.
      apply tree_walk_in in Hq as (e' & He' & Hq).
      destruct (Hes e (or_introl eq_refl)) as [Hv Hw].
      destruct (Hes e' (or_intror He')) as [Hv' Hw'].
      apply (entry_form d e keep Hd Hv Hw) in Hp as (s & -> & Hs).
      apply (entry_form d e' keep Hd Hv' Hw') in Hq as (s' & -> & Hs').
      assert (Hne : fst e <> fst e').
      { simpl in Hnames. inversion Hnames as [|? ? Hnotin _]; subst.
        intros E. apply Hnotin. rewrite E. now apply in_map. }
      destruct (entries_apart d _ _ s s' Hd Hv Hv' Hne Hs Hs') as [H1 H2].
      destruct (entries_apart d _ _ s' s Hd Hv' Hv (not_eq_sym Hne) Hs' Hs)
        as [_ H3].
      auto. }
    split.
    + apply NoDup_app; auto.
      intros p Hp Hq. now destruct (Hcross p p Hp Hq).
    + apply non_nested_app; auto.
      intros p q Hp Hq. destruct (Hcross p q Hp Hq) as (_ & ? & ?). auto.
Qed.

(** The yielded paths are pairwise distinct and pairwise non-nested. *)
Lemma walk_apart (n : node) (keep : list string) :
  Tree.wf n = true ->
  forall d, begins_with_sep d = true ->
            NoDup (Tree.walk d n keep) /\ non_nested (Tree.walk d n keep).
Proof.
  induction n as [|es IH] using node_ind'; intros Hwf d Hd.
  - split; [constructor | intros p q []].
  - apply walk_dir_apart; auto.
    intros e He. rewrite Forall_forall in IH.
    destruct (wf_dir_inv _ Hwf) as [Hes _]. destruct (Hes e He) as [Hv Hw].
    unfold Tree.walk_entry. destruct (walk_action _ keep).
    + split; [constructor | intros p q []].
    + destruct (snd e) eqn:Ec.
      * split; [constructor | intros p q []].
      * rewrite <- Ec.
        apply IH; [exact He | now rewrite Ec | now apply child_begins].
    + split.
      * repeat constructor. intros [].
      * intros p q [<-|[]] [<-|[]]. apply not_self_descendant.
Qed.

(** Every yielded path lies below the directory walked. *)
Lemma walk_below (n : node) (keep : list string) (d p : string) :
  Tree.wf n = true -> begins_with_sep d = true ->
  In p (Tree.walk d n keep) ->
  exists rel, rel <> "" /\ Str.startswith rel "/" = false
              /\ p = dirsep d ++ rel.
Proof.
  intros Hwf Hd Hp.
  destruct (walk_form n keep Hwf d p Hd Hp) as (nm & s & Hnm & -> & _).
  destruct (valid_name_inv _ Hnm) as (Hns & Hne & _).
  exists (nm ++ s). rewrite child_dirsep, append_assoc by assumption.
  repeat split.
  - destruct nm; [congruence | discriminate].
  - destruct nm as [|c nm]; [congruence|]. simpl in *.
    destruct (Ascii.eqb c "/"); [discriminate | reflexivity].
Qed.

(** Below a directory that no keep element covers, nothing equal to or
    under a keep element is yielded, provided the keep list is not nested. *)
Lemma walk_avoids_keep (n : node) (keep : list string) :
  non_nested keep -> Tree.wf n = true ->
  forall d, begins_with_sep d = true -> clear_of keep d ->
  forall p, In p (Tree.walk d n keep) ->
  forall P, In P keep -> p <> P /\ strict_descendant p P = false.
Proof.
  intros Hkeep.
  induction n as [|es IH] using node_ind'; intros Hwf d Hd Hclear p Hp P HP.
  - contradiction.
  - apply tree_walk_in in Hp as (e & He & Hp).
    destruct (wf_dir_inv _ Hwf) as [Hes _]. destruct (Hes e He) as [Hv Hw].
    destruct (valid_name_inv _ Hv) as (Hns & _).
    rewrite Forall_forall in IH.
    unfold Tree.walk_entry in Hp.
    destruct (walk_action (Pathlib.child d (fst e)) keep) eqn:Ea.
    + contradiction.
    + destruct (snd e) eqn:Ec; [contradiction|]. rewrite <- Ec in Hp, Hw.
      apply (IH e He Hw (Pathlib.child d (fst e))); auto.
      * now apply child_begins.
      * intros Q HQ. rewrite dirsep_child, child_dirsep by assumption.
        destruct (Str.startswith _ (Q ++ "/")) eqn:E; [|reflexivity].
        rewrite append_assoc in E.
        apply prefix_sep_split in E as [E|(u & v & E & ->)].
        -- now rewrite (Hclear Q HQ) in E.
        -- apply name_then_sep in E; [subst u | assumption].
           apply walk_action_recurse_inv in Ea as (R & HR & HRp & _).
           rewrite child_dirsep in HRp by assumption.
           pose proof (Hkeep _ _ HQ HR) as X.
           unfold strict_descendant in X. congruence.
    + destruct Hp as [<-|[]].
      destruct (walk_action_yield_inv _ _ Ea P HP) as [Hne _].
      split; [congruence|].
      unfold strict_descendant. rewrite child_dirsep by assumption.
      destruct (Str.startswith _ (P ++ "/")) eqn:E; [|reflexivity].
      apply prefix_sep_split in E as [E|(u & v & E & _)].
      * now rewrite (Hclear P HP) in E.
      * now apply no_sep_no_split in E.
Qed.

(** ** Absolute paths *)

Lemma posix_begins (s : string) :
  begins_with_sep s = true -> begins_with_sep (Pathlib.posix s) = true.
Proof.
  intros H. apply begins_with_sep_inv in H as [s' ->].
  unfold Pathlib.posix, Pathlib.render, Pathlib.anchor.
  destruct (Str.startswith (String "/" s') "//"
            && negb (Str.startswith (String "/" s') "///")); reflexivity.
Qed.

Lemma absolute_begins (cwd root : string) :
  begins_with_sep cwd = true ->
  begins_with_sep (Pathlib.absolute cwd root) = true.
Proof.
  intros Hc. unfold Pathlib.absolute.
  destruct (Str.startswith root "/") eqn:E; [now apply posix_begins|].
  apply posix_begins. unfold os_path_join.
  destruct (Str.startswith (Pathlib.posix root) "/") eqn:E'; [exact E'|].
  apply begins_with_sep_inv in Hc as [c' ->].
  destruct (_ || _); reflexivity.
Qed.

Lemma dirsep_length (d : string) :
  String.length d <= String.length (dirsep d).
Proof.
  unfold dirsep. destruct (_ || _); [lia|]. rewrite length_append. lia.
Qed.

(** On a snapshot, nothing equal to or under a keep element is yielded. *)
Lemma snapshot_walk_avoids_keep (cwd root : string) (tree : node)
      (keep : list string) :
  begins_with_sep cwd = true ->
  Tree.wf tree = true ->
  non_nested keep ->
  clear_of keep (Pathlib.absolute cwd root) ->
  forall P p,
    In P keep ->
    In p (Tree.walk (Pathlib.absolute cwd root) tree keep) ->
    p <> P /\ strict_descendant p P = false.
Proof.
  intros Hc Hwf Hnn Hclear P p HP Hp.
  apply (walk_avoids_keep tree keep Hnn Hwf (Pathlib.absolute cwd root));
    auto using absolute_begins.
Qed.

(** C1 as stated fails in two ways: when a keep element precedes one of its
    strict ancestors in the list, the ancestor is entered and what lies
    beside the descendant is yielded; and when the root itself is a keep
    element, everything in it is yielded. *)
Lemma walk_yields_under_kept :
  (In "/a" ["/a/b"; "/a"]
   /\ In "/a/c"
         (Tree.walk (Pathlib.absolute "/" "/")
                    (Dir [("a", Dir [("b", File); ("c", File)])])
                    ["/a/b"; "/a"])
   /\ strict_descendant "/a/c" "/a" = true)
  /\ (In "/data" ["/data"]
      /\ In "/data/x"
            (Tree.walk (Pathlib.absolute "/" "/data") (Dir [("x", File)])
                       ["/data"])
      /\ strict_descendant "/data/x" "/data" = true).
Proof.
  repeat split; vm_compute; auto.
Qed.

(** On a snapshot, the yielded paths lie below the root and are pairwise
    distinct and non-nested. *)
Lemma snapshot_walk_yields_apart (cwd root : string) (tree : node)
      (keep : list string) :
  begins_with_sep cwd = true ->
  Tree.wf tree = true ->
  (forall p,
      In p (Tree.walk (Pathlib.absolute cwd root) tree keep) ->
      below (Pathlib.absolute cwd root) p)
  /\ ~ In (Pathlib.absolute cwd root)
          (Tree.walk (Pathlib.absolute cwd root) tree keep)
  /\ NoDup (Tree.walk (Pathlib.absolute cwd root) tree keep)
  /\ non_nested (Tree.walk (Pathlib.absolute cwd root) tree keep).
Proof.
  intros Hc Hwf. pose proof (absolute_begins cwd root Hc) as Hb.
  set (top := Pathlib.absolute cwd root) in *.
  assert (Hform : forall p,
             In p (Tree.walk top tree keep) -> below top p).
  { intros p Hp. now apply (walk_below tree keep top p). }
  split; [exact Hform|]. split.
  - intros Hin. apply Hform in Hin as (rel & Hne & _ & E).
    apply (f_equal String.length) in E. rewrite length_append in E.
    pose proof (dirsep_length top).
    destruct rel; [congruence | simpl in E; lia].
  - now apply walk_apart.
Qed.

(** ** pathlib: parsing and printing *)

Lemma split_sep_nonempty (s : string) : Pathlib.split_sep s <> [].
Proof.
  destruct s as [|c s]; simpl; [discriminate|].
  destruct (Ascii.eqb c "/"); [discriminate|].
  destruct (Pathlib.split_sep s); discriminate.
Qed.

Lemma split_sep_app (x y : string) :
  Pathlib.split_sep (x ++ "/" ++ y)
  = (Pathlib.split_sep x ++ Pathlib.split_sep y)%list.
Proof.
  induction x as [|c x IH]; simpl; [reflexivity|].
  change (x ++ String "/" y) with (x ++ "/" ++ y). rewrite IH.
  destruct (Ascii.eqb c "/"); [reflexivity|].
  pose proof (split_sep_nonempty x).
  destruct (Pathlib.split_sep x); [congruence | reflexivity].
Qed.

Lemma split_sep_no_sep (n : string) :
  Str.no_sep n = true -> Pathlib.split_sep n = [n].
Proof.
  induction n as [|c n IH]; simpl; [reflexivity|].
  intros H. apply andb_prop in H as [Hc Hn].
  apply negb_true_iff in Hc. rewrite Hc, (IH Hn). reflexivity.
Qed.

Lemma split_sep_parts_no_sep (s : string) :
  Forall (fun p => Str.no_sep p = true) (Pathlib.split_sep s).
Proof.
  induction s as [|c s IH]; simpl; [repeat constructor|].
  destruct (Ascii.eqb c "/") eqn:E; [constructor; auto|].
  destruct (Pathlib.split_sep s) as [|h t]; [repeat constructor|].
  - simpl. now rewrite E.
  - inversion IH; subst. constructor; [|assumption].
    simpl. now rewrite E.
Qed.

Lemma parts_app (x y : string) :
  Pathlib.parts (x ++ "/" ++ y) = (Pathlib.parts x ++ Pathlib.parts y)%list.
Proof. unfold Pathlib.parts. now rewrite split_sep_app, filter_app. Qed.

Lemma parts_empty : Pathlib.parts "" = [].
Proof. reflexivity. Qed.

Lemma parts_ok (s : string) :
  Forall (fun p => part_ok p = true) (Pathlib.parts s).
Proof.
  unfold Pathlib.parts, part_ok. apply Forall_forall. intros p Hp.
  apply filter_In in Hp as [Hin Hpart]. rewrite Hpart.
  pose proof (split_sep_parts_no_sep s) as H.
  rewrite Forall_forall in H. now apply H.
Qed.

Lemma parts_single (n : string) :
  part_ok n = true -> Pathlib.parts n = [n].
Proof.
  unfold part_ok, Pathlib.parts. intros H. apply andb_prop in H as [Hp Hn].
  rewrite split_sep_no_sep by assumption. simpl. now rewrite Hp.
Qed.

Lemma valid_name_part_ok (n : string) :
  Pathlib.valid_name n = true -> part_ok n = true.
Proof.
  intros H. destruct (valid_name_inv _ H) as (Hs & H1 & H2 & _).
  unfold part_ok, Pathlib.is_part. rewrite Hs.
  apply String.eqb_neq in H1, H2. now rewrite H1, H2.
Qed.

Lemma part_ok_inv (p : string) :
  part_ok p = true -> Str.no_sep p = true /\ p <> "" /\ p <> ".".
Proof.
  unfold part_ok, Pathlib.is_part. intros H.
  apply andb_prop in H as [H Hs]. apply andb_prop in H as [H1 H2].
  rewrite negb_true_iff in H1, H2. apply String.eqb_neq in H1, H2. auto.
Qed.

Lemma concat_cons (p : string) (ps : list string) :
  ps <> [] -> String.concat "/" (p :: ps) = p ++ "/" ++ String.concat "/" ps.
Proof. destruct ps; [congruence | reflexivity]. Qed.

Lemma concat_snoc (ps : list string) (n : string) :
  ps <> [] ->
  String.concat "/" (ps ++ [n]) = String.concat "/" ps ++ "/" ++ n.
Proof.
  induction ps as [|p ps IH]; [congruence|]. intros _.
  destruct ps as [|q ps]; [reflexivity|].
  change ((p :: q :: ps) ++ [n])%list with (p :: ((q :: ps) ++ [n]))%list.
  rewrite concat_cons by (simpl; discriminate).
  rewrite IH by discriminate.
  rewrite (concat_cons p (q :: ps)) by discriminate.
  now rewrite !append_assoc.
Qed.

Lemma parts_concat (ps : list string) :
  Forall (fun p => part_ok p = true) ps ->
  Pathlib.parts (String.concat "/" ps) = ps.
Proof.
  induction ps as [|p ps IH]; intros H; [reflexivity|].
  inversion H as [|? ? Hp Hps]; subst.
  destruct ps as [|q ps]; [now apply parts_single|].
  rewrite concat_cons by discriminate.
  rewrite parts_app, parts_single, IH by assumption. reflexivity.
Qed.

Lemma concat_not_begins (ps : list string) :
  Forall (fun p => part_ok p = true) ps ->
  Str.startswith (String.concat "/" ps) "/" = false.
Proof.
  intros H. destruct ps as [|p ps]; [reflexivity|].
  inversion H as [|? ? Hp _]; subst.
  destruct (part_ok_inv _ Hp) as (Hs & Hne & _).
  assert (E : exists r, String.concat "/" (p :: ps) = p ++ r).
  { destruct ps; [exists ""; now rewrite append_nil_r|].
    rewrite concat_cons by discriminate. eauto. }
  destruct E as [r ->]. destruct p as [|c p]; [congruence|].
  simpl in *. destruct (Ascii.eqb c "/"); [discriminate | reflexivity].
Qed.

Lemma concat_not_ends (ps : list string) :
  ps <> [] -> Forall (fun p => part_ok p = true) ps ->
  Str.endswith_sep (String.concat "/" ps) = false.
Proof.
  induction ps as [|p ps IH]; [congruence|]. intros _ H.
  inversion H as [|? ? Hp Hps]; subst.
  destruct (part_ok_inv _ Hp) as (Hs & Hne & _).
  destruct ps as [|q ps]; [now apply no_sep_not_endswith|].
  rewrite concat_cons by discriminate.
  rewrite <- append_assoc, endswith_sep_app.
  - apply IH; [discriminate | assumption].
  - inversion Hps as [|? ? Hq _]; subst.
    destruct (part_ok_inv _ Hq) as (_ & Hqne & _).
    destruct ps; [assumption|].
    rewrite concat_cons by discriminate.
    destruct q; [congruence | discriminate].
Qed.

Lemma concat_not_empty (ps : list string) :
  ps <> [] -> Forall (fun p => part_ok p = true) ps ->
  String.concat "/" ps <> "".
Proof.
  destruct ps as [|p ps]; [congruence|]. intros _ H.
  inversion H as [|? ? Hp _]; subst.
  destruct (part_ok_inv _ Hp) as (_ & Hne & _).
  destruct ps; [assumption|]. rewrite concat_cons by discriminate.
  destruct p; [congruence | discriminate].
Qed.

Lemma concat_not_dot (ps : list string) :
  Forall (fun p => part_ok p = true) ps -> String.concat "/" ps <> ".".
Proof.
  destruct ps as [|p ps]; [discriminate|]. intros H.
  inversion H as [|? ? Hp _]; subst.
  destruct (part_ok_inv _ Hp) as (_ & Hne & Hnd).
  destruct ps; [assumption|]. rewrite concat_cons by discriminate.
  intros E. destruct p as [|c p]; [congruence|].
  injection E as -> E. destruct p; discriminate.
Qed.

Lemma anchor_is_anchor (s : string) : is_anchor (Pathlib.anchor s).
Proof.
  unfold Pathlib.anchor, is_anchor.
  destruct (_ && _); [auto|]. destruct (Str.startswith s "/"); auto.
Qed.

Lemma anchor_relative (s : string) :
  Str.startswith s "/" = false -> Pathlib.anchor s = "".
Proof.
  unfold Pathlib.anchor. intros H.
  destruct s as [|c s]; [reflexivity|]. simpl in *.
  destruct (Ascii.eqb c "/"); [discriminate | reflexivity].
Qed.

Lemma anchor_prefixed (y : string) :
  Str.startswith y "/" = false ->
  Pathlib.anchor ("/" ++ y) = "/" /\ Pathlib.anchor ("//" ++ y) = "//".
Proof.
  intros H. destruct y as [|c y]; [split; reflexivity|].
  unfold Pathlib.anchor. simpl in *.
  destruct (Ascii.eqb c "/"); [discriminate | split; reflexivity].
Qed.

Lemma anchor_render (a : string) (ps : list string) :
  is_anchor a -> Forall (fun p => part_ok p = true) ps ->
  Pathlib.anchor (Pathlib.render a ps) = a.
Proof.
  intros Ha Hps. pose proof (concat_not_begins ps Hps) as Hc.
  destruct Ha as [->|[->| ->]].
  - destruct ps; [reflexivity|]. now apply anchor_relative.
  - apply (anchor_prefixed _ Hc).
  - apply (anchor_prefixed _ Hc).
Qed.

Lemma parts_render (a : string) (ps : list string) :
  is_anchor a -> Forall (fun p => part_ok p = true) ps ->
  Pathlib.parts (Pathlib.render a ps) = ps.
Proof.
  intros Ha Hps. destruct Ha as [->|[->| ->]].
  - destruct ps; [reflexivity|]. now apply parts_concat.
  - unfold Pathlib.render.
    change ("/" ++ String.concat "/" ps)
      with ("" ++ "/" ++ String.concat "/" ps).
    now rewrite parts_app, parts_concat.
  - unfold Pathlib.render.
    change ("//" ++ String.concat "/" ps)
      with ("" ++ "/" ++ "" ++ "/" ++ String.concat "/" ps).
    now rewrite !parts_app, parts_concat.
Qed.

Lemma posix_render (a : string) (ps : list string) :
  is_anchor a -> Forall (fun p => part_ok p = true) ps ->
  Pathlib.posix (Pathlib.render a ps) = Pathlib.render a ps.
Proof.
  intros Ha Hps. unfold Pathlib.posix.
  now rewrite anchor_render, parts_render.
Qed.

Lemma posix_idem (s : string) :
  Pathlib.posix (Pathlib.posix s) = Pathlib.posix s.
Proof.
  unfold Pathlib.posix at 2 3.
  apply posix_render; [apply anchor_is_anchor | apply parts_ok].
Qed.

Lemma child_render (a : string) (ps : list string) (n : string) :
  is_anchor a -> Forall (fun p => part_ok p = true) ps ->
  Pathlib.child (Pathlib.render a ps) n = Pathlib.render a (ps ++ [n]).
Proof.
  intros Ha Hps. destruct ps as [|p ps].
  - destruct Ha as [->|[->| ->]]; reflexivity.
  - assert (Hne : p :: ps <> []) by discriminate.
    pose proof (concat_not_ends _ Hne Hps) as He.
    pose proof (concat_not_empty _ Hne Hps) as H0.
    pose proof (concat_not_dot _ Hps) as Hd.
    assert (E : Pathlib.render a (p :: ps) = a ++ String.concat "/" (p :: ps))
      by (destruct a; reflexivity).
    assert (E' : Pathlib.render a ((p :: ps) ++ [n])
                 = a ++ String.concat "/" ((p :: ps) ++ [n]))
      by (destruct a; reflexivity).
    rewrite E, E', concat_snoc by assumption.
    unfold Pathlib.child.
    rewrite endswith_sep_app by assumption. rewrite He.
    replace (String.eqb (a ++ String.concat "/" (p :: ps)) ".") with false.
    + now rewrite append_assoc.
    + symmetry. apply String.eqb_neq.
      destruct Ha as [->|[->| ->]]; simpl; [assumption| |].
      * intros X. injection X as X. contradiction.
      * discriminate.
Qed.

Lemma posix_child (s n : string) :
  Pathlib.valid_name n = true ->
  Pathlib.posix (Pathlib.child (Pathlib.posix s) n)
  = Pathlib.child (Pathlib.posix s) n.
Proof.
  intros Hn. unfold Pathlib.posix at 2 3.
  rewrite child_render by (apply anchor_is_anchor || apply parts_ok).
  apply posix_render; [apply anchor_is_anchor|].
  apply Forall_app. split; [apply parts_ok|].
  constructor; [now apply valid_name_part_ok | constructor].
Qed.

Lemma endswith_sep_inv (x : string) :
  Str.endswith_sep x = true -> exists x', x = x' ++ "/".
Proof.
  induction x as [|c x IH]; simpl; [discriminate|].
  destruct x as [|d x].
  - intros H. apply Ascii.eqb_eq in H as ->. now exists "".
  - intros H. destruct (IH H) as [x' E]. exists (String c x').
    simpl. now rewrite <- E.
Qed.

(** The anchor is read off the first three characters. *)
Lemma anchor_app (x y : string) :
  begins_with_sep x = true ->
  Str.startswith y "/" = false ->
  Pathlib.anchor (x ++ y) = Pathlib.anchor x.
Proof.
  intros Hx Hy. apply begins_with_sep_inv in Hx as [x1 ->].
  destruct y as [|e y]; [now rewrite append_nil_r|].
  simpl in Hy. destruct (Ascii.eqb e "/") eqn:Ee; [discriminate|].
  unfold Pathlib.anchor. destruct x1 as [|c x1]; simpl.
  - now rewrite Ee.
  - destruct (Ascii.eqb c "/"); simpl; [|reflexivity].
    destruct x1 as [|d x1]; simpl; [now rewrite Ee | reflexivity].
Qed.

Lemma anchor_app_sep (x y : string) :
  begins_with_sep x = true -> Str.endswith_sep x = false ->
  Pathlib.anchor (x ++ "/" ++ y) = Pathlib.anchor x.
Proof.
  intros Hx He. apply begins_with_sep_inv in Hx as [x1 ->].
  unfold Pathlib.anchor. simpl.
  destruct x1 as [|c x1]; [discriminate|]. simpl.
  destruct (Ascii.eqb_spec c "/") as [->|]; simpl; [|reflexivity].
  destruct x1 as [|d x1]; [discriminate | reflexivity].
Qed.

(** The absolute form of a relative path: the components of the working
    directory, then those of the path. *)
Lemma absolute_relative (cwd s : string) :
  begins_with_sep cwd = true -> Str.startswith s "/" = false ->
  Pathlib.absolute cwd s
  = Pathlib.render (Pathlib.anchor cwd) (Pathlib.parts cwd ++ Pathlib.parts s).
Proof.
  intros Hc Hs. unfold Pathlib.absolute. rewrite Hs.
  unfold Pathlib.posix at 2. rewrite anchor_relative by assumption.
  set (qs := Pathlib.parts s).
  assert (Hqs : Forall (fun p => part_ok p = true) qs) by apply parts_ok.
  assert (Hr : Str.startswith (Pathlib.render "" qs) "/" = false).
  { destruct qs; [reflexivity|]. now apply concat_not_begins. }
  assert (Hp : Pathlib.parts (Pathlib.render "" qs) = qs)
    by (apply parts_render; [now left | assumption]).
  unfold os_path_join. rewrite Hr.
  replace (String.eqb cwd "") with false
    by (apply begins_with_sep_inv in Hc as [c' ->]; reflexivity).
  rewrite orb_false_l. unfold Pathlib.posix.
  destruct (Str.endswith_sep cwd) eqn:He.
  - rewrite anchor_app by assumption. f_equal.
    apply endswith_sep_inv in He as [c' ->].
    rewrite append_assoc, parts_app, Hp.
    change (c' ++ "/") with (c' ++ "/" ++ "").
    now rewrite parts_app, parts_empty, app_nil_r.
  - rewrite anchor_app_sep by assumption. f_equal.
    now rewrite parts_app, Hp.
Qed.

Lemma absolute_child (cwd s n : string) :
  begins_with_sep cwd = true -> Pathlib.valid_name n = true ->
  Pathlib.absolute cwd (Pathlib.child (Pathlib.posix s) n)
  = Pathlib.child (Pathlib.absolute cwd s) n.
Proof.
  intros Hc Hn. pose proof (valid_name_part_ok n Hn) as Hok.
  destruct (Str.startswith s "/") eqn:Hs.
  - unfold Pathlib.absolute. rewrite Hs.
    pose proof (child_begins (Pathlib.posix s) n (posix_begins s Hs)) as Hb.
    unfold begins_with_sep in Hb. rewrite Hb. now apply posix_child.
  - rewrite (absolute_relative cwd s) by assumption.
    rewrite child_render by
        (apply anchor_is_anchor || (apply Forall_app; split; apply parts_ok)).
    unfold Pathlib.posix. rewrite anchor_relative by assumption.
    rewrite child_render by (try apply parts_ok; now left).
    assert (Hqs : Forall (fun p => part_ok p = true) (Pathlib.parts s ++ [n])).
    { apply Forall_app. split; [apply parts_ok | now repeat constructor]. }
    rewrite absolute_relative.
    + rewrite parts_render by (auto; now left). now rewrite app_assoc.
    + assumption.
    + revert Hqs. generalize (Pathlib.parts s ++ [n])%list. intros qs Hqs.
      destruct qs; [reflexivity|]. now apply concat_not_begins.
Qed.

Lemma posix_absolute (cwd s : string) :
  Pathlib.posix (Pathlib.absolute cwd s) = Pathlib.absolute cwd s.
Proof.
  unfold Pathlib.absolute. destruct (Str.startswith s "/"); apply posix_idem.
Qed.

Lemma absolute_idem (cwd s : string) :
  begins_with_sep cwd = true ->
  Pathlib.absolute cwd (Pathlib.absolute cwd s) = Pathlib.absolute cwd s.
Proof.
  intros Hc. pose proof (absolute_begins cwd s Hc) as Hb.
  unfold Pathlib.absolute at 1. unfold begins_with_sep in Hb. rewrite Hb.
  apply posix_absolute.
Qed.

(** ** The program *)

Section ProgramFacts.

Context {FS : Type}.
Variable fs_listdir : string -> FS -> option (list string).
Variable fs_stat : string -> FS -> stat_result.
Variable fs_rmtree : string -> FS -> bool * FS.
Variable fs_makedirs : string -> nat -> FS -> bool * FS.
Variable fs_move : string -> string -> FS -> bool * FS.
Variable cwd : string.
Variable json_loads : string -> option json.

#[local] Abbreviation walk_ := (walk fs_listdir fs_stat cwd).
#[local] Abbreviation walk_entry_ := (walk_entry fs_stat cwd).
#[local] Abbreviation move_one_ := (move_one fs_stat fs_makedirs fs_move).
#[local] Abbreviation move_dirty_ :=
  (move_dirty fs_listdir fs_stat fs_rmtree fs_makedirs fs_move cwd).
#[local] Abbreviation main_ :=
  (main fs_listdir fs_stat fs_rmtree fs_makedirs fs_move cwd json_loads).

Lemma bind_ok_inv {A B : Type} (c : M FS A) (k : A -> M FS B) (f f2 : FS)
      (b : B) (evs : list event) :
  bind c k f = (Ok b, f2, evs) ->
  exists a f1 ev1 ev2,
    c f = (Ok a, f1, ev1) /\ k a f1 = (Ok b, f2, ev2)
    /\ evs = (ev1 ++ ev2)%list.
Proof.
  unfold bind. destruct (c f) as [[[a| |] f1] ev1]; try discriminate.
  destruct (k a f1) as [[r f2'] ev2] eqn:Ek. intros H. injection H as -> -> <-.
  exists a, f1, ev1, ev2. auto.
Qed.

Lemma events_bind {A B : Type} (c : M FS A) (k : A -> M FS B) (f : FS) :
  events (bind c k f)
  = (events (c f)
     ++ match outcome (c f) with
        | Ok a => events (k a (final_state (c f)))
        | _ => []
        end)%list.
Proof.
  unfold bind, events, outcome, final_state.
  destruct (c f) as [[[a| |] f1] ev1]; simpl; try now rewrite app_nil_r.
  now destruct (k a f1) as [[r f2] ev2].
Qed.

Lemma load_args_malformed (args : list string) (arg : string) :
  In arg args -> json_loads arg = None ->
  forall keep, load_args json_loads args keep = None.
Proof.
  intros Hin Hbad. induction args as [|a args IH]; [contradiction|].
  intros keep. simpl. destruct Hin as [->|Hin].
  - now rewrite Hbad.
  - destruct (json_loads a) as [[| |]|]; auto.
Qed.

(** C7: in every run of [move_dirty], if a directory exists at the
    quarantine target path, [shutil.rmtree] is called on it right after the
    test, the walk starts from the state the removal left (and does not
    start when the removal fails), and this call comes before every move. *)
Theorem preclean_precedes_moves (fuel : nat) (root target : string)
        (keep : list string) (f : FS) :
  fs_stat (os_path_join root (Str.drop 1 target)) f = IsDirectory ->
  (exists rest,
      events (move_dirty_ fuel root target keep f)
      = EIsdir (os_path_join root (Str.drop 1 target))
          :: ERmtree (os_path_join root (Str.drop 1 target)) :: rest
      /\ (fst (fs_rmtree (os_path_join root (Str.drop 1 target)) f) = true ->
          rest = events
                   (walk_ fuel root keep
                          (move_one_ root
                                     (os_path_join root (Str.drop 1 target)))
                          (snd (fs_rmtree
                                  (os_path_join root (Str.drop 1 target)) f))))
      /\ (fst (fs_rmtree (os_path_join root (Str.drop 1 target)) f) = false ->
          rest = []
          /\ outcome (move_dirty_ fuel root target keep f) = Raised))
  /\ (forall pre src dst post,
         events (move_dirty_ fuel root target keep f)
         = (pre ++ EMove src dst :: post)%list ->
         In (ERmtree (os_path_join root (Str.drop 1 target))) pre).
Proof.
  intros Hdir. set (t := os_path_join root (Str.drop 1 target)) in *.
  assert (Hshape : exists rest,
             events (move_dirty_ fuel root target keep f)
             = EIsdir t :: ERmtree t :: rest
             /\ (fst (fs_rmtree t f) = true ->
                 rest = events (walk_ fuel root keep (move_one_ root t)
                                      (snd (fs_rmtree t f))))
             /\ (fst (fs_rmtree t f) = false ->
                 rest = []
                 /\ outcome (move_dirty_ fuel root target keep f) = Raised)).
  { unfold move_dirty. fold t. unfold bind, os_path_isdir. rewrite Hdir.
    unfold shutil_rmtree, call.
    destruct (fs_rmtree t f) as [[|] f1]; simpl.
    - destruct (walk_ fuel root keep (move_one_ root t) f1)
        as [[r f2] evs]. simpl.
      exists evs. repeat split; congruence.
    - exists []. repeat split; congruence. }
  split; [exact Hshape|].
  destruct Hshape as (rest & E & _). intros pre src dst post E'.
  rewrite E in E'. destruct pre as [|e1 [|e2 pre]]; simpl in E'.
  - discriminate.
  - discriminate.
  - injection E' as _ <- _. right. now left.
Qed.

(** C9: for every invocation in which some keep-fragment argument is not
    valid JSON, [main] raises, the filesystem is left as it was and no call
    has been made to it: neither the removal of the quarantine directory nor
    a move. *)
Theorem malformed_argument_stops_main (fuel : nat) (root : string)
        (args partitions : list string) (stamp : string) (f : FS) :
  (exists arg, In arg args /\ json_loads arg = None) ->
  main fs_listdir fs_stat fs_rmtree fs_makedirs fs_move cwd json_loads
       fuel (root :: args) partitions stamp f
  = (Raised, f, []).
Proof.
  intros (arg & Hin & Hbad). unfold main.
  now rewrite (load_args_malformed args arg Hin Hbad).
Qed.

End ProgramFacts.

Lemma preclean_precedes_moves_witness :
  MemFS.stat "/" (os_path_join "/data" (Str.drop 1 "/oldroot/T")) stale_fs
  = IsDirectory
  /\ forall pre src dst post,
      events (MemFS.run_move_dirty "/" 5 "/data" "/oldroot/T"
                                   ["/data/oldroot"] stale_fs)
      = (pre ++ EMove src dst :: post)%list ->
      In (ERmtree "/data/oldroot/T") pre.
Proof.
  split; [reflexivity|].
  exact (proj2 (preclean_precedes_moves
                  (MemFS.listdir "/") (MemFS.stat "/") (MemFS.rmtree "/")
                  (MemFS.makedirs "/") (MemFS.move "/") "/" 5 "/data"
                  "/oldroot/T" ["/data/oldroot"] stale_fs eq_refl)).
Defined.

Lemma malformed_argument_stops_main_witness :
  (exists arg, In arg [keep_arg; "[/keep"]
               /\ sample_json_loads arg = None)
  /\ MemFS.run_main "/" sample_json_loads 5 ["/data"; keep_arg; "[/keep"]
                    ["/"] "T" sample_fs
     = (Raised, sample_fs, []).
Proof.
  assert (H : exists arg, In arg [keep_arg; "[/keep"]
                          /\ sample_json_loads arg = None).
  { exists "[/keep". split; [right; left; reflexivity | reflexivity]. }
  split; [exact H|].
  exact (malformed_argument_stops_main
           (MemFS.listdir "/") (MemFS.stat "/") (MemFS.rmtree "/")
           (MemFS.makedirs "/") (MemFS.move "/") "/" sample_json_loads 5
           "/data" [keep_arg; "[/keep"] ["/"] "T" sample_fs H).
Defined.

(** ** Events of a run *)

Lemma yields_of_app (a b : list event) :
  yields_of (a ++ b) = (yields_of a ++ yields_of b)%list.
Proof.
  induction a as [|e a IH]; simpl; [reflexivity|].
  destruct e; simpl; now rewrite IH.
Qed.

Lemma moves_of_app (a b : list event) :
  moves_of (a ++ b) = (moves_of a ++ moves_of b)%list.
Proof.
  induction a as [|e a IH]; simpl; [reflexivity|].
  destruct e; simpl; now rewrite IH.
Qed.

Lemma yields_of_in (evs : list event) (p : string) :
  In p (yields_of evs) <-> In (EYield p) evs.
Proof.
  induction evs as [|e evs IH]; simpl; [tauto|].
  destruct e; simpl; rewrite IH; intuition (try discriminate; try congruence).
Qed.

Lemma moves_of_in (evs : list event) (src dst : string) :
  In (src, dst) (moves_of evs) <-> In (EMove src dst) evs.
Proof.
  induction evs as [|e evs IH]; simpl; [tauto|].
  destruct e; simpl; rewrite IH; intuition (try discriminate; try congruence).
Qed.

Lemma relative_to_below (d rel : string) :
  relative_to d (dirsep d ++ rel) = rel.
Proof.
  unfold relative_to. induction (dirsep d) as [|c x IH]; simpl; auto.
Qed.

Lemma below_child (d n : string) :
  begins_with_sep d = true -> Pathlib.valid_name n = true ->
  below d (Pathlib.child d n).
Proof.
  intros Hd Hn. destruct (valid_name_inv _ Hn) as (Hs & Hne & _).
  exists n. rewrite child_dirsep by assumption.
  auto using no_sep_not_startswith.
Qed.

Lemma below_under_child (d n p : string) :
  begins_with_sep d = true -> Pathlib.valid_name n = true ->
  below (Pathlib.child d n) p -> below d p.
Proof.
  intros Hd Hn (rel & Hne & Hrel & ->).
  destruct (valid_name_inv _ Hn) as (Hs & Hnn & _).
  rewrite dirsep_child, child_dirsep by assumption.
  exists (n ++ "/" ++ rel). rewrite !append_assoc. repeat split.
  - destruct n; [congruence | discriminate].
  - destruct n as [|c n]; [congruence|]. simpl in *.
    destruct (Ascii.eqb c "/"); [discriminate | reflexivity].
Qed.

Section WalkFacts.

Context {FS : Type}.
Variable fs_listdir : string -> FS -> option (list string).
Variable fs_stat : string -> FS -> stat_result.
Variable fs_rmtree : string -> FS -> bool * FS.
Variable fs_makedirs : string -> nat -> FS -> bool * FS.
Variable fs_move : string -> string -> FS -> bool * FS.
Variable cwd : string.
Variable json_loads : string -> option json.

(** The working directory is an absolute path, and a listing holds names
    of entries. *)
Hypothesis cwd_absolute : begins_with_sep cwd = true.
Hypothesis listing_valid :
  forall p f names,
    fs_listdir p f = Some names ->
    Forall (fun n => Pathlib.valid_name n = true) names.

#[local] Abbreviation walk_ := (walk fs_listdir fs_stat cwd).
#[local] Abbreviation walk_entry_ := (walk_entry fs_stat cwd).
#[local] Abbreviation move_one_ := (move_one fs_stat fs_makedirs fs_move).
#[local] Abbreviation move_dirty_ :=
  (move_dirty fs_listdir fs_stat fs_rmtree fs_makedirs fs_move cwd).

Lemma always_ret {A : Type} (P : event -> Prop) (a : A) :
  always P (ret (FS := FS) a).
Proof. intros f. constructor. Qed.

Lemma always_bind {A B : Type} (P : event -> Prop) (c : M FS A)
      (k : A -> M FS B) :
  always P c -> (forall a, always P (k a)) -> always P (bind c k).
Proof.
  intros Hc Hk f. rewrite events_bind. apply Forall_app. split; [apply Hc|].
  destruct (outcome (c f)); [apply Hk | constructor | constructor].
Qed.

Lemma always_for_each {A : Type} (P : event -> Prop) (l : list A)
      (body : A -> M FS unit) :
  (forall x, In x l -> always P (body x)) -> always P (for_each l body).
Proof.
  induction l as [|x l IH]; intros H; simpl.
  - apply always_ret.
  - apply always_bind; [apply H; now left|].
    intros _. apply IH. intros y Hy. apply H. now right.
Qed.

Lemma always_single {A : Type} (P : event -> Prop) (c : M FS A) (e : event) :
  P e -> (forall f, events (c f) = [e]) -> always P c.
Proof. intros He Hc f. rewrite Hc. now repeat constructor. Qed.

Lemma events_path_iterdir (p : string) (f : FS) :
  events (path_iterdir fs_listdir p f) = [EListdir p].
Proof. unfold path_iterdir. now destruct (fs_listdir p f). Qed.

Lemma events_path_is_dir (p : string) (f : FS) :
  events (path_is_dir fs_stat p f) = [EStat p].
Proof. unfold path_is_dir. now destruct (fs_stat p f). Qed.

Lemma events_os_path_isdir (p : string) (f : FS) :
  events (os_path_isdir fs_stat p f) = [EIsdir p].
Proof. unfold os_path_isdir. now destruct (fs_stat p f). Qed.

Lemma events_call (e : event) (op : FS -> bool * FS) (f : FS) :
  events (call e op f) = [e].
Proof. unfold call. now destruct (op f) as [[|] f']. Qed.

(** The mover yields nothing and moves to the computed destination. *)
Lemma always_move_one (P : event -> Prop) (root target path : string) :
  (forall q, P (EIsdir q)) -> (forall q m, P (EMakedirs q m)) ->
  (forall l, P (EPrint l)) ->
  P (EMove path (move_to root target path)) ->
  always P (move_one_ root target path).
Proof.
  intros H1 H2 H3 H4. unfold move_one.
  apply always_bind.
  - eapply always_single; [apply H1 | apply events_os_path_isdir].
  - intros b. apply always_bind.
    + destruct b; [apply always_ret|].
      eapply always_single; [apply H2 | apply events_call].
    + intros _. apply always_bind.
      * eapply always_single; [apply H3 | reflexivity].
      * intros _. eapply always_single; [apply H4 | apply events_call].
Qed.

Lemma always_weaken {A : Type} (P Q : event -> Prop) (c : M FS A) :
  (forall e, P e -> Q e) -> always P c -> always Q c.
Proof. intros H Hc f. eapply Forall_impl; [exact H | apply Hc]. Qed.

(** As [always_bind], knowing where the value handed on comes from. *)
Lemma always_bind_from {A B : Type} (P : event -> Prop) (c : M FS A)
      (k : A -> M FS B) :
  always P c ->
  (forall a f, outcome (c f) = Ok a -> always P (k a)) ->
  always P (bind c k).
Proof.
  intros Hc Hk f. rewrite events_bind. apply Forall_app. split; [apply Hc|].
  destruct (outcome (c f)) eqn:E; [|constructor|constructor].
  now apply (Hk a f).
Qed.

Lemma iterdir_names (p : string) (f : FS) (names : list string) :
  outcome (path_iterdir fs_listdir p f) = Ok names ->
  fs_listdir p f = Some names.
Proof.
  unfold path_iterdir, outcome. destruct (fs_listdir p f); simpl; congruence.
Qed.

(** What the walk of a directory yields lies below it, whatever the
    consumer does to the filesystem in between. *)
Lemma walk_yields_below (keep : list string) (body : string -> M FS unit) :
  (forall p, always (fun e => is_yield e = false) (body p)) ->
  forall fuel root,
    always (yield_below (Pathlib.absolute cwd root))
           (walk_ fuel root keep body).
Proof.
  intros Hbody. induction fuel as [|fuel IH]; intros root.
  - intros f. constructor.
  - pose proof (absolute_begins cwd root cwd_absolute) as Hb.
    simpl. apply always_bind_from.
    + eapply always_single; [|apply events_path_iterdir]. exact I.
    + intros names f Hnames. apply iterdir_names in Hnames.
      apply listing_valid in Hnames. rewrite Forall_forall in Hnames.
      apply always_for_each. intros n Hn. specialize (Hnames n Hn).
      unfold walk_entry. rewrite absolute_child by assumption.
      destruct (walk_action _ keep).
      * apply always_ret.
      * apply always_bind.
        -- eapply always_single; [|apply events_path_is_dir]. exact I.
        -- intros [|]; [|apply always_ret].
           eapply always_weaken; [|apply IH].
           intros [] He; try exact I. simpl in *.
           rewrite <- absolute_child, absolute_idem, absolute_child in He
             by assumption.
           now apply (below_under_child _ n).
      * apply always_bind.
        -- eapply always_single; [|reflexivity]. now apply below_child.
        -- intros _. eapply always_weaken; [|apply Hbody].
           intros [] He; try exact I. discriminate.
Qed.

(** *** Moves follow yields *)

Lemma paired_quiet {A : Type} (mv : string -> string * string)
      (r : result A) (evs : list event) :
  yields_of evs = [] -> moves_of evs = [] -> paired mv r evs.
Proof. intros Hy Hm. left. now rewrite Hy, Hm. Qed.

Lemma pairs_ret {A : Type} (mv : string -> string * string) (a : A) :
  pairs mv (ret (FS := FS) a).
Proof. intros f. now apply paired_quiet. Qed.

Lemma pairs_bind {A B : Type} (mv : string -> string * string)
      (c : M FS A) (k : A -> M FS B) :
  pairs mv c -> (forall a, pairs mv (k a)) -> pairs mv (bind c k).
Proof.
  intros Hc Hk f. specialize (Hc f). unfold bind, outcome, events in *.
  destruct (c f) as [[[a| |] f1] ev1]; simpl in *; try exact Hc.
  specialize (Hk a f1). unfold outcome, events in Hk.
  destruct (k a f1) as [[r2 f2] ev2]. simpl in *.
  destruct Hc as [Hc|[[] _]].
  unfold paired. rewrite yields_of_app, moves_of_app, Hc.
  destruct Hk as [Hk|(Hf & ys & y & Hy & Hm)].
  - left. now rewrite Hk, map_app.
  - right. split; [exact Hf|].
    exists (yields_of ev1 ++ ys)%list, y.
    now rewrite Hy, Hm, map_app, app_assoc.
Qed.

Lemma pairs_for_each {A : Type} (mv : string -> string * string)
      (l : list A) (body : A -> M FS unit) :
  (forall x, pairs mv (body x)) -> pairs mv (for_each l body).
Proof.
  intros H. induction l as [|x l IH]; simpl.
  - apply pairs_ret.
  - apply pairs_bind; auto.
Qed.

Lemma pairs_quiet {A : Type} (mv : string -> string * string) (c : M FS A)
      (e : event) :
  is_yield e = false -> is_move e = false ->
  (forall f, events (c f) = [e]) -> pairs mv c.
Proof.
  intros Hy Hm Hc f. rewrite Hc. apply paired_quiet; now destruct e.
Qed.

(** One yield and the run of the mover on it. *)
Lemma pairs_yield_move (root target path : string) :
  pairs (fun p => (p, move_to root target p))
        (bind (yield path) (fun _ => move_one_ root target path)).
Proof.
  intros f. unfold bind, yield, move_one, bind, os_path_isdir, os_makedirs,
              shutil_move, call, print, ret, outcome, events, paired.
  destruct (fs_stat _ f); simpl;
    try (destruct (fs_makedirs _ _ f) as [[|] f1]; simpl);
    try (destruct (fs_move path _ _) as [[|] f2]; simpl);
    try (left; reflexivity).
  all: right; split; [exact I|]; exists [], path; split; reflexivity.
Qed.

Lemma walk_pairs (root target : string) (keep : list string) :
  forall fuel dir,
    pairs (fun p => (p, move_to root target p))
          (walk_ fuel dir keep (move_one_ root target)).
Proof.
  induction fuel as [|fuel IH]; intros dir.
  - intros f. now apply paired_quiet.
  - simpl. apply pairs_bind.
    + eapply pairs_quiet; [| |apply events_path_iterdir]; reflexivity.
    + intros names. apply pairs_for_each. intros n. unfold walk_entry.
      destruct (walk_action _ keep).
      * apply pairs_ret.
      * apply pairs_bind.
        -- eapply pairs_quiet; [| |apply events_path_is_dir]; reflexivity.
        -- intros [|]; [apply IH | apply pairs_ret].
      * apply pairs_yield_move.
Qed.

Lemma move_dirty_pairs (fuel : nat) (root target : string)
      (keep : list string) :
  pairs (fun p =>
           (p, move_to root (os_path_join root (Str.drop 1 target)) p))
        (move_dirty_ fuel root target keep).
Proof.
  unfold move_dirty. apply pairs_bind.
  - eapply pairs_quiet; [| |apply events_os_path_isdir]; reflexivity.
  - intros b. apply pairs_bind; [|intros _; apply walk_pairs].
    destruct b; [|apply pairs_ret].
    eapply pairs_quiet; [| |apply events_call]; reflexivity.
Qed.

Lemma move_dirty_yields_below (fuel : nat) (root target : string)
      (keep : list string) :
  always (yield_below (Pathlib.absolute cwd root))
         (move_dirty_ fuel root target keep).
Proof.
  unfold move_dirty. apply always_bind.
  - eapply always_single; [|apply events_os_path_isdir]. exact I.
  - intros b. apply always_bind.
    + destruct b; [|apply always_ret].
      eapply always_single; [|apply events_call]. exact I.
    + intros _. apply walk_yields_below.
      intros p. now apply always_move_one.
Qed.

Lemma drop_length_app (x y : string) :
  Str.drop (String.length x) (x ++ y) = y.
Proof. induction x as [|c x IH]; simpl; auto. Qed.

(** The slice of the source path is its path relative to the root. *)
Lemma move_to_below (root target rel : string) :
  plain_root cwd root = true ->
  move_to root target (dirsep (Pathlib.absolute cwd root) ++ rel)
  = os_path_join target rel.
Proof.
  unfold plain_root. intros H. apply String.eqb_eq in H.
  unfold move_to. rewrite H, append_assoc, drop_length_app. reflexivity.
Qed.

Lemma os_path_join_plain (target rel : string) :
  target <> "" -> Str.endswith_sep target = false ->
  Str.startswith rel "/" = false ->
  os_path_join target rel = target ++ "/" ++ rel.
Proof.
  intros Hne He Hrel. unfold os_path_join. rewrite Hrel, He.
  apply String.eqb_neq in Hne. now rewrite Hne.
Qed.

(** C6, as amended: when the root is an absolute path written the way
    [pathlib] prints it (trailing separators apart), every path the walk
    yields lies below the root, and [move_dirty] moves it to the quarantine
    target joined with the path of the source relative to the root, which
    is [target + '/' + relative path] for a target that does not end with a
    separator; every move is the move of a yielded path, and in a run that
    completes the moves are exactly these, in the order of the walk. *)
Theorem moves_keep_relative_paths (fuel : nat) (root target : string)
        (keep : list string) (f : FS) :
  plain_root cwd root = true ->
  (forall p,
      In p (yields_of (events (move_dirty_ fuel root target keep f))) ->
      below (Pathlib.absolute cwd root) p)
  /\ (forall src dst,
         In (src, dst)
            (moves_of (events (move_dirty_ fuel root target keep f))) ->
         In src (yields_of (events (move_dirty_ fuel root target keep f)))
         /\ dst = os_path_join (os_path_join root (Str.drop 1 target))
                               (relative_to (Pathlib.absolute cwd root) src))
  /\ (outcome (move_dirty_ fuel root target keep f) = Ok tt ->
      moves_of (events (move_dirty_ fuel root target keep f))
      = map (fun p =>
               (p, os_path_join (os_path_join root (Str.drop 1 target))
                                (relative_to (Pathlib.absolute cwd root) p)))
            (yields_of (events (move_dirty_ fuel root target keep f))))
  /\ (os_path_join root (Str.drop 1 target) <> "" ->
      Str.endswith_sep (os_path_join root (Str.drop 1 target)) = false ->
      forall p,
        In p (yields_of (events (move_dirty_ fuel root target keep f))) ->
        os_path_join (os_path_join root (Str.drop 1 target))
                     (relative_to (Pathlib.absolute cwd root) p)
        = os_path_join root (Str.drop 1 target) ++ "/"
          ++ relative_to (Pathlib.absolute cwd root) p).
Proof.
  intros Hplain.
  set (T := os_path_join root (Str.drop 1 target)).
  set (A := Pathlib.absolute cwd root).
  set (run := move_dirty_ fuel root target keep f).
  assert (Hbelow : forall p, In p (yields_of (events run)) -> below A p).
  { intros p Hp. apply yields_of_in in Hp.
    pose proof (move_dirty_yields_below fuel root target keep f) as H.
    rewrite Forall_forall in H. exact (H _ Hp). }
  assert (Hdest : forall p,
             In p (yields_of (events run)) ->
             move_to root T p = os_path_join T (relative_to A p)).
  { intros p Hp. destruct (Hbelow p Hp) as (rel & _ & Hrel & ->).
    unfold A. rewrite move_to_below, relative_to_below by assumption.
    reflexivity. }
  assert (Hmap : forall ys,
             (forall p, In p ys -> In p (yields_of (events run))) ->
             map (fun p => (p, move_to root T p)) ys
             = map (fun p => (p, os_path_join T (relative_to A p))) ys).
  { intros ys Hys. apply map_ext_in. intros p Hp. f_equal. auto. }
  pose proof (move_dirty_pairs fuel root target keep f) as Hpair.
  fold T run in Hpair.
  split; [exact Hbelow|]. split; [|split].
  - intros src dst Hin.
    destruct Hpair as [E|(_ & ys & y & Ey & E)]; rewrite E in Hin;
      apply in_map_iff in Hin as (p & Hp & Hin); injection Hp as <- <-.
    + split; [exact Hin | now apply Hdest].
    + assert (Hy : In p (yields_of (events run)))
        by (rewrite Ey; apply in_or_app; now left).
      split; [exact Hy | now apply Hdest].
  - intros Hok. destruct Hpair as [E|(Hf & _)].
    + rewrite E. now apply Hmap.
    + rewrite Hok in Hf. contradiction.
  - intros Hne He p Hp. destruct (Hbelow p Hp) as (rel & _ & Hrel & ->).
    rewrite relative_to_below. now apply os_path_join_plain.
Qed.

End WalkFacts.

Lemma memfs_listing_valid (cwd p : string) (f : MemFS.state)
      (names : list string) :
  MemFS.listdir cwd p f = Some names ->
  Forall (fun n => Pathlib.valid_name n = true) names.
Proof.
  unfold MemFS.listdir. destruct (MemFS.lookup _ f) as [[|es]|];
    try discriminate.
  intros H. injection H as <-. apply Forall_forall. intros n Hn.
  apply nodup_In in Hn. now apply filter_In in Hn.
Qed.

Lemma memfs_listing_distinct (cwd p : string) (f : MemFS.state)
      (names : list string) :
  MemFS.listdir cwd p f = Some names -> NoDup names.
Proof.
  unfold MemFS.listdir. destruct (MemFS.lookup _ f) as [[|es]|];
    try discriminate.
  intros H. injection H as <-. apply NoDup_nodup.
Qed.

Lemma moves_keep_relative_paths_witness :
  plain_root "/" "/data" = true
  /\ (outcome (MemFS.run_move_dirty "/" 5 "/data" "/oldroot/T"
                                    ["/data/keep/x"; "/data/oldroot"]
                                    sample_fs)
      = Ok tt ->
      moves_of (events (MemFS.run_move_dirty "/" 5 "/data" "/oldroot/T"
                                             ["/data/keep/x"; "/data/oldroot"]
                                             sample_fs))
      = map (fun p =>
               (p, os_path_join (os_path_join "/data" (Str.drop 1 "/oldroot/T"))
                                (relative_to (Pathlib.absolute "/" "/data") p)))
            (yields_of
               (events (MemFS.run_move_dirty "/" 5 "/data" "/oldroot/T"
                                             ["/data/keep/x"; "/data/oldroot"]
                                             sample_fs)))).
Proof.
  split; [reflexivity|].
  exact (proj1 (proj2 (proj2
           (moves_keep_relative_paths
              (MemFS.listdir "/") (MemFS.stat "/") (MemFS.rmtree "/")
              (MemFS.makedirs "/") (MemFS.move "/") "/" eq_refl
              (memfs_listing_valid "/") 5 "/data" "/oldroot/T"
              ["/data/keep/x"; "/data/oldroot"] sample_fs eq_refl)))).
Defined.

(** C6 as stated fails for a root that is not written the way [pathlib]
    prints it: for the root [/data/.] the walk yields [/data/drop], whose
    path relative to the root is [drop], and the move takes it to [op] under
    the target, since the slice is taken at the length of the root as
    given. *)
Lemma move_mangles_path_for_dotted_root :
  In "/data/drop"
     (yields_of (events (MemFS.run_move_dirty "/" 5 "/data/." "/q" []
                                              sample_fs)))
  /\ relative_to (Pathlib.absolute "/" "/data/.") "/data/drop" = "drop"
  /\ os_path_join (os_path_join "/data/." (Str.drop 1 "/q")) "drop"
     = "/data/./q/drop"
  /\ In ("/data/drop", "/data/./q/op")
        (moves_of (events (MemFS.run_move_dirty "/" 5 "/data/." "/q" []
                                                sample_fs)))
  /\ ~ In ("/data/drop", "/data/./q/drop")
          (moves_of (events (MemFS.run_move_dirty "/" 5 "/data/." "/q" []
                                                  sample_fs))).
Proof.
  split; [vm_compute; tauto|]. split; [reflexivity|].
  split; [reflexivity|]. split; [vm_compute; tauto|].
  vm_compute. intuition discriminate.
Qed.

(** ** A run without keep fragments *)

Lemma rstrip_not_ends (x : string) :
  Str.endswith_sep x = false -> Str.rstrip_sep x = x.
Proof.
  induction x as [|c x IH]; simpl; [reflexivity|].
  destruct x as [|d x].
  - intros H. simpl. now rewrite H.
  - intros H. rewrite (IH H). simpl. now rewrite andb_false_r.
Qed.

(** A root that is its own absolute form and begins with one separator
    is plain. *)
Lemma normal_root_plain (cwd root : string) :
  Pathlib.absolute cwd root = root -> single_sep root = true ->
  plain_root cwd root = true.
Proof.
  intros Habs Hs. unfold plain_root. rewrite Habs. apply String.eqb_eq.
  unfold single_sep in Hs. apply andb_prop in Hs as [Hb Hd].
  apply negb_true_iff in Hd.
  unfold Pathlib.absolute in Habs. rewrite Hb in Habs.
  pose proof (parts_ok root) as Hps.
  assert (Ha : Pathlib.anchor root = "/").
  { unfold Pathlib.anchor. now rewrite Hd, Hb. }
  unfold Pathlib.posix in Habs. rewrite Ha in Habs.
  destruct (Pathlib.parts root) as [|p ps] eqn:Ep.
  - rewrite <- Habs. reflexivity.
  - assert (He : Str.endswith_sep root = false).
    { rewrite <- Habs. unfold Pathlib.render.
      rewrite endswith_sep_app.
      - apply concat_not_ends; [discriminate | assumption].
      - apply concat_not_empty; [discriminate | assumption]. }
    unfold dirsep. rewrite He, rstrip_not_ends by assumption.
    replace (String.eqb root "") with false; [reflexivity|].
    symmetry. apply String.eqb_neq. intros ->. discriminate.
Qed.

Lemma normal_root_dirsep (root : string) :
  single_sep root = true -> os_path_join root "oldroot" = dirsep root ++ "oldroot".
Proof. intros _. now apply os_path_join_rel. Qed.

Lemma filter_none (P : string -> bool) (l : list string) :
  (forall x, In x l -> P x = false) -> filter P l = [].
Proof.
  induction l as [|x l IH]; simpl; intros H; [reflexivity|].
  rewrite (H x) by now left. apply IH. auto.
Qed.

(** Without keep fragments and without mount points under the root, the
    keep list is the quarantine directory alone. *)
Lemma final_keep_bare (root : string) (partitions : list string) :
  single_sep root = true ->
  (forall m, In m partitions -> strict_descendant m root = false) ->
  final_keep root [] partitions = [os_path_join root "oldroot"].
Proof.
  intros Hs Hm. unfold final_keep.
  rewrite (filter_none (fun x => Str.startswith x (root ++ "/")) partitions)
    by exact Hm.
  change (normalize_keep root (set_union (py_set []) [quarantine]))
    with [os_path_join root "oldroot"].
  change (set_diff (py_set []) [root]) with (@nil string).
  set (K := os_path_join root "oldroot").
  assert (HK : single_sep K = true)
    by (apply (join_single_sep root "/oldroot"); auto).
  change (set_union (py_set [K]) []) with [K].
  unfold normalize_keep, inner_breaks. simpl.
  rewrite String.eqb_refl. simpl.
  change (match K with "" => "" | String _ s' => s' end) with (Str.drop 1 K).
  now rewrite join_root_single.
Qed.

Lemma eqb_app_cancel (p a b : string) :
  String.eqb (p ++ a) (p ++ b) = String.eqb a b.
Proof.
  induction p as [|c p IH]; simpl; [reflexivity|].
  now rewrite Ascii.eqb_refl.
Qed.

(** With the quarantine directory as the only keep element, an entry of
    the root is skipped when it is that directory and yielded otherwise. *)
Lemma walk_action_bare (d n : string) :
  Pathlib.valid_name n = true ->
  walk_action (dirsep d ++ n) [dirsep d ++ "oldroot"]
  = if String.eqb n "oldroot" then Skip else Yield.
Proof.
  intros Hn. destruct (valid_name_inv _ Hn) as (Hs & _).
  simpl. rewrite eqb_app_cancel.
  destruct (String.eqb n "oldroot"); [reflexivity|].
  rewrite append_assoc, startswith_cancel.
  destruct (Str.startswith "oldroot" (n ++ "/")) eqn:E; [|reflexivity].
  apply startswith_iff in E as [t Et]. rewrite append_assoc in Et.
  apply (f_equal Str.no_sep) in Et. rewrite !no_sep_app in Et.
  simpl in Et. rewrite andb_false_r in Et. discriminate.
Qed.

Lemma no_yields (evs : list event) :
  Forall (fun e => is_yield e = false) evs -> yields_of evs = [].
Proof.
  induction 1 as [|e evs He _ IH]; [reflexivity|].
  destruct e; simpl in *; auto. discriminate.
Qed.

Section MainFacts.

Context {FS : Type}.
Variable fs_listdir : string -> FS -> option (list string).
Variable fs_stat : string -> FS -> stat_result.
Variable fs_rmtree : string -> FS -> bool * FS.
Variable fs_makedirs : string -> nat -> FS -> bool * FS.
Variable fs_move : string -> string -> FS -> bool * FS.
Variable cwd : string.
Variable json_loads : string -> option json.

Hypothesis cwd_absolute : begins_with_sep cwd = true.
Hypothesis listing_valid :
  forall p f names,
    fs_listdir p f = Some names ->
    Forall (fun n => Pathlib.valid_name n = true) names.

#[local] Abbreviation walk_ := (walk fs_listdir fs_stat cwd).
#[local] Abbreviation move_one_ := (move_one fs_stat fs_makedirs fs_move).
#[local] Abbreviation move_dirty_ :=
  (move_dirty fs_listdir fs_stat fs_rmtree fs_makedirs fs_move cwd).

(** In a completed loop over the entries of the root, with the quarantine
    directory as the only keep element, every other entry is yielded. *)
Lemma bare_loop_yields (fuel : nat) (root target : string)
      (names : list string) :
  Pathlib.absolute cwd root = root ->
  Forall (fun n => Pathlib.valid_name n = true) names ->
  forall f f' evs,
    for_each names
             (walk_entry fs_stat cwd
                (fun p => walk_ fuel p [dirsep root ++ "oldroot"]
                                (move_one_ root target))
                (Pathlib.posix root) [dirsep root ++ "oldroot"]
                (move_one_ root target)) f
    = (Ok tt, f', evs) ->
    yields_of evs
    = map (Pathlib.child root)
          (filter (fun n => negb (String.eqb n "oldroot")) names).
Proof.
  intros Habs. pose proof (absolute_begins cwd root cwd_absolute) as Hb.
  rewrite Habs in Hb.
  induction 1 as [|n names Hn _ IH]; intros f f' evs Hrun.
  - simpl in Hrun. injection Hrun as _ <-. reflexivity.
  - simpl in Hrun.
    apply bind_ok_inv in Hrun as ([] & f1 & ev1 & ev2 & H1 & H2 & ->).
    rewrite yields_of_app, (IH _ _ _ H2). clear H2 IH.
    unfold walk_entry in H1.
    rewrite absolute_child, Habs, child_dirsep, walk_action_bare in H1
      by assumption.
    simpl. destruct (String.eqb n "oldroot"); simpl.
    + injection H1 as _ <-. reflexivity.
    + apply bind_ok_inv in H1 as ([] & f2 & ev3 & ev4 & H3 & H4 & ->).
      injection H3 as _ <-. simpl.
      rewrite child_dirsep by assumption. f_equal.
      rewrite (no_yields ev4); [reflexivity|].
      pose proof (always_move_one fs_stat fs_makedirs fs_move
                    (fun e => is_yield e = false) root target
                    (dirsep root ++ n)
                    (fun _ => eq_refl) (fun _ _ => eq_refl)
                    (fun _ => eq_refl) eq_refl f2) as Hq.
      unfold events in Hq. now rewrite H4 in Hq.
Qed.

(** C2, as amended: when the root, an absolute path in normal form, is
    itself a mount point, no mount point lies under it and no keep fragment
    is given (there is no argument after the root, or each one is an empty
    JSON array), the keep list is the quarantine directory [root/oldroot]
    alone (the root is not a keep element), and a run that completes moves
    every entry of the root other than [oldroot] to the quarantine target,
    each under its own name: the entries are those the root holds when the
    run starts, or, when a directory stood at the target, once that
    directory has been removed. *)
Theorem bare_run_moves_every_entry (fuel : nat) (root stamp : string)
        (args partitions : list string) (f : FS) :
  Pathlib.absolute cwd root = root ->
  single_sep root = true ->
  In root partitions ->
  (forall m, In m partitions -> strict_descendant m root = false) ->
  load_args json_loads args [] = Some [] ->
  final_keep root [] partitions = [os_path_join root "oldroot"]
  /\ (outcome (main fs_listdir fs_stat fs_rmtree fs_makedirs fs_move cwd
                    json_loads fuel (root :: args) partitions stamp f)
      = Ok tt ->
      exists names,
        fs_listdir
          root
          (match
              fs_stat (os_path_join
                         root (Str.drop 1 (os_path_join quarantine stamp))) f
            with
            | IsDirectory =>
                snd (fs_rmtree
                       (os_path_join
                          root (Str.drop 1 (os_path_join quarantine stamp)))
                       f)
            | _ => f
            end)
        = Some names
        /\ moves_of
             (events (main fs_listdir fs_stat fs_rmtree fs_makedirs fs_move
                           cwd json_loads fuel (root :: args) partitions
                           stamp f))
           = map (fun n =>
                    (Pathlib.child root n,
                     os_path_join
                       (os_path_join
                          root
                          (Str.drop 1 (os_path_join quarantine stamp)))
                       n))
                 (filter (fun n => negb (String.eqb n "oldroot")) names)).
Proof.
  intros Habs Hs Hmount Hnone Hload.
  pose proof (final_keep_bare root partitions Hs Hnone) as Hkeep.
  split; [exact Hkeep|].
  pose proof (normal_root_plain cwd root Habs Hs) as Hplain.
  pose proof (absolute_begins cwd root cwd_absolute) as Hb.
  rewrite Habs in Hb.
  assert (Emain : main fs_listdir fs_stat fs_rmtree fs_makedirs fs_move cwd
                       json_loads fuel (root :: args) partitions stamp f
                  = move_dirty_ fuel root (os_path_join quarantine stamp)
                                (final_keep root [] partitions) f)
    by (unfold main; now rewrite Hload).
  rewrite Emain. clear Emain.
  rewrite Hkeep.
  rewrite normal_root_dirsep by assumption.
  set (T := os_path_join root (Str.drop 1 (os_path_join quarantine stamp))).
  set (K := dirsep root ++ "oldroot").
  intros Hok.
  pose proof (move_dirty_pairs fs_listdir fs_stat fs_rmtree fs_makedirs
                               fs_move cwd fuel root
                               (os_path_join quarantine stamp) [K] f)
    as Hpair.
  fold T in Hpair.
  destruct Hpair as [Hpair|(Hf & _)]; [|rewrite Hok in Hf; contradiction].
  rewrite Hpair. clear Hpair.
  destruct (move_dirty_ fuel root (os_path_join quarantine stamp) [K] f)
    as [[r f'] evs] eqn:Erun.
  unfold outcome in Hok. simpl in Hok. subst r. unfold events. simpl.
  unfold move_dirty in Erun. fold T in Erun.
  apply bind_ok_inv in Erun as (b & f0 & ev0 & ev1 & H0 & Erun & ->).
  apply bind_ok_inv in Erun as ([] & f1 & ev2 & ev3 & H1 & Erun & ->).
  assert (Hq0 : yields_of ev0 = []).
  { apply (f_equal events) in H0. rewrite events_os_path_isdir in H0.
    unfold events in H0. simpl in H0. now subst ev0. }
  assert (Hq2 : yields_of ev2 = []).
  { destruct b.
    - apply (f_equal events) in H1. unfold shutil_rmtree in H1.
      rewrite events_call in H1. unfold events in H1. simpl in H1.
      now subst ev2.
    - injection H1 as _ <-. reflexivity. }
  assert (Hf1 : f1 = match fs_stat T f with
                     | IsDirectory => snd (fs_rmtree T f)
                     | _ => f
                     end).
  { unfold os_path_isdir in H0.
    destruct (fs_stat T f); injection H0 as <- <- _.
    - unfold shutil_rmtree, call in H1.
      destruct (fs_rmtree T f) as [[|] fr]; [|discriminate].
      now injection H1 as <- _.
    - now injection H1 as <- _.
    - now injection H1 as <- _. }
  destruct fuel as [|fuel]; [discriminate|]. simpl in Erun.
  apply bind_ok_inv in Erun as (names & f2 & ev4 & ev5 & Hls & Erun & ->).
  assert (Hnames : fs_listdir (Pathlib.posix root) f1 = Some names
                   /\ f2 = f1 /\ ev4 = [EListdir (Pathlib.posix root)]).
  { unfold path_iterdir in Hls.
    destruct (fs_listdir (Pathlib.posix root) f1); [|discriminate].
    injection Hls as -> -> <-. auto. }
  destruct Hnames as (Hnames & -> & ->).
  assert (Hposix : Pathlib.posix root = root)
    by (rewrite <- Habs at 2; unfold Pathlib.absolute;
        unfold begins_with_sep in Hb; now rewrite Hb).
  pose proof (listing_valid _ _ _ Hnames) as Hvalid.
  rewrite Hposix in Hnames. exists names.
  split; [rewrite <- Hf1; exact Hnames|].
  pose proof (bare_loop_yields fuel root T names Habs Hvalid _ _ _ Erun)
    as Hy.
  rewrite !yields_of_app. rewrite Hy, Hq0, Hq2.
  simpl. rewrite map_map. apply map_ext_in. intros n Hn.
  apply filter_In in Hn as [Hn _].
  rewrite Forall_forall in Hvalid. specialize (Hvalid n Hn).
  destruct (valid_name_inv _ Hvalid) as (Hns & _).
  f_equal. rewrite child_dirsep by assumption.
  rewrite <- Habs at 2. rewrite move_to_below by assumption.
  reflexivity.
Qed.

End MainFacts.

Lemma bare_run_moves_every_entry_witness :
  Pathlib.absolute "/" "/data" = "/data"
  /\ single_sep "/data" = true
  /\ In "/data" ["/"; "/data"]
  /\ (forall m, In m ["/"; "/data"] -> strict_descendant m "/data" = false)
  /\ load_args sample_json_loads ["[]"] [] = Some []
  /\ final_keep "/data" [] ["/"; "/data"] = [os_path_join "/data" "oldroot"]
  /\ outcome (MemFS.run_main "/" sample_json_loads 5 ["/data"; "[]"]
                             ["/"; "/data"] "T" sample_fs)
     = Ok tt
  /\ MemFS.stat "/" "/data/oldroot/T" sample_fs = NotDirectory
  /\ MemFS.listdir "/" "/data" sample_fs = Some ["keep"; "drop"]
  /\ (exists names,
         MemFS.listdir
           "/" "/data"
           (match
               MemFS.stat
                 "/"
                 (os_path_join "/data"
                               (Str.drop 1 (os_path_join quarantine "T")))
                 sample_fs
             with
             | IsDirectory =>
                 snd (MemFS.rmtree
                        "/"
                        (os_path_join
                           "/data"
                           (Str.drop 1 (os_path_join quarantine "T")))
                        sample_fs)
             | _ => sample_fs
             end)
         = Some names
         /\ moves_of (events (MemFS.run_main "/" sample_json_loads 5
                                             ["/data"; "[]"] ["/"; "/data"]
                                             "T" sample_fs))
            = map (fun n =>
                     (Pathlib.child "/data" n,
                      os_path_join
                        (os_path_join
                           "/data"
                           (Str.drop 1 (os_path_join quarantine "T")))
                        n))
                  (filter (fun n => negb (String.eqb n "oldroot")) names)).
Proof.
  assert (Hin : In "/data" ["/"; "/data"]) by (right; left; reflexivity).
  assert (Hnone : forall m, In m ["/"; "/data"] ->
                            strict_descendant m "/data" = false).
  { intros m [<-|[<-|[]]]; reflexivity. }
  split; [reflexivity|]. split; [reflexivity|]. split; [exact Hin|].
  split; [exact Hnone|]. split; [reflexivity|].
  destruct (bare_run_moves_every_entry
              (MemFS.listdir "/") (MemFS.stat "/") (MemFS.rmtree "/")
              (MemFS.makedirs "/") (MemFS.move "/") "/" sample_json_loads
              eq_refl (memfs_listing_valid "/") 5 "/data" "T" ["[]"]
              ["/"; "/data"] sample_fs eq_refl eq_refl Hin Hnone eq_refl)
    as [Hkeep Hrun].
  split; [exact Hkeep|]. split; [reflexivity|]. split; [reflexivity|].
  split; [reflexivity|]. exact (Hrun eq_refl).
Defined.

(** C2 as stated fails: with the root [/data] a mount point, no mount point
    under it and no keep fragment, both entries of the root are moved to the
    quarantine directory; nothing stays where it was. *)
Lemma bare_run_on_mount_point_moves :
  In "/data" ["/"; "/data"]
  /\ (forall m, In m ["/"; "/data"] -> strict_descendant m "/data" = false)
  /\ outcome (MemFS.run_main "/" sample_json_loads 5 ["/data"]
                             ["/"; "/data"] "T" sample_fs)
     = Ok tt
  /\ moves_of (events (MemFS.run_main "/" sample_json_loads 5 ["/data"]
                                      ["/"; "/data"] "T" sample_fs))
     = [("/data/keep", "/data/oldroot/T/keep");
        ("/data/drop", "/data/oldroot/T/drop")]
  /\ MemFS.lookup ["data"; "keep"; "x"]
                  (final_state
                     (MemFS.run_main "/" sample_json_loads 5 ["/data"]
                                     ["/"; "/data"] "T" sample_fs))
     = None
  /\ MemFS.lookup ["data"; "oldroot"; "T"; "keep"; "x"]
                  (final_state
                     (MemFS.run_main "/" sample_json_loads 5 ["/data"]
                                     ["/"; "/data"] "T" sample_fs))
     = Some File.
Proof.
  split; [right; left; reflexivity|].
  split; [intros m [<-|[<-|[]]]; reflexivity|].
  repeat split; reflexivity.
Qed.

(** ** The recurse verdict *)

Lemma child_not_in_own_walk (path name : string) (n : node)
      (keep : list string) :
  begins_with_sep path = true -> Pathlib.valid_name name = true ->
  Tree.wf n = true ->
  ~ In (Pathlib.child path name) (Tree.walk (Pathlib.child path name) n keep).
Proof.
  intros Hp Hn Hwf Hin.
  pose proof (child_begins path name Hp) as Hb.
  destruct (walk_below n keep _ _ Hwf Hb Hin) as (rel & Hne & _ & E).
  apply (f_equal String.length) in E. rewrite length_append in E.
  pose proof (dirsep_length (Pathlib.child path name)).
  destruct rel; [congruence | simpl in E; lia].
Qed.

Lemma not_below_self (d : string) : ~ below d d.
Proof.
  intros (rel & Hne & _ & E).
  apply (f_equal String.length) in E. rewrite length_append in E.
  pose proof (dirsep_length d).
  destruct rel; [congruence | simpl in E; lia].
Qed.

Section RecurseFacts.

Context {FS : Type}.
Variable fs_listdir : string -> FS -> option (list string).
Variable fs_stat : string -> FS -> stat_result.
Variable cwd : string.

(** C8: for a child classified [Recurse] that is a directory, the turn of
    the loop is the recursive walk of the child, after the test of its
    kind: the child directory is listed, the loop over its entries runs
    with the same keep list and its results are spliced in, and the child
    itself is not yielded, every path the turn yields lying below the
    child; for a child classified [Recurse] that is not a directory, the
    turn ends normally after the test, with nothing yielded and no
    directory listed.  On a snapshot: the paths of a directory child are
    those of its own walk, which never include the child and include every
    entry of the child classified [Yield], and a non-directory child
    contributes nothing. *)
Theorem recurse_verdict_descends_or_drops (fuel : nat) (dir name : string)
        (keep : list string) (body : string -> M FS unit) (f : FS) :
  walk_action (Pathlib.absolute cwd (Pathlib.child dir name)) keep = Recurse ->
  (fs_stat (Pathlib.child dir name) f = IsDirectory ->
   outcome (walk_entry fs_stat cwd
                       (fun p => walk fs_listdir fs_stat cwd fuel p keep body)
                       dir keep body name f)
   = outcome (walk fs_listdir fs_stat cwd fuel
                   (Pathlib.absolute cwd (Pathlib.child dir name)) keep body f)
   /\ final_state (walk_entry fs_stat cwd
                     (fun p => walk fs_listdir fs_stat cwd fuel p keep body)
                     dir keep body name f)
      = final_state (walk fs_listdir fs_stat cwd fuel
                          (Pathlib.absolute cwd (Pathlib.child dir name))
                          keep body f)
   /\ events (walk_entry fs_stat cwd
                (fun p => walk fs_listdir fs_stat cwd fuel p keep body)
                dir keep body name f)
      = EStat (Pathlib.child dir name)
          :: events (walk fs_listdir fs_stat cwd fuel
                          (Pathlib.absolute cwd (Pathlib.child dir name))
                          keep body f)
   /\ (forall fuel',
          fuel = S fuel' ->
          events (walk_entry fs_stat cwd
                    (fun p => walk fs_listdir fs_stat cwd fuel p keep body)
                    dir keep body name f)
          = EStat (Pathlib.child dir name)
              :: EListdir (Pathlib.absolute cwd (Pathlib.child dir name))
              :: match
                   fs_listdir (Pathlib.absolute cwd (Pathlib.child dir name))
                              f
                 with
                 | Some names =>
                     events
                       (for_each
                          names
                          (walk_entry
                             fs_stat cwd
                             (fun p =>
                                walk fs_listdir fs_stat cwd fuel' p keep body)
                             (Pathlib.absolute cwd (Pathlib.child dir name))
                             keep body)
                          f)
                 | None => []
                 end)
   /\ (begins_with_sep cwd = true ->
       (forall p g names,
           fs_listdir p g = Some names ->
           Forall (fun n => Pathlib.valid_name n = true) names) ->
       (forall p, always (fun e => is_yield e = false) (body p)) ->
       ~ In (EYield (Pathlib.absolute cwd (Pathlib.child dir name)))
            (events (walk_entry
                       fs_stat cwd
                       (fun p => walk fs_listdir fs_stat cwd fuel p keep body)
                       dir keep body name f))
       /\ (forall p,
              In (EYield p)
                 (events (walk_entry
                            fs_stat cwd
                            (fun p =>
                               walk fs_listdir fs_stat cwd fuel p keep body)
                            dir keep body name f)) ->
              below (Pathlib.absolute cwd (Pathlib.child dir name)) p)))
  /\ (fs_stat (Pathlib.child dir name) f = NotDirectory ->
      walk_entry fs_stat cwd
                 (fun p => walk fs_listdir fs_stat cwd fuel p keep body)
                 dir keep body name f
      = (Ok tt, f, [EStat (Pathlib.child dir name)]))
  /\ (forall path es rest,
         walk_action (Pathlib.child path name) keep = Recurse ->
         Tree.walk path (Dir ((name, Dir es) :: rest)) keep
         = (Tree.walk (Pathlib.child path name) (Dir es) keep
            ++ Tree.walk path (Dir rest) keep)%list
         /\ Tree.walk path (Dir ((name, File) :: rest)) keep
            = Tree.walk path (Dir rest) keep
         /\ (begins_with_sep path = true ->
             Pathlib.valid_name name = true -> Tree.wf (Dir es) = true ->
             ~ In (Pathlib.child path name)
                  (Tree.walk (Pathlib.child path name) (Dir es) keep))
         /\ (forall n t,
                In (n, t) es ->
                walk_action (Pathlib.child (Pathlib.child path name) n) keep
                = Yield ->
                In (Pathlib.child (Pathlib.child path name) n)
                   (Tree.walk path (Dir ((name, Dir es) :: rest)) keep))).
Proof.
  intros Hrec. split; [|split].
  - intros Hdir.
    assert (Hev : events (walk_entry
                            fs_stat cwd
                            (fun p =>
                               walk fs_listdir fs_stat cwd fuel p keep body)
                            dir keep body name f)
                  = EStat (Pathlib.child dir name)
                      :: events (walk fs_listdir fs_stat cwd fuel
                                      (Pathlib.absolute
                                         cwd (Pathlib.child dir name))
                                      keep body f)).
    { unfold walk_entry. rewrite Hrec. unfold bind, path_is_dir.
      rewrite Hdir.
      now destruct (walk fs_listdir fs_stat cwd fuel _ keep body f)
        as [[r f'] evs]. }
    split; [|split; [|split; [exact Hev|split]]].
    + unfold walk_entry. rewrite Hrec. unfold bind, path_is_dir.
      rewrite Hdir.
      now destruct (walk fs_listdir fs_stat cwd fuel _ keep body f)
        as [[r f'] evs].
    + unfold walk_entry. rewrite Hrec. unfold bind, path_is_dir.
      rewrite Hdir.
      now destruct (walk fs_listdir fs_stat cwd fuel _ keep body f)
        as [[r f'] evs].
    + intros fuel' ->. rewrite Hev. f_equal.
      cbn [walk]. rewrite posix_absolute, events_bind.
      unfold path_iterdir, outcome, final_state.
      now destruct (fs_listdir _ f).
    + intros Hcwd Hvalid Hquiet.
      assert (Hbelow : forall p,
                 In (EYield p)
                    (events (walk_entry
                               fs_stat cwd
                               (fun p =>
                                  walk fs_listdir fs_stat cwd fuel p keep
                                       body)
                               dir keep body name f)) ->
                 below (Pathlib.absolute cwd (Pathlib.child dir name)) p).
      { intros p Hp. rewrite Hev in Hp. destruct Hp as [Hp|Hp];
          [discriminate|].
        pose proof (walk_yields_below fs_listdir fs_stat cwd Hcwd Hvalid
                                      keep body Hquiet fuel
                                      (Pathlib.absolute
                                         cwd (Pathlib.child dir name)) f)
          as H.
        rewrite Forall_forall in H. specialize (H _ Hp). simpl in H.
        now rewrite absolute_idem in H. }
      split; [|exact Hbelow].
      intros Hin. exact (not_below_self _ (Hbelow _ Hin)).
  - intros Hnot. unfold walk_entry. rewrite Hrec.
    unfold bind, path_is_dir. rewrite Hnot. reflexivity.
  - intros path es rest Hrec'.
    assert (Hsplice : Tree.walk path (Dir ((name, Dir es) :: rest)) keep
                      = (Tree.walk (Pathlib.child path name) (Dir es) keep
                         ++ Tree.walk path (Dir rest) keep)%list).
    { rewrite tree_walk_cons. unfold Tree.walk_entry. simpl fst. simpl snd.
      now rewrite Hrec'. }
    split; [exact Hsplice|]. split; [|split].
    + rewrite tree_walk_cons. unfold Tree.walk_entry. simpl fst. simpl snd.
      now rewrite Hrec'.
    + intros Hp Hn Hwf. now apply child_not_in_own_walk.
    + intros n t Hin Hy. rewrite Hsplice. apply in_or_app. left.
      apply tree_walk_in. exists (n, t). split; [exact Hin|].
      unfold Tree.walk_entry. simpl fst. rewrite Hy. now left.
Qed.

End RecurseFacts.

Lemma recurse_verdict_descends_or_drops_witness :
  (walk_action (Pathlib.absolute "/" (Pathlib.child "/data" "a"))
               ["/data/a/b"]
   = Recurse
   /\ MemFS.stat "/" (Pathlib.child "/data" "a")
                 (Dir [("data", sample_tree)])
      = IsDirectory
   /\ events (walk_entry (MemFS.stat "/") "/"
                (fun p => walk (MemFS.listdir "/") (MemFS.stat "/") "/" 3 p
                               ["/data/a/b"] (fun _ => ret tt))
                "/data" ["/data/a/b"] (fun _ => ret tt) "a"
                (Dir [("data", sample_tree)]))
      = [EStat "/data/a"; EListdir "/data/a"; EYield "/data/a/c"]
   /\ ~ In (EYield (Pathlib.absolute "/" (Pathlib.child "/data" "a")))
           (events
              (walk_entry (MemFS.stat "/") "/"
                 (fun p => walk (MemFS.listdir "/") (MemFS.stat "/") "/" 3 p
                                ["/data/a/b"] (fun _ => ret tt))
                 "/data" ["/data/a/b"] (fun _ => ret tt) "a"
                 (Dir [("data", sample_tree)]))))
  /\ (walk_action (Pathlib.absolute "/" (Pathlib.child "/data" "ab"))
                  ["/data/ab/x"]
      = Recurse
      /\ MemFS.stat "/" (Pathlib.child "/data" "ab")
                    (Dir [("data", sample_tree)])
         = NotDirectory
      /\ walk_entry (MemFS.stat "/") "/"
                    (fun p => walk (MemFS.listdir "/") (MemFS.stat "/") "/"
                                   3 p ["/data/ab/x"] (fun _ => ret tt))
                    "/data" ["/data/ab/x"] (fun _ => ret tt) "ab"
                    (Dir [("data", sample_tree)])
         = (Ok tt, Dir [("data", sample_tree)],
            [EStat (Pathlib.child "/data" "ab")])).
Proof.
  split.
  - destruct (proj1 (recurse_verdict_descends_or_drops
                       (MemFS.listdir "/") (MemFS.stat "/") "/" 3 "/data"
                       "a" ["/data/a/b"] (fun _ => ret tt)
                       (Dir [("data", sample_tree)]) eq_refl)
                    eq_refl)
      as (_ & _ & _ & Hlist & Hyield).
    split; [reflexivity|]. split; [reflexivity|]. split.
    + rewrite (Hlist 2 eq_refl). reflexivity.
    + exact (proj1 (Hyield eq_refl (memfs_listing_valid "/")
                           (fun _ => always_ret _ tt))).
  - split; [reflexivity|]. split; [reflexivity|].
    exact (proj1 (proj2 (recurse_verdict_descends_or_drops
                           (MemFS.listdir "/") (MemFS.stat "/") "/" 3
                           "/data" "ab" ["/data/ab/x"] (fun _ => ret tt)
                           (Dir [("data", sample_tree)]) eq_refl))
                 eq_refl).
Defined.

(** ** The generator on a filesystem that does not change *)

Lemma depth_entry (e : string * node) (es : list (string * node)) :
  In e es -> S (depth (snd e)) <= depth (Dir es).
Proof.
  simpl. intros Hin. apply le_n_S.
  induction es as [|x es IH]; [contradiction|]. simpl.
  destruct Hin as [->|Hin]; [lia|]. specialize (IH Hin). lia.
Qed.

Section SnapshotFacts.

Context {FS : Type}.
Variable fs_listdir : string -> FS -> option (list string).
Variable fs_stat : string -> FS -> stat_result.
Variable cwd : string.

Hypothesis cwd_absolute : begins_with_sep cwd = true.

#[local] Abbreviation walk_ := (walk fs_listdir fs_stat cwd).
#[local] Abbreviation represents_ := (represents fs_listdir fs_stat).

Lemma represents_dir_inv (f : FS) (dir abs : string)
      (es : list (string * node)) :
  represents_ f dir abs (Dir es) ->
  fs_listdir dir f = Some (map fst es)
  /\ forall e, In e es ->
       match snd e with
       | File => fs_stat (Pathlib.child dir (fst e)) f = NotDirectory
       | Dir _ =>
           fs_stat (Pathlib.child dir (fst e)) f = IsDirectory
           /\ represents_ f (Pathlib.child abs (fst e))
                          (Pathlib.child abs (fst e)) (snd e)
       end.
Proof.
  simpl. intros [Hls Hall]. split; [exact Hls|]. clear Hls.
  induction es as [|x es IH]; [contradiction|].
  destruct Hall as [Hx Hall].
  intros e [<-|Hin]; [exact Hx | exact (IH Hall e Hin)].
Qed.

Lemma for_each_map {A B : Type} (g : A -> B) (l : list A)
      (step : B -> M FS unit) :
  for_each (map g l) step = for_each l (fun x => step (g x)).
Proof. induction l as [|x l IH]; simpl; [reflexivity | now rewrite IH]. Qed.

(** A loop whose turns all complete and leave the state as it is. *)
Lemma for_each_static {A : Type} (l : list A) (step : A -> M FS unit)
      (f : FS) (g : A -> list string) :
  (forall x, In x l ->
             exists ev, step x f = (Ok tt, f, ev) /\ yields_of ev = g x) ->
  exists evs, for_each l step f = (Ok tt, f, evs)
              /\ yields_of evs = flat_map g l.
Proof.
  induction l as [|x l IH]; intros H.
  - exists []. auto.
  - destruct (H x (or_introl eq_refl)) as (ev & Hx & Hy).
    destruct (IH (fun y Hy' => H y (or_intror Hy'))) as (evs & Hl & Hys).
    exists (ev ++ evs)%list. simpl. unfold bind. rewrite Hx, Hl.
    split; [reflexivity|]. now rewrite yields_of_app, Hy, Hys.
Qed.

Lemma walk_snapshot (keep : list string) (n : node) :
  Tree.wf n = true ->
  forall root f fuel,
    depth n <= fuel -> Tree.is_dir n = true ->
    represents_ f (Pathlib.posix root) (Pathlib.absolute cwd root) n ->
    exists evs,
      walk_ fuel root keep (fun _ => ret tt) f = (Ok tt, f, evs)
      /\ yields_of evs = Tree.walk (Pathlib.absolute cwd root) n keep.
Proof.
  induction n as [|es IH] using node_ind'; intros Hwf root f fuel Hd Hdir Hrep.
  - discriminate.
  - destruct fuel as [|fuel]; [simpl in Hd; lia|].
    destruct (represents_dir_inv _ _ _ _ Hrep) as [Hls Hes].
    destruct (wf_dir_inv _ Hwf) as [Hvalid _].
    rewrite Forall_forall in IH.
    set (abs := Pathlib.absolute cwd root) in *.
    destruct (for_each_static es
                (fun e => walk_entry fs_stat cwd
                            (fun p => walk_ fuel p keep (fun _ => ret tt))
                            (Pathlib.posix root) keep (fun _ => ret tt)
                            (fst e))
                f
                (Tree.walk_entry (fun p c => Tree.walk p c keep) abs keep))
      as (evs & Hrun & Hy).
    + intros e He. destruct (Hvalid e He) as [Hv Hw].
      specialize (Hes e He). unfold walk_entry, Tree.walk_entry.
      rewrite absolute_child by assumption. fold abs.
      destruct (walk_action (Pathlib.child abs (fst e)) keep).
      * exists []. auto.
      * unfold bind, path_is_dir. destruct (snd e) as [|ces] eqn:Ec.
        -- rewrite Hes. exists [EStat (Pathlib.child (Pathlib.posix root)
                                                    (fst e))]. auto.
        -- destruct Hes as [Hst Hc]. rewrite Hst.
           rewrite <- Ec in Hw, Hc.
           assert (Ea : Pathlib.absolute cwd (Pathlib.child abs (fst e))
                        = Pathlib.child abs (fst e)).
           { unfold abs. rewrite <- absolute_child by assumption.
             now apply absolute_idem. }
           assert (Ep : Pathlib.posix (Pathlib.child abs (fst e))
                        = Pathlib.child abs (fst e)).
           { unfold abs. rewrite <- absolute_child by assumption.
             apply posix_absolute. }
           destruct (IH e He Hw (Pathlib.child abs (fst e)) f fuel)
             as (evc & Hrunc & Hyc).
           ++ pose proof (depth_entry e es He). lia.
           ++ now rewrite Ec.
           ++ now rewrite Ep, Ea.
           ++ rewrite Hrunc. rewrite Ea in Hyc. rewrite <- Ec.
              exists (EStat (Pathlib.child (Pathlib.posix root) (fst e))
                        :: evc). auto.
      * exists [EYield (Pathlib.child abs (fst e))]. auto.
    + exists (EListdir (Pathlib.posix root) :: evs). simpl walk.
      unfold bind, path_iterdir. rewrite Hls, for_each_map, Hrun.
      split; [reflexivity|]. exact Hy.
Qed.

(** X4: on a filesystem that a well-formed snapshot describes, the generator,
    consumed as [list(walk(root, keep))] with fuel for the depth of the
    tree, completes, leaves the filesystem as it is, and yields the paths of
    the walk over the snapshot. *)
Theorem walk_on_snapshot (root : string) (es : list (string * node))
        (keep : list string) (f : FS) (fuel : nat) :
  Tree.wf (Dir es) = true ->
  represents fs_listdir fs_stat f (Pathlib.posix root)
             (Pathlib.absolute cwd root) (Dir es) ->
  depth (Dir es) <= fuel ->
  exists evs,
    walk fs_listdir fs_stat cwd fuel root keep (fun _ => ret tt) f
    = (Ok tt, f, evs)
    /\ yields_of evs = Tree.walk (Pathlib.absolute cwd root) (Dir es) keep.
Proof.
  intros Hwf Hrep Hd. now apply walk_snapshot.
Qed.

End SnapshotFacts.

(** The sample tree under [/data] is what the walk of [/data] sees. *)
Example sample_tree_represented :
  represents (MemFS.listdir "/") (MemFS.stat "/")
             (Dir [("data", sample_tree)])
             (Pathlib.posix "/data") (Pathlib.absolute "/" "/data")
             sample_tree.
Proof. simpl. repeat split. Qed.

Lemma walk_on_snapshot_witness :
  exists evs,
    walk (MemFS.listdir "/") (MemFS.stat "/") "/" 3 "/data"
         ["/data/a/b"; "/data/keep"] (fun _ => ret tt)
         (Dir [("data", sample_tree)])
    = (Ok tt, Dir [("data", sample_tree)], evs)
    /\ yields_of evs
       = Tree.walk (Pathlib.absolute "/" "/data") sample_tree
                   ["/data/a/b"; "/data/keep"].
Proof.
  pose proof sample_tree_represented as Hrep. unfold sample_tree in *.
  refine (walk_on_snapshot (MemFS.listdir "/") (MemFS.stat "/") "/" eq_refl
                           "/data" _ _ _ 3 _ Hrep _);
    [reflexivity | simpl; lia].
Defined.

(** ** The walk on a filesystem that changes

    The consumer of the generator may change the filesystem between two
    yields, as [move_dirty] does.  What follows holds for every behaviour of
    the filesystem in which a listing holds valid names, each once. *)

(** A yielded entry of a directory that no keep element covers is neither
    a keep element nor under one. *)
Lemma yield_clear (keep : list string) (d n : string) :
  begins_with_sep d = true -> Pathlib.valid_name n = true ->
  clear_of keep d ->
  walk_action (Pathlib.child d n) keep = Yield ->
  forall P, In P keep ->
            Pathlib.child d n <> P
            /\ strict_descendant (Pathlib.child d n) P = false.
Proof.
  intros Hd Hn Hclear Ea P HP.
  destruct (valid_name_inv _ Hn) as (Hns & _).
  destruct (walk_action_yield_inv _ _ Ea P HP) as [Hne _].
  split; [congruence|].
  unfold strict_descendant. rewrite child_dirsep by assumption.
  destruct (Str.startswith _ (P ++ "/")) eqn:E; [|reflexivity].
  apply prefix_sep_split in E as [E|(u & v & E & _)].
  - now rewrite (Hclear P HP) in E.
  - now apply no_sep_no_split in E.
Qed.

(** An entry that is entered is not covered by a keep element either, when
    the keep list is not nested. *)
Lemma recurse_clear (keep : list string) (d n : string) :
  begins_with_sep d = true -> Pathlib.valid_name n = true ->
  non_nested keep -> clear_of keep d ->
  walk_action (Pathlib.child d n) keep = Recurse ->
  clear_of keep (Pathlib.child d n).
Proof.
  intros Hd Hn Hkeep Hclear Ea Q HQ.
  destruct (valid_name_inv _ Hn) as (Hns & _).
  rewrite dirsep_child, child_dirsep by assumption.
  destruct (Str.startswith _ (Q ++ "/")) eqn:E; [|reflexivity].
  rewrite append_assoc in E.
  apply prefix_sep_split in E as [E|(u & v & E & ->)].
  - now rewrite (Hclear Q HQ) in E.
  - apply name_then_sep in E; [subst u | assumption].
    apply walk_action_recurse_inv in Ea as (R & HR & HRp & _).
    rewrite child_dirsep in HRp by assumption.
    pose proof (Hkeep _ _ HQ HR) as X.
    unfold strict_descendant in X. congruence.
Qed.

Lemma below_at_entry (d n p : string) :
  begins_with_sep d = true -> Pathlib.valid_name n = true ->
  below (Pathlib.child d n) p -> at_entry d n p.
Proof.
  intros Hd Hn (rel & _ & _ & ->). rewrite dirsep_child by assumption.
  exists ("/" ++ rel). rewrite append_assoc. split; [reflexivity|].
  now right.
Qed.

Lemma yields_apart_single (p : string) (evs : list event) :
  yields_of evs = [p] -> yields_apart evs.
Proof.
  intros E. unfold yields_apart. rewrite E. split.
  - repeat constructor. intros [].
  - intros a b [<-|[]] [<-|[]]. apply not_self_descendant.
Qed.

Lemma yields_apart_none (evs : list event) :
  yields_of evs = [] -> yields_apart evs.
Proof.
  intros E. unfold yields_apart. rewrite E.
  split; [constructor | intros a b []].
Qed.

Lemma forall_yield_at (d : string) (names : list string) (evs : list event)
      (p : string) :
  Forall (yield_at d names) evs -> In p (yields_of evs) ->
  exists n, In n names /\ at_entry d n p.
Proof.
  intros H Hp. apply yields_of_in in Hp. rewrite Forall_forall in H.
  exact (H _ Hp).
Qed.

(** The yields of one entry and those of later entries stay apart. *)
Lemma yields_apart_app (d n : string) (rest : list string)
      (ev1 ev2 : list event) :
  begins_with_sep d = true ->
  Pathlib.valid_name n = true ->
  Forall (fun m => Pathlib.valid_name m = true) rest ->
  ~ In n rest ->
  yields_apart ev1 -> yields_apart ev2 ->
  Forall (yield_at d [n]) ev1 -> Forall (yield_at d rest) ev2 ->
  yields_apart (ev1 ++ ev2).
Proof.
  intros Hd Hn Hrest Hnotin [Hnd1 Hnn1] [Hnd2 Hnn2] Hat1 Hat2.
  assert (Hcross : forall p q,
             In p (yields_of ev1) -> In q (yields_of ev2) ->
             p <> q /\ strict_descendant q p = false
             /\ strict_descendant p q = false).
  { intros p q Hp Hq.
    destruct (forall_yield_at _ _ _ _ Hat1 Hp) as (n1 & [<-|[]] & s & -> & Hs).
    destruct (forall_yield_at _ _ _ _ Hat2 Hq) as (m & Hm & s' & -> & Hs').
    rewrite Forall_forall in Hrest. pose proof (Hrest m Hm) as Hvm.
    assert (Hne : n <> m) by (intros ->; contradiction).
    destruct (entries_apart d n m s s' Hd Hn Hvm Hne Hs Hs') as [H1 H2].
    destruct (entries_apart d m n s' s Hd Hvm Hn (not_eq_sym Hne) Hs' Hs)
      as [_ H3].
    auto. }
  unfold yields_apart. rewrite yields_of_app. split.
  - apply NoDup_app; auto.
    intros p Hp Hq. now destruct (Hcross p p Hp Hq).
  - apply non_nested_app; auto.
    intros p q Hp Hq. destruct (Hcross p q Hp Hq) as (_ & ? & ?). auto.
Qed.

Section LiveFacts.

Context {FS : Type}.
Variable fs_listdir : string -> FS -> option (list string).
Variable fs_stat : string -> FS -> stat_result.
Variable fs_rmtree : string -> FS -> bool * FS.
Variable fs_makedirs : string -> nat -> FS -> bool * FS.
Variable fs_move : string -> string -> FS -> bool * FS.
Variable cwd : string.

Hypothesis cwd_absolute : begins_with_sep cwd = true.
Hypothesis listing_valid :
  forall p f names,
    fs_listdir p f = Some names ->
    Forall (fun n => Pathlib.valid_name n = true) names.
Hypothesis listing_distinct :
  forall p f names, fs_listdir p f = Some names -> NoDup names.

#[local] Abbreviation walk_ := (walk fs_listdir fs_stat cwd).

Variable keep : list string.
Variable body : string -> M FS unit.
Hypothesis body_quiet : forall p, always (fun e => is_yield e = false) (body p).

Lemma absolute_of_child (root n : string) :
  Pathlib.valid_name n = true ->
  Pathlib.absolute cwd (Pathlib.child (Pathlib.absolute cwd root) n)
  = Pathlib.child (Pathlib.absolute cwd root) n.
Proof.
  intros Hn. rewrite <- absolute_child by assumption.
  now apply absolute_idem.
Qed.

(** Nothing kept is yielded. *)
Lemma walk_yields_avoid :
  non_nested keep ->
  forall fuel root,
    clear_of keep (Pathlib.absolute cwd root) ->
    always (yield_avoids keep) (walk_ fuel root keep body).
Proof.
  intros Hkeep. induction fuel as [|fuel IH]; intros root Hclear.
  - intros f. constructor.
  - pose proof (absolute_begins cwd root cwd_absolute) as Hb.
    simpl. apply (always_bind_from).
    + eapply always_single; [|apply events_path_iterdir]. exact I.
    + intros names f Hnames. apply iterdir_names in Hnames.
      apply listing_valid in Hnames. rewrite Forall_forall in Hnames.
      apply always_for_each. intros n Hn. specialize (Hnames n Hn).
      unfold walk_entry. rewrite absolute_child by assumption.
      destruct (walk_action _ keep) eqn:Ea.
      * apply always_ret.
      * apply always_bind.
        -- eapply always_single; [|apply events_path_is_dir]. exact I.
        -- intros [|]; [|apply always_ret]. apply IH.
           rewrite absolute_of_child by assumption.
           now apply recurse_clear.
      * apply always_bind.
        -- eapply always_single; [|reflexivity]. simpl.
           now apply yield_clear.
        -- intros _. eapply always_weaken; [|apply body_quiet].
           intros [] He; try exact I. discriminate.
Qed.

(** What the turn for an entry yields is at that entry. *)
Lemma walk_entry_yields_at (fuel : nat) (root n : string) :
  Pathlib.valid_name n = true ->
  always (yield_at (Pathlib.absolute cwd root) [n])
         (walk_entry fs_stat cwd (fun p => walk_ fuel p keep body)
                     (Pathlib.posix root) keep body n).
Proof.
  intros Hn. pose proof (absolute_begins cwd root cwd_absolute) as Hb.
  unfold walk_entry. rewrite absolute_child by assumption.
  destruct (walk_action _ keep).
  - apply always_ret.
  - apply always_bind.
    + eapply always_single; [|apply events_path_is_dir]. exact I.
    + intros [|]; [|apply always_ret].
      eapply always_weaken;
        [|apply (walk_yields_below fs_listdir fs_stat cwd cwd_absolute
                                   listing_valid keep body body_quiet)].
      intros [] He; try exact I. simpl in *.
      rewrite absolute_of_child in He by assumption.
      exists n. split; [now left|]. now apply below_at_entry.
  - apply always_bind.
    + eapply always_single; [|reflexivity]. simpl.
      exists n. split; [now left|]. exists "". rewrite append_nil_r.
      split; [reflexivity | now left].
    + intros _. eapply always_weaken; [|apply body_quiet].
      intros [] He; try exact I. discriminate.
Qed.

Lemma for_each_yields_at (fuel : nat) (root : string) (names : list string) :
  Forall (fun n => Pathlib.valid_name n = true) names ->
  always (yield_at (Pathlib.absolute cwd root) names)
         (for_each names
                   (walk_entry fs_stat cwd (fun p => walk_ fuel p keep body)
                               (Pathlib.posix root) keep body)).
Proof.
  intros Hv. rewrite Forall_forall in Hv.
  apply always_for_each. intros n Hn.
  eapply always_weaken; [|apply walk_entry_yields_at; auto].
  intros [] He; try exact I. simpl in *.
  destruct He as (m & [<-|[]] & Hm). eauto.
Qed.

(** The yielded paths are pairwise distinct and non-nested. *)
Lemma walk_yields_apart_live :
  forall fuel root f, yields_apart (events (walk_ fuel root keep body f)).
Proof.
  induction fuel as [|fuel IH]; intros root f.
  - now apply yields_apart_none.
  - pose proof (absolute_begins cwd root cwd_absolute) as Hb.
    simpl walk. rewrite events_bind.
    unfold path_iterdir at 1 2 3.
    destruct (fs_listdir (Pathlib.posix root) f) as [names|] eqn:Hls;
      [|now apply yields_apart_none].
    unfold events at 1, outcome, final_state. simpl fst. simpl snd.
    change ([EListdir (Pathlib.posix root)] ++ ?x)%list
      with (EListdir (Pathlib.posix root) :: x).
    pose proof (listing_valid _ _ _ Hls) as Hvalid.
    pose proof (listing_distinct _ _ _ Hls) as Hdistinct.
    clear Hls.
    assert (Hloop : forall f1,
               yields_apart
                 (events
                    (for_each names
                       (walk_entry fs_stat cwd
                          (fun p => walk_ fuel p keep body)
                          (Pathlib.posix root) keep body) f1))).
    { induction names as [|n names IHn]; intros f1.
      - now apply yields_apart_none.
      - inversion Hvalid as [|? ? Hn Hrest]; subst.
        inversion Hdistinct as [|? ? Hnotin Hnd]; subst.
        simpl for_each. rewrite events_bind.
        apply (yields_apart_app (Pathlib.absolute cwd root) n names);
          auto.
        + unfold walk_entry. rewrite absolute_child by assumption.
          destruct (walk_action _ keep).
          * now apply yields_apart_none.
          * rewrite events_bind, events_path_is_dir.
            unfold path_is_dir, outcome, final_state.
            destruct (fs_stat _ f1); simpl; try now apply yields_apart_none.
            apply IH.
          * rewrite events_bind.
            apply (yields_apart_single
                     (Pathlib.child (Pathlib.absolute cwd root) n)).
            unfold yield at 1 2. unfold outcome, final_state, events at 1.
            simpl. f_equal. apply no_yields. apply body_quiet.
        + destruct (outcome _);
            [apply IHn; assumption | | ]; now apply yields_apart_none.
        + apply walk_entry_yields_at. assumption.
        + destruct (outcome _); [|constructor|constructor].
          now apply for_each_yields_at. }
    destruct (Hloop f) as [H1 H2]. split; assumption.
Qed.

End LiveFacts.

(** ** What a run of [move_dirty] moves *)

Lemma paired_sources (g : string -> string) (A : Type) (r : result A)
      (evs : list event) :
  paired (fun p => (p, g p)) r evs ->
  exists rest, yields_of evs = (map fst (moves_of evs) ++ rest)%list.
Proof.
  intros [E|(_ & ys & y & Ey & E)]; rewrite E, map_map; simpl;
    rewrite map_id.
  - exists []. now rewrite app_nil_r.
  - exists [y]. exact Ey.
Qed.

Lemma non_nested_prefix (l rest : list string) :
  non_nested (l ++ rest) -> non_nested l.
Proof. intros H p q Hp Hq. apply H; apply in_or_app; now left. Qed.

Section MoveFacts.

Context {FS : Type}.
Variable fs_listdir : string -> FS -> option (list string).
Variable fs_stat : string -> FS -> stat_result.
Variable fs_rmtree : string -> FS -> bool * FS.
Variable fs_makedirs : string -> nat -> FS -> bool * FS.
Variable fs_move : string -> string -> FS -> bool * FS.
Variable cwd : string.

Hypothesis cwd_absolute : begins_with_sep cwd = true.
Hypothesis listing_valid :
  forall p f names,
    fs_listdir p f = Some names ->
    Forall (fun n => Pathlib.valid_name n = true) names.
Hypothesis listing_distinct :
  forall p f names, fs_listdir p f = Some names -> NoDup names.

#[local] Abbreviation move_dirty_ :=
  (move_dirty fs_listdir fs_stat fs_rmtree fs_makedirs fs_move cwd).
#[local] Abbreviation move_one_ := (move_one fs_stat fs_makedirs fs_move).

Lemma move_one_quiet (root target p : string) :
  always (fun e => is_yield e = false) (move_one_ root target p).
Proof. now apply always_move_one. Qed.

(** The yields of a run are those of its walk. *)
Lemma move_dirty_yields (fuel : nat) (root target : string)
      (keep : list string) (f : FS) :
  yields_of (events (move_dirty_ fuel root target keep f)) = []
  \/ exists f1,
      yields_of (events (move_dirty_ fuel root target keep f))
      = yields_of
          (events (walk fs_listdir fs_stat cwd fuel root keep
                        (move_one_ root
                                   (os_path_join root (Str.drop 1 target)))
                        f1)).
Proof.
  unfold move_dirty, bind, os_path_isdir, shutil_rmtree, call, ret.
  destruct (fs_stat _ f); simpl.
  - destruct (fs_rmtree _ f) as [[|] f1]; simpl; [|now left].
    right. exists f1.
    now destruct (walk fs_listdir fs_stat cwd fuel root keep _ f1)
      as [[r f2] evs].
  - right. exists f.
    now destruct (walk fs_listdir fs_stat cwd fuel root keep _ f)
      as [[r f2] evs].
  - right. exists f.
    now destruct (walk fs_listdir fs_stat cwd fuel root keep _ f)
      as [[r f2] evs].
Qed.

(** X9: in every run of [move_dirty], whatever the moves do to the filesystem,
    the entries moved are pairwise distinct and none lies inside another. *)
Theorem moved_entries_apart (fuel : nat) (root target : string)
        (keep : list string) (f : FS) :
  NoDup (map fst (moves_of (events (move_dirty_ fuel root target keep f))))
  /\ non_nested
       (map fst (moves_of (events (move_dirty_ fuel root target keep f)))).
Proof.
  destruct (paired_sources _ _ _ _
              (move_dirty_pairs fs_listdir fs_stat fs_rmtree fs_makedirs
                                fs_move cwd fuel root target keep f))
    as [rest Hrest].
  assert (Hap : yields_apart (events (move_dirty_ fuel root target keep f))).
  { destruct (move_dirty_yields fuel root target keep f) as [E|[f1 E]].
    - now apply yields_apart_none.
    - unfold yields_apart. rewrite E.
      apply (walk_yields_apart_live fs_listdir fs_stat cwd cwd_absolute
                                    listing_valid listing_distinct keep
                                    _ (move_one_quiet root _)). }
  destruct Hap as [Hnd Hnn]. rewrite Hrest in Hnd, Hnn. split.
  - now apply NoDup_app_remove_r in Hnd.
  - now apply non_nested_prefix in Hnn.
Qed.

End MoveFacts.

(** The scenario of the specification: with the fragment [/keep], the entry
    [/data/drop] is moved with what it holds and [/data/keep] stays. *)
Example scenario_keep_and_drop :
  MemFS.run_main "/" sample_json_loads 5 ["/data"; keep_arg] ["/"] "T"
                 sample_fs
  = (Ok tt,
     Dir [("data", Dir [("keep", Dir [("x", File)]);
                        ("oldroot",
                         Dir [("T", Dir [("drop", Dir [("y", File)])])])])],
     [EIsdir "/data/oldroot/T"; EListdir "/data"; EYield "/data/drop";
      EIsdir "/data/oldroot/T"; EMakedirs "/data/oldroot/T" 448;
      EPrint ["moving"; "/data/drop"; "to"; "/data/oldroot/T/drop"];
      EMove "/data/drop" "/data/oldroot/T/drop"]).
Proof. reflexivity. Qed.

Lemma moved_entries_apart_witness :
  NoDup (map fst (moves_of
                    (events (MemFS.run_move_dirty "/" 5 "/data" "/oldroot/T"
                                                  ["/data/oldroot"]
                                                  stale_fs))))
  /\ non_nested
       (map fst (moves_of
                   (events (MemFS.run_move_dirty "/" 5 "/data" "/oldroot/T"
                                                 ["/data/oldroot"]
                                                 stale_fs)))).
Proof.
  exact (moved_entries_apart
           (MemFS.listdir "/") (MemFS.stat "/") (MemFS.rmtree "/")
           (MemFS.makedirs "/") (MemFS.move "/") "/" eq_refl
           (memfs_listing_valid "/") (memfs_listing_distinct "/")
           5 "/data" "/oldroot/T" ["/data/oldroot"] stale_fs).
Defined.

(** ** The walk and the keep list *)

(** C1, as amended: for every root and every keep list whose elements are
    pairwise non-nested and none of which is the root or a strict ancestor
    of it, and for every path [P] in the keep list, no path equal to [P] or
    strictly under [P] (having [P + '/'] as a prefix) is among the paths
    that [walk(root, keep)] yields: on a snapshot of the tree, and on a
    filesystem that the consumer of the generator changes between yields. *)
Theorem walk_never_yields_kept :
  (forall (cwd root : string) (tree : node) (keep : list string),
      begins_with_sep cwd = true ->
      Tree.wf tree = true ->
      non_nested keep ->
      clear_of keep (Pathlib.absolute cwd root) ->
      forall P p,
        In P keep ->
        In p (Tree.walk (Pathlib.absolute cwd root) tree keep) ->
        p <> P /\ strict_descendant p P = false)
  /\ (forall (FS : Type)
             (fs_listdir : string -> FS -> option (list string))
             (fs_stat : string -> FS -> stat_result)
             (cwd : string) (keep : list string)
             (body : string -> M FS unit),
         begins_with_sep cwd = true ->
         (forall p f names,
             fs_listdir p f = Some names ->
             Forall (fun n => Pathlib.valid_name n = true) names) ->
         (forall p, always (fun e => is_yield e = false) (body p)) ->
         non_nested keep ->
         forall root,
           clear_of keep (Pathlib.absolute cwd root) ->
           forall fuel f P p,
             In P keep ->
             In p (yields_of
                     (events (walk fs_listdir fs_stat cwd fuel root keep
                                   body f))) ->
             p <> P /\ strict_descendant p P = false).
Proof.
  split.
  - exact snapshot_walk_avoids_keep.
  - intros FS fs_listdir fs_stat cwd keep body Hc Hv Hq Hnn root Hclear
           fuel f P p HP Hp.
    apply yields_of_in in Hp.
    pose proof (walk_yields_avoid fs_listdir fs_stat cwd Hc Hv keep body Hq
                                  Hnn fuel root Hclear f) as H.
    rewrite Forall_forall in H. exact (H _ Hp P HP).
Qed.

Lemma walk_never_yields_kept_witness :
  begins_with_sep "/" = true
  /\ Tree.wf sample_tree = true
  /\ non_nested ["/data/a/b"; "/data/keep"]
  /\ clear_of ["/data/a/b"; "/data/keep"] (Pathlib.absolute "/" "/data")
  /\ In "/data/keep" ["/data/a/b"; "/data/keep"]
  /\ In "/data/a/c"
        (Tree.walk (Pathlib.absolute "/" "/data") sample_tree
                   ["/data/a/b"; "/data/keep"])
  /\ ("/data/a/c" <> "/data/keep"
      /\ strict_descendant "/data/a/c" "/data/keep" = false)
  /\ (forall p,
         In p (yields_of
                 (events (walk (MemFS.listdir "/") (MemFS.stat "/") "/" 3
                               "/data" ["/data/a/b"; "/data/keep"]
                               (fun _ => ret tt)
                               (Dir [("data", sample_tree)])))) ->
         p <> "/data/keep" /\ strict_descendant p "/data/keep" = false).
Proof.
  assert (Hnn : non_nested ["/data/a/b"; "/data/keep"]).
  { intros p q [<-|[<-|[]]] [<-|[<-|[]]]; reflexivity. }
  assert (Hclear : clear_of ["/data/a/b"; "/data/keep"]
                            (Pathlib.absolute "/" "/data")).
  { intros P [<-|[<-|[]]]; reflexivity. }
  assert (HP : In "/data/keep" ["/data/a/b"; "/data/keep"])
    by (right; left; reflexivity).
  assert (Hp : In "/data/a/c"
                  (Tree.walk (Pathlib.absolute "/" "/data") sample_tree
                             ["/data/a/b"; "/data/keep"]))
    by (right; left; reflexivity).
  split; [reflexivity|]. split; [reflexivity|]. split; [exact Hnn|].
  split; [exact Hclear|]. split; [exact HP|]. split; [exact Hp|].
  split.
  - exact (proj1 walk_never_yields_kept "/" "/data" sample_tree _ eq_refl
                 eq_refl Hnn Hclear _ _ HP Hp).
  - intros p.
    exact (proj2 walk_never_yields_kept MemFS.state
                 (MemFS.listdir "/") (MemFS.stat "/") "/" _
                 (fun _ => ret tt) eq_refl (memfs_listing_valid "/")
                 (fun _ => always_ret _ tt) Hnn "/data" Hclear 3
                 (Dir [("data", sample_tree)]) _ p HP).
Defined.

(** C10: for every root and keep list, every path that [walk(root, keep)]
    yields is a strict descendant of the root (the root itself is never
    yielded), no path is yielded twice, and no yielded path is a strict
    descendant of another, so that no moved entry lies inside another moved
    entry: on a snapshot of the tree, and on a filesystem that the consumer
    of the generator changes between yields. *)
Theorem walk_yields_apart :
  (forall (cwd root : string) (tree : node) (keep : list string),
      begins_with_sep cwd = true ->
      Tree.wf tree = true ->
      (forall p,
          In p (Tree.walk (Pathlib.absolute cwd root) tree keep) ->
          below (Pathlib.absolute cwd root) p)
      /\ ~ In (Pathlib.absolute cwd root)
              (Tree.walk (Pathlib.absolute cwd root) tree keep)
      /\ NoDup (Tree.walk (Pathlib.absolute cwd root) tree keep)
      /\ non_nested (Tree.walk (Pathlib.absolute cwd root) tree keep))
  /\ (forall (FS : Type)
             (fs_listdir : string -> FS -> option (list string))
             (fs_stat : string -> FS -> stat_result)
             (cwd : string) (keep : list string)
             (body : string -> M FS unit),
         begins_with_sep cwd = true ->
         (forall p f names,
             fs_listdir p f = Some names ->
             Forall (fun n => Pathlib.valid_name n = true) names) ->
         (forall p f names, fs_listdir p f = Some names -> NoDup names) ->
         (forall p, always (fun e => is_yield e = false) (body p)) ->
         forall fuel root f,
           (forall p,
               In p (yields_of
                       (events (walk fs_listdir fs_stat cwd fuel root keep
                                     body f))) ->
               below (Pathlib.absolute cwd root) p)
           /\ NoDup (yields_of
                       (events (walk fs_listdir fs_stat cwd fuel root keep
                                     body f)))
           /\ non_nested
                (yields_of
                   (events (walk fs_listdir fs_stat cwd fuel root keep
                                 body f)))).
Proof.
  split.
  - exact snapshot_walk_yields_apart.
  - intros FS fs_listdir fs_stat cwd keep body Hc Hv Hd Hq fuel root f.
    split.
    + intros p Hp. apply yields_of_in in Hp.
      pose proof (walk_yields_below fs_listdir fs_stat cwd Hc Hv keep body Hq
                                    fuel root f) as H.
      rewrite Forall_forall in H. exact (H _ Hp).
    + exact (walk_yields_apart_live fs_listdir fs_stat cwd Hc Hv Hd keep body
                                    Hq fuel root f).
Qed.

Lemma walk_yields_apart_witness :
  begins_with_sep "/" = true
  /\ Tree.wf sample_tree = true
  /\ NoDup (Tree.walk (Pathlib.absolute "/" "/data") sample_tree
                      ["/data/a/b"; "/data/keep"])
  /\ non_nested (Tree.walk (Pathlib.absolute "/" "/data") sample_tree
                           ["/data/a/b"; "/data/keep"])
  /\ NoDup (yields_of
              (events (walk (MemFS.listdir "/") (MemFS.stat "/") "/" 3
                            "/data" ["/data/a/b"; "/data/keep"]
                            (fun _ => ret tt)
                            (Dir [("data", sample_tree)]))))
  /\ non_nested
       (yields_of
          (events (walk (MemFS.listdir "/") (MemFS.stat "/") "/" 3
                        "/data" ["/data/a/b"; "/data/keep"]
                        (fun _ => ret tt)
                        (Dir [("data", sample_tree)])))).
Proof.
  split; [reflexivity|]. split; [reflexivity|].
  destruct (proj1 walk_yields_apart "/" "/data" sample_tree
                  ["/data/a/b"; "/data/keep"] eq_refl eq_refl)
    as (_ & _ & Hnd & Hnn).
  destruct (proj2 walk_yields_apart MemFS.state
                  (MemFS.listdir "/") (MemFS.stat "/") "/"
                  ["/data/a/b"; "/data/keep"] (fun _ => ret tt) eq_refl
                  (memfs_listing_valid "/") (memfs_listing_distinct "/")
                  (fun _ => always_ret _ tt) 3 "/data"
                  (Dir [("data", sample_tree)]))
    as (_ & Hnd' & Hnn').
  repeat split; assumption.
Defined.

(** * Further properties of the classifier and the normaliser *)

Lemma descendant_trans (a b c : string) :
  strict_descendant a b = true -> strict_descendant b c = true ->
  strict_descendant a c = true.
Proof.
  unfold strict_descendant. intros Hab Hbc.
  apply startswith_iff in Hab as [r1 ->].
  apply startswith_iff in Hbc as [r2 ->].
  apply startswith_iff. exists (r2 ++ "/" ++ r1).
  now rewrite !append_assoc.
Qed.

Lemma descendant_longer (a b : string) :
  strict_descendant a b = true -> String.length b < String.length a.
Proof.
  unfold strict_descendant. intros H. apply startswith_longer in H.
  rewrite length_append in H. simpl in H. lia.
Qed.

(** Every fragment of a set is a surviving fragment or a strict descendant
    of one: following strict ancestors inside the set ends, since each is
    shorter than the one before. *)
Lemma fragment_cover (items : list string) (f : string) :
  In f items ->
  exists g, In g items /\ survives items g
            /\ (g = f \/ strict_descendant f g = true).
Proof.
  remember (String.length f) as n eqn:En. revert f En.
  induction n as [n IH] using lt_wf_ind. intros f En Hf.
  destruct (inner_breaks items f) eqn:Hb.
  - unfold inner_breaks in Hb. apply existsb_exists in Hb as (g & Hg & Hc).
    apply andb_prop in Hc as [_ Hd].
    change (strict_descendant f g = true) in Hd.
    pose proof (descendant_longer _ _ Hd) as Hlen.
    destruct (IH (String.length g) ltac:(lia) g eq_refl Hg)
      as (h & Hh & Hs & [->|Hgh]).
    + exists g. auto.
    + exists h. repeat split; auto. right.
      exact (descendant_trans _ _ _ Hd Hgh).
  - exists f. repeat split; auto. now apply inner_breaks_false.
Qed.

(** X5: the result of [normalize_keep] depends on the set of fragments
    only, not on the order in which the set is iterated: two repetition-free
    lists with the same elements give the same list. *)
Theorem normalize_keep_iteration_order (root : string)
        (items items' : list string) :
  NoDup items -> NoDup items' ->
  (forall f, In f items <-> In f items') ->
  normalize_keep root items = normalize_keep root items'.
Proof.
  intros Hn Hn' Hsame. apply normalize_keep_order.
  now apply NoDup_Permutation.
Qed.

Lemma normalize_keep_iteration_order_witness :
  normalize_keep "/data" ["/b"; "/a/x"; "/a"]
  = normalize_keep "/data" ["/a"; "/b"; "/a/x"]
  /\ normalize_keep "/data" ["/a"; "/b"; "/a/x"] = ["/data/a"; "/data/b"].
Proof.
  split; [|reflexivity].
  apply (normalize_keep_iteration_order "/data" ["/b"; "/a/x"; "/a"]
                                        ["/a"; "/b"; "/a/x"]).
  - repeat constructor; simpl; intuition discriminate.
  - repeat constructor; simpl; intuition discriminate.
  - intros f. simpl. tauto.
Defined.

(** X6: the output of [normalize_keep] covers its input and nothing more:
    for fragments that begin with exactly one separator, the path of every
    fragment of the set is an output path or strictly under one, and no
    output path is strictly under the path of a fragment of the set. *)
Theorem normalize_keep_covers_items (root : string) (items : list string) :
  Forall (fun f => single_sep f = true) items ->
  forall f,
    In f items ->
    (exists k,
        In k (normalize_keep root items)
        /\ (k = os_path_join root (Str.drop 1 f)
            \/ strict_descendant (os_path_join root (Str.drop 1 f)) k = true))
    /\ (forall k,
           In k (normalize_keep root items) ->
           strict_descendant k (os_path_join root (Str.drop 1 f)) = false).
Proof.
  intros Hs f Hf. rewrite Forall_forall in Hs. split.
  - destruct (fragment_cover items f Hf) as (g & Hg & Hsg & Hc).
    exists (os_path_join root (Str.drop 1 g)). split.
    + apply normalize_keep_in. exists g. auto.
    + destruct Hc as [->|Hd]; [now left | right].
      rewrite descendant_join by auto. exact Hd.
  - intros k Hk. apply normalize_keep_in in Hk as (g & Hg & Hsg & ->).
    rewrite descendant_join by auto.
    destruct (string_dec f g) as [->|Hne]; [apply not_self_descendant|].
    now apply Hsg.
Qed.

Lemma normalize_keep_covers_items_witness :
  (exists k,
      In k (normalize_keep "/data" ["/a/b/c"; "/a/b"; "/a"; "/d"])
      /\ (k = os_path_join "/data" (Str.drop 1 "/a/b/c")
          \/ strict_descendant (os_path_join "/data" (Str.drop 1 "/a/b/c")) k
             = true))
  /\ (forall k,
         In k (normalize_keep "/data" ["/a/b/c"; "/a/b"; "/a"; "/d"]) ->
         strict_descendant k (os_path_join "/data" (Str.drop 1 "/a/b/c"))
         = false).
Proof.
  apply (normalize_keep_covers_items "/data" ["/a/b/c"; "/a/b"; "/a"; "/d"]).
  - repeat constructor.
  - simpl. auto.
Defined.

Lemma non_nested_tail (p : string) (keep : list string) :
  non_nested (p :: keep) -> non_nested keep.
Proof. intros H a b Ha Hb. apply H; now right. Qed.

Lemma walk_action_skip_member (entry : string) (keep : list string) :
  non_nested keep -> In entry keep -> walk_action entry keep = Skip.
Proof.
  induction keep as [|p keep IH]; simpl; intros Hnn Hin; [contradiction|].
  destruct (String.eqb_spec entry p) as [->|Hne]; [reflexivity|].
  destruct Hin as [->|Hin]; [congruence|].
  destruct (Str.startswith p (entry ++ "/")) eqn:Hp.
  - assert (X : strict_descendant p entry = false)
      by (apply Hnn; [now right | now left]).
    unfold strict_descendant in X. congruence.
  - apply IH; [exact (non_nested_tail _ _ Hnn) | exact Hin].
Qed.

Lemma walk_action_recurse_ancestor (entry : string) (keep : list string) :
  non_nested keep ->
  (exists path, In path keep /\ strict_descendant path entry = true) ->
  walk_action entry keep = Recurse.
Proof.
  induction keep as [|p keep IH]; simpl; intros Hnn (q & Hq & Hd);
    [contradiction|].
  destruct (String.eqb_spec entry p) as [->|Hne].
  - assert (X : strict_descendant q p = false)
      by (apply Hnn; [now left | exact Hq]).
    congruence.
  - destruct (Str.startswith p (entry ++ "/")) eqn:Hp; [reflexivity|].
    apply IH; [exact (non_nested_tail _ _ Hnn)|].
    destruct Hq as [->|Hq]; [|eauto].
    unfold strict_descendant in Hd. congruence.
Qed.

Lemma walk_action_yield_none (entry : string) (keep : list string) :
  (forall path, In path keep ->
                path <> entry /\ strict_descendant path entry = false) ->
  walk_action entry keep = Yield.
Proof.
  induction keep as [|p keep IH]; simpl; intros H; [reflexivity|].
  destruct (H p (or_introl eq_refl)) as [Hne Hd].
  destruct (String.eqb_spec entry p) as [->|_]; [congruence|].
  unfold strict_descendant in Hd. rewrite Hd. apply IH. auto.
Qed.

(** X1: on a keep list without nesting, as [normalize_keep] produces it,
    the verdict of [walk_action] does not depend on the order of the list:
    it is [skip] exactly when the entry is an element, [recurse] exactly
    when some element is strictly under the entry, [yield] exactly when
    neither holds, and the same for every reordering of the list. *)
Theorem walk_action_on_non_nested (entry : string) (keep : list string) :
  non_nested keep ->
  (walk_action entry keep = Skip <-> In entry keep)
  /\ (walk_action entry keep = Recurse
      <-> exists path, In path keep /\ strict_descendant path entry = true)
  /\ (walk_action entry keep = Yield
      <-> forall path, In path keep ->
                       path <> entry /\ strict_descendant path entry = false)
  /\ (forall keep', Permutation keep keep' ->
                    walk_action entry keep' = walk_action entry keep).
Proof.
  intros Hnn.
  assert (Hrec : forall l, walk_action entry l = Recurse ->
                           exists path, In path l
                                        /\ strict_descendant path entry = true).
  { intros l H. apply walk_action_recurse_inv in H as (q & Hq & Hd & _).
    eauto. }
  split; [|split; [|split]].
  - split; [apply walk_action_skip_inv | now apply walk_action_skip_member].
  - split; [apply Hrec | now apply walk_action_recurse_ancestor].
  - split; [apply walk_action_yield_inv | apply walk_action_yield_none].
  - intros keep' HP.
    assert (Hnn' : non_nested keep').
    { intros a b Ha Hb. apply Hnn; eapply Permutation_in;
        try (apply Permutation_sym; exact HP); assumption. }
    destruct (walk_action entry keep) eqn:E.
    + apply walk_action_skip_member; [exact Hnn'|].
      apply walk_action_skip_inv in E. eapply Permutation_in; eauto.
    + apply walk_action_recurse_ancestor; [exact Hnn'|].
      destruct (Hrec _ E) as (q & Hq & Hd). exists q. split; [|exact Hd].
      eapply Permutation_in; eauto.
    + apply walk_action_yield_none. intros q Hq.
      apply (walk_action_yield_inv _ _ E).
      eapply Permutation_in; [apply Permutation_sym; exact HP | exact Hq].
Qed.

Lemma walk_action_on_non_nested_witness :
  walk_action "/data/a" ["/data/keep"; "/data/a/b"] = Recurse
  /\ walk_action "/data/a" ["/data/a/b"; "/data/keep"] = Recurse.
Proof.
  assert (Hnn : non_nested ["/data/keep"; "/data/a/b"]).
  { intros p q [<-|[<-|[]]] [<-|[<-|[]]]; reflexivity. }
  destruct (walk_action_on_non_nested "/data/a" ["/data/keep"; "/data/a/b"]
                                      Hnn) as (_ & Hr & _ & Hp).
  split.
  - apply Hr. exists "/data/a/b". split; [simpl; auto | reflexivity].
  - rewrite (Hp ["/data/a/b"; "/data/keep"] (perm_swap _ _ _)).
    apply Hr. exists "/data/a/b". split; [simpl; auto | reflexivity].
Defined.

(** * Further properties of the walk and the mover *)



Section TraceFacts.

Context {FS : Type}.
Variable fs_listdir : string -> FS -> option (list string).
Variable fs_stat : string -> FS -> stat_result.
Variable fs_rmtree : string -> FS -> bool * FS.
Variable fs_makedirs : string -> nat -> FS -> bool * FS.
Variable fs_move : string -> string -> FS -> bool * FS.
Variable cwd : string.

#[local] Abbreviation walk_ := (walk fs_listdir fs_stat cwd).
#[local] Abbreviation move_one_ := (move_one fs_stat fs_makedirs fs_move).
#[local] Abbreviation move_dirty_ :=
  (move_dirty fs_listdir fs_stat fs_rmtree fs_makedirs fs_move cwd).

(** The walk yields an entry only when no keep element is the entry or
    lies under it, and lists an entry only when a keep element lies
    strictly under it. *)
Lemma walk_towards_keep (keep : list string) (body : string -> M FS unit) :
  (forall p, always (fun e => is_yield e = false /\ is_listdir e = false)
                    (body p)) ->
  forall fuel root,
    always (fun e => yield_holds_none keep e
                     /\ listing_towards keep (Pathlib.posix root) e)
           (walk_ fuel root keep body).
Proof.
  intros Hbody. induction fuel as [|fuel IH]; intros root.
  - intros f. constructor.
  - simpl. apply always_bind.
    + eapply always_single; [|apply events_path_iterdir].
      split; [exact I | now left].
    + intros names. apply always_for_each. intros n _. unfold walk_entry.
      destruct (walk_action _ keep) eqn:E.
      * apply always_ret.
      * apply always_bind.
        -- eapply always_single; [|apply events_path_is_dir]. now split.
        -- intros [|]; [|apply always_ret].
           eapply always_weaken; [|apply IH].
           intros e [Hy Hl]. split; [exact Hy|].
           destruct e; try exact I. simpl in *. right.
           destruct Hl as [->|Hl]; [|exact Hl].
           rewrite posix_absolute.
           apply walk_action_recurse_inv in E as (P & HP & Hd & _).
           exists P. auto.
      * apply always_bind.
        -- eapply always_single; [|reflexivity]. split; [|exact I].
           simpl. intros P HP.
           destruct (walk_action_yield_inv _ _ E P HP) as [Hne Hd]. auto.
        -- intros _. eapply always_weaken; [|apply Hbody].
           intros e [Hy Hl]. destruct e; try discriminate; now split.
Qed.

(** A run of [move_dirty] is a test of the target, possibly its removal,
    and the walk. *)
Lemma always_move_dirty (P : event -> Prop) (fuel : nat)
      (root target : string) (keep : list string) :
  P (EIsdir (os_path_join root (Str.drop 1 target))) ->
  P (ERmtree (os_path_join root (Str.drop 1 target))) ->
  always P (walk_ fuel root keep
                  (move_one_ root (os_path_join root (Str.drop 1 target)))) ->
  always P (move_dirty_ fuel root target keep).
Proof.
  intros H1 H2 Hw. unfold move_dirty. apply always_bind.
  - eapply always_single; [exact H1 | apply events_os_path_isdir].
  - intros b. apply always_bind; [|intros _; exact Hw].
    destruct b; [|apply always_ret].
    eapply always_single; [exact H2 | apply events_call].
Qed.

(** X2: whatever the consumer of the generator does to the filesystem, as
    long as it neither yields nor lists itself, no keep element is equal to
    or strictly under a path that [walk] yields, and [walk] lists no
    directory but its root and the strict ancestors of keep elements, so
    it never looks inside a directory that it yields. *)
Theorem walk_descends_only_towards_keep (keep : list string)
        (body : string -> M FS unit) (fuel : nat) (root : string) (f : FS) :
  (forall p, always (fun e => is_yield e = false /\ is_listdir e = false)
                    (body p)) ->
  (forall p P,
      In (EYield p) (events (walk fs_listdir fs_stat cwd fuel root keep
                                  body f)) ->
      In P keep -> P <> p /\ strict_descendant P p = false)
  /\ (forall d,
         In (EListdir d) (events (walk fs_listdir fs_stat cwd fuel root keep
                                       body f)) ->
         d = Pathlib.posix root
         \/ exists P, In P keep /\ strict_descendant P d = true).
Proof.
  intros Hbody.
  pose proof (walk_towards_keep keep body Hbody fuel root f) as H.
  rewrite Forall_forall in H. split.
  - intros p P Hp HP. destruct (H _ Hp) as [Hy _]. exact (Hy P HP).
  - intros d Hd. destruct (H _ Hd) as [_ Hl]. exact Hl.
Qed.

Lemma move_dirty_sources_hold_none (fuel : nat) (root target : string)
      (keep : list string) (f : FS) (src dst P : string) :
  In (src, dst) (moves_of (events (move_dirty_ fuel root target keep f))) ->
  In P keep ->
  P <> src /\ strict_descendant P src = false.
Proof.
  intros Hmv HP.
  destruct (paired_sources _ _ _ _
              (move_dirty_pairs fs_listdir fs_stat fs_rmtree fs_makedirs
                                fs_move cwd fuel root target keep f))
    as [rest Hrest].
  assert (Hy : In (EYield src) (events (move_dirty_ fuel root target keep f))).
  { apply yields_of_in. rewrite Hrest. apply in_or_app. left.
    apply in_map_iff. exists (src, dst). auto. }
  assert (H : always (yield_holds_none keep)
                     (move_dirty_ fuel root target keep)).
  { apply always_move_dirty; try exact I.
    eapply always_weaken; [|apply walk_towards_keep].
    - intros e [He _]. exact He.
    - intros p. apply always_move_one; intros; now split. }
  specialize (H f). rewrite Forall_forall in H. exact (H _ Hy P HP).
Qed.

End TraceFacts.

(** ** What the mover prints and changes *)

Lemma upto_last_sep_app (d r : string) :
  Str.upto_last_sep (d ++ "/" ++ r) = d ++ "/" ++ Str.upto_last_sep r.
Proof.
  induction d as [|c d IH].
  - reflexivity.
  - change (Str.upto_last_sep (String c (d ++ "/" ++ r))
            = String c (d ++ "/" ++ Str.upto_last_sep r)).
    cbn [Str.upto_last_sep]. rewrite IH.
    assert (E : String.eqb (d ++ "/" ++ Str.upto_last_sep r) "" = false).
    { apply String.eqb_neq. destruct d; discriminate. }
    rewrite E. cbn. now rewrite orb_true_r.
Qed.

Lemma rstrip_sep_app (d x : string) :
  d <> "" -> Str.endswith_sep d = false ->
  Str.rstrip_sep (d ++ x) = d ++ Str.rstrip_sep x.
Proof.
  induction d as [|c d IH]; intros Hne He; [congruence|].
  change (Str.rstrip_sep (String c (d ++ x))
          = String c (d ++ Str.rstrip_sep x)).
  cbn [Str.rstrip_sep]. destruct d as [|c' d].
  - cbn in He. cbn [String.append]. now rewrite He.
  - rewrite IH; [|discriminate|exact He].
    assert (E : String.eqb (String c' d ++ Str.rstrip_sep x) "" = false)
      by (apply String.eqb_neq; discriminate).
    rewrite E. now rewrite andb_false_r.
Qed.

(** The parent of a path under a directory is the directory or under it. *)
Lemma dirname_under (d rel : string) :
  d <> "" -> Str.endswith_sep d = false ->
  os_path_dirname (d ++ "/" ++ rel) = d
  \/ strict_descendant (os_path_dirname (d ++ "/" ++ rel)) d = true.
Proof.
  intros Hne He. unfold os_path_dirname.
  rewrite upto_last_sep_app, rstrip_sep_app by assumption.
  assert (E : String.eqb (d ++ Str.rstrip_sep ("/" ++ Str.upto_last_sep rel))
                         "" = false).
  { apply String.eqb_neq. destruct d; [congruence | discriminate]. }
  rewrite E.
  destruct (Str.rstrip_sep ("/" ++ Str.upto_last_sep rel)) as [|c r] eqn:Er.
  - left. apply append_nil_r.
  - right. unfold strict_descendant. rewrite startswith_cancel.
    cbn [String.append Str.rstrip_sep] in Er.
    destruct (Ascii.eqb "/" "/" && _) in Er; [discriminate|].
    injection Er as <- _. reflexivity.
Qed.

Lemma non_nested_map_snd (a b : string) (l : list (string * string)) :
  (forall s d, In (s, d) l ->
               exists rel, s = a ++ rel /\ d = b ++ rel) ->
  (NoDup (map fst l) -> NoDup (map snd l))
  /\ (non_nested (map fst l) -> non_nested (map snd l)).
Proof.
  intros Hform. split.
  - induction l as [|[s d] l IH]; simpl; intros Hnd; [constructor|].
    inversion Hnd as [|? ? Hnin Hnd']; subst. constructor.
    + intros Hin. apply Hnin. apply in_map_iff in Hin as ([s' d'] & E & Hin).
      simpl in E. subst d'.
      destruct (Hform s d (or_introl eq_refl)) as (rel & -> & ->).
      destruct (Hform s' _ (or_intror Hin)) as (rel' & -> & E).
      apply append_inj_l in E. subst rel'.
      apply in_map_iff. exists (a ++ rel, b ++ rel). auto.
    + apply IH; [|exact Hnd']. intros s' d' Hin. apply Hform. now right.
  - intros Hnn p q Hp Hq.
    apply in_map_iff in Hp as ([s1 d1] & E1 & H1).
    apply in_map_iff in Hq as ([s2 d2] & E2 & H2). simpl in E1, E2. subst.
    destruct (Hform _ _ H1) as (r1 & -> & ->).
    destruct (Hform _ _ H2) as (r2 & -> & ->).
    assert (X : strict_descendant (a ++ r2) (a ++ r1) = false).
    { apply Hnn; apply in_map_iff;
        [exists (a ++ r1, b ++ r1) | exists (a ++ r2, b ++ r2)]; auto. }
    unfold strict_descendant in *.
    rewrite append_assoc, startswith_cancel in *. exact X.
Qed.

Section MoverFacts.

Context {FS : Type}.
Variable fs_listdir : string -> FS -> option (list string).
Variable fs_stat : string -> FS -> stat_result.
Variable fs_rmtree : string -> FS -> bool * FS.
Variable fs_makedirs : string -> nat -> FS -> bool * FS.
Variable fs_move : string -> string -> FS -> bool * FS.
Variable cwd : string.

#[local] Abbreviation walk_ := (walk fs_listdir fs_stat cwd).
#[local] Abbreviation move_one_ := (move_one fs_stat fs_makedirs fs_move).
#[local] Abbreviation move_dirty_ :=
  (move_dirty fs_listdir fs_stat fs_rmtree fs_makedirs fs_move cwd).






Hypothesis cwd_absolute : begins_with_sep cwd = true.
Hypothesis listing_valid :
  forall p f names,
    fs_listdir p f = Some names ->
    Forall (fun n => Pathlib.valid_name n = true) names.

(** The walk with a consumer that behaves on the paths below the root. *)
Lemma walk_body_below (P : event -> Prop) (keep : list string)
      (body : string -> M FS unit) :
  (forall q, P (EListdir q)) -> (forall q, P (EStat q)) ->
  (forall q, P (EYield q)) ->
  forall fuel root,
    (forall p, below (Pathlib.absolute cwd root) p -> always P (body p)) ->
    always P (walk_ fuel root keep body).
Proof.
  intros H1 H2 H3. induction fuel as [|fuel IH]; intros root Hbody.
  - intros f. constructor.
  - pose proof (absolute_begins cwd root cwd_absolute) as Hb.
    simpl. apply always_bind_from.
    + eapply always_single; [apply H1 | apply events_path_iterdir].
    + intros names f Hnames. apply iterdir_names in Hnames.
      apply listing_valid in Hnames. rewrite Forall_forall in Hnames.
      apply always_for_each. intros n Hn. specialize (Hnames n Hn).
      unfold walk_entry. rewrite absolute_child by assumption.
      destruct (walk_action _ keep).
      * apply always_ret.
      * apply always_bind.
        -- eapply always_single; [apply H2 | apply events_path_is_dir].
        -- intros [|]; [|apply always_ret].
           apply IH. intros p Hp. apply Hbody.
           rewrite <- absolute_child, absolute_idem, absolute_child in Hp
             by assumption.
           now apply (below_under_child _ n).
      * apply always_bind.
        -- eapply always_single; [apply H3 | reflexivity].
        -- intros _. apply Hbody. now apply below_child.
Qed.

Lemma always_mover_event (fuel : nat) (root target : string)
      (keep : list string) :
  plain_root cwd root = true ->
  always (mover_event (Pathlib.absolute cwd root)
                      (os_path_join root (Str.drop 1 target)))
         (move_dirty_ fuel root target keep).
Proof.
  intros Hplain. apply always_move_dirty; try exact I; [reflexivity|].
  apply walk_body_below; try (intros; exact I).
  intros p (rel & Hne & Hrel & ->).
  pose proof (move_to_below cwd root (os_path_join root (Str.drop 1 target))
                            rel Hplain) as Hto.
  unfold move_one. rewrite Hto.
  apply always_bind.
  - eapply always_single; [|apply events_os_path_isdir]. exact I.
  - intros b. apply always_bind.
    + destruct b; [apply always_ret|].
      eapply always_single; [|apply events_call].
      split; [reflexivity|]. exists rel. auto.
    + intros _. apply always_bind.
      * eapply always_single; [|reflexivity]. exact I.
      * intros _. eapply always_single; [|apply events_call].
        exists rel. auto.
Qed.

Lemma walk_never_removes (fuel : nat) (root target : string)
      (keep : list string) :
  always (fun e => is_rmtree e = false)
         (walk_ fuel root keep (move_one_ root target)).
Proof.
  apply walk_body_below; try reflexivity.
  intros p _. now apply always_move_one.
Qed.

(** X8: when the root is an absolute path written the way [pathlib]
    prints it and the joined target is not empty and does not end with a
    separator, [move_dirty] changes the filesystem only by taking entries
    from below the root and by writing at or under the target: it removes
    the target alone, and only when a directory is there; it creates
    directories with mode [0o700] and only at or strictly under the target;
    every destination of a move is strictly under the target. *)
Theorem changes_stay_under_target (fuel : nat) (root target : string)
        (keep : list string) (f : FS) :
  plain_root cwd root = true ->
  os_path_join root (Str.drop 1 target) <> "" ->
  Str.endswith_sep (os_path_join root (Str.drop 1 target)) = false ->
  (forall p,
      In (ERmtree p)
         (events (move_dirty fs_listdir fs_stat fs_rmtree fs_makedirs fs_move
                             cwd fuel root target keep f)) ->
      p = os_path_join root (Str.drop 1 target)
      /\ fs_stat (os_path_join root (Str.drop 1 target)) f = IsDirectory)
  /\ (forall p m,
         In (EMakedirs p m)
            (events (move_dirty fs_listdir fs_stat fs_rmtree fs_makedirs
                                fs_move cwd fuel root target keep f)) ->
         m = 448
         /\ (p = os_path_join root (Str.drop 1 target)
             \/ strict_descendant p (os_path_join root (Str.drop 1 target))
                = true))
  /\ (forall src dst,
         In (EMove src dst)
            (events (move_dirty fs_listdir fs_stat fs_rmtree fs_makedirs
                                fs_move cwd fuel root target keep f)) ->
         below (Pathlib.absolute cwd root) src
         /\ strict_descendant dst (os_path_join root (Str.drop 1 target))
            = true).
Proof.
  intros Hplain Hne He.
  set (T := os_path_join root (Str.drop 1 target)) in *.
  pose proof (always_mover_event fuel root target keep Hplain f) as H.
  fold T in H. rewrite Forall_forall in H.
  split; [|split].
  - intros p Hp. split; [exact (H _ Hp)|].
    destruct (fs_stat T f) eqn:Hs; [reflexivity| |].
    all: exfalso; revert Hp; unfold move_dirty; fold T;
      unfold bind at 1, os_path_isdir; rewrite Hs;
      unfold bind at 1, ret;
      pose proof (walk_never_removes fuel root T keep f) as Hw;
      destruct (walk_ fuel root keep (move_one_ root T) f) as [[r f2] evs];
      simpl in *; intros [Hp|Hp]; [discriminate|];
      rewrite Forall_forall in Hw; specialize (Hw _ Hp); discriminate.
  - intros p m Hp. destruct (H _ Hp) as (-> & rel & _ & Hrel & ->).
    split; [reflexivity|].
    rewrite os_path_join_plain by assumption. now apply dirname_under.
  - intros src dst Hmv. destruct (H _ Hmv) as (rel & Hr & Hrel & -> & ->).
    split; [exists rel; auto|].
    rewrite os_path_join_plain by assumption.
    unfold strict_descendant. rewrite <- append_assoc. apply startswith_app.
Qed.

Hypothesis listing_distinct :
  forall p f names, fs_listdir p f = Some names -> NoDup names.

Lemma move_dirty_sources_apart (fuel : nat) (root target : string)
      (keep : list string) (f : FS) :
  NoDup (map fst (moves_of (events (move_dirty_ fuel root target keep f))))
  /\ non_nested
       (map fst (moves_of (events (move_dirty_ fuel root target keep f)))).
Proof.
  destruct (paired_sources _ _ _ _
              (move_dirty_pairs fs_listdir fs_stat fs_rmtree fs_makedirs
                                fs_move cwd fuel root target keep f))
    as [rest Hrest].
  assert (Hap : yields_apart (events (move_dirty_ fuel root target keep f))).
  { destruct (move_dirty_yields fs_listdir fs_stat fs_rmtree fs_makedirs
                                fs_move cwd fuel root target keep f)
      as [E|[f1 E]].
    - now apply yields_apart_none.
    - unfold yields_apart. rewrite E.
      apply (walk_yields_apart_live fs_listdir fs_stat cwd cwd_absolute
                                    listing_valid listing_distinct keep _
                                    (move_one_quiet fs_stat fs_makedirs
                                                    fs_move root _)). }
  destruct Hap as [Hnd Hnn]. rewrite Hrest in Hnd, Hnn. split.
  - now apply NoDup_app_remove_r in Hnd.
  - now apply non_nested_prefix in Hnn.
Qed.

(** X10: when the root is an absolute path written the way [pathlib]
    prints it and every listing reports a name once, the destinations of
    the moves of a run of [move_dirty] are pairwise distinct and none lies
    strictly under another, whatever the moves do to the filesystem: no
    move lands on or inside the destination of another. *)
Theorem destinations_apart (fuel : nat) (root target : string)
        (keep : list string) (f : FS) :
  plain_root cwd root = true ->
  NoDup (map snd (moves_of
                    (events (move_dirty fs_listdir fs_stat fs_rmtree
                                        fs_makedirs fs_move cwd fuel root
                                        target keep f))))
  /\ non_nested
       (map snd (moves_of
                   (events (move_dirty fs_listdir fs_stat fs_rmtree
                                       fs_makedirs fs_move cwd fuel root
                                       target keep f)))).
Proof.
  intros Hplain.
  destruct (move_dirty_sources_apart fuel root target keep f) as [Hnd Hnn].
  destruct (non_nested_map_snd
              (dirsep (Pathlib.absolute cwd root))
              (dirsep (os_path_join root (Str.drop 1 target)))
              (moves_of (events (move_dirty_ fuel root target keep f))))
    as [H1 H2]; [|auto].
  intros s d Hin. apply moves_of_in in Hin.
  pose proof (always_mover_event fuel root target keep Hplain f) as H.
  rewrite Forall_forall in H.
  destruct (H _ Hin) as (rel & _ & Hrel & -> & ->).
  exists rel. split; [reflexivity|]. now apply os_path_join_rel.
Qed.

End MoverFacts.

(** * The keep list of [main] *)

Lemma final_keep_unfold (root : string) (keep partitions : list string) :
  final_keep root keep partitions
  = normalize_keep "/" (main_kept root keep partitions).
Proof. reflexivity. Qed.

Lemma in_py_set (l : list string) (x : string) : In x (py_set l) <-> In x l.
Proof. apply nodup_In. Qed.

Lemma in_set_union (a b : list string) (x : string) :
  In x (set_union a b) <-> In x a \/ In x b.
Proof. unfold set_union. rewrite in_py_set. apply in_app_iff. Qed.

Lemma in_main_fragments (keep : list string) (f : string) :
  In f (main_fragments keep) <-> In f keep \/ f = quarantine.
Proof.
  unfold main_fragments. rewrite in_set_union, in_py_set. simpl.
  intuition.
Qed.

Lemma in_main_mountpoints (root : string) (partitions : list string)
      (m : string) :
  In m (main_mountpoints root partitions)
  <-> In m partitions /\ strict_descendant m root = true.
Proof.
  unfold main_mountpoints, set_diff.
  rewrite filter_In, in_py_set, filter_In. unfold strict_descendant.
  split; [tauto|]. intros [Hin Hd]. repeat split; auto.
  simpl. rewrite orb_false_r. apply negb_true_iff, String.eqb_neq.
  intros ->. pose proof (not_self_descendant root) as X.
  unfold strict_descendant in X. congruence.
Qed.

Lemma in_main_kept (root : string) (keep partitions : list string)
      (x : string) :
  In x (main_kept root keep partitions)
  <-> In x (normalize_keep root (main_fragments keep))
      \/ (In x partitions /\ strict_descendant x root = true).
Proof.
  unfold main_kept.
  now rewrite in_set_union, in_py_set, in_main_mountpoints.
Qed.

Lemma no_sep_not_descendant (s r : string) :
  Str.no_sep s = true -> Str.startswith s (r ++ "/") = false.
Proof.
  intros Hs. destruct (Str.startswith s (r ++ "/")) eqn:E; [|reflexivity].
  apply startswith_iff in E as [x ->].
  rewrite !no_sep_app in Hs. simpl in Hs.
  rewrite andb_false_r in Hs. discriminate.
Qed.

Section KeepFacts.

Variable root : string.
Variable keep partitions : list string.

Hypothesis root_single : single_sep root = true.
Hypothesis keep_single : Forall (fun f => single_sep f = true) keep.

Lemma main_fragments_single :
  Forall (fun f => single_sep f = true) (main_fragments keep).
Proof.
  apply Forall_forall. intros f Hf. apply in_main_fragments in Hf.
  destruct Hf as [Hf| ->]; [|reflexivity].
  rewrite Forall_forall in keep_single. auto.
Qed.

Lemma quarantine_survives : survives (main_fragments keep) quarantine.
Proof.
  intros g Hg Hne. apply in_main_fragments in Hg as [Hg|Hg]; [|congruence].
  rewrite Forall_forall in keep_single.
  destruct (single_sep_inv g (keep_single g Hg)) as [E _].
  unfold strict_descendant. rewrite E.
  change (Str.startswith "oldroot" (Str.drop 1 g ++ "/") = false).
  now apply no_sep_not_descendant.
Qed.

Lemma quarantine_first_pass :
  In (os_path_join root "oldroot")
     (normalize_keep root (main_fragments keep)).
Proof.
  apply normalize_keep_in. exists quarantine. split; [|split].
  - apply in_main_fragments. now right.
  - apply quarantine_survives.
  - reflexivity.
Qed.

Lemma first_pass_form (k : string) :
  In k (normalize_keep root (main_fragments keep)) ->
  single_sep k = true /\ exists r, k = dirsep root ++ r.
Proof.
  intros Hk. apply normalize_keep_in in Hk as (f & Hf & _ & ->).
  pose proof main_fragments_single as Hs. rewrite Forall_forall in Hs.
  split; [apply join_single_sep; auto|].
  exists (Str.drop 1 f). apply join_drop_single. auto.
Qed.

Lemma mountpoint_not_over_quarantine (m : string) :
  strict_descendant m root = true ->
  strict_descendant (os_path_join root "oldroot") m = false.
Proof.
  intros Hm. unfold strict_descendant in Hm.
  apply startswith_iff in Hm as [t ->].
  rewrite normal_root_dirsep by assumption.
  unfold strict_descendant, dirsep.
  destruct (String.eqb root "" || Str.endswith_sep root).
  - rewrite !append_assoc, startswith_cancel. reflexivity.
  - rewrite !append_assoc, startswith_cancel.
    change (Str.startswith "oldroot" (t ++ "/") = false).
    now apply no_sep_not_descendant.
Qed.

Lemma quarantine_kept :
  In (os_path_join root "oldroot") (final_keep root keep partitions).
Proof.
  rewrite final_keep_unfold. apply normalize_keep_in.
  exists (os_path_join root "oldroot"). split; [|split].
  - apply in_main_kept. left. apply quarantine_first_pass.
  - intros g Hg Hne. apply in_main_kept in Hg as [Hg|[_ Hg]].
    + apply (normalize_keep_non_nested root (main_fragments keep)
                                       main_fragments_single);
        [exact Hg | apply quarantine_first_pass].
    + now apply mountpoint_not_over_quarantine.
  - symmetry. apply join_root_single.
    apply (join_single_sep root "/oldroot"); auto.
Qed.

Hypothesis partitions_single :
  Forall (fun m => single_sep m = true) partitions.

Lemma main_kept_single :
  Forall (fun f => single_sep f = true) (main_kept root keep partitions).
Proof.
  apply Forall_forall. intros x Hx. apply in_main_kept in Hx as [Hx|[Hx _]].
  - now apply first_pass_form.
  - rewrite Forall_forall in partitions_single. auto.
Qed.

Lemma final_keep_in (k : string) :
  In k (final_keep root keep partitions)
  <-> In k (main_kept root keep partitions)
      /\ survives (main_kept root keep partitions) k.
Proof.
  pose proof main_kept_single as Hs. rewrite Forall_forall in Hs.
  rewrite final_keep_unfold, normalize_keep_in. split.
  - intros (f & Hf & Hsv & ->). rewrite join_root_single by auto. auto.
  - intros [Hk Hsv]. exists k. repeat split; auto.
    symmetry. apply join_root_single. auto.
Qed.

Lemma final_keep_covers_kept (x : string) :
  In x (main_kept root keep partitions) ->
  covered (final_keep root keep partitions) x.
Proof.
  intros Hx.
  destruct (fragment_cover _ x Hx) as (g & Hg & Hsv & Hc).
  exists g. split; [|exact Hc]. apply final_keep_in. auto.
Qed.

Lemma covered_descendant (l : list string) (p q : string) :
  covered l p -> q = p \/ strict_descendant q p = true -> covered l q.
Proof.
  intros (k & Hk & Hc) Hq. exists k. split; [exact Hk|].
  destruct Hq as [->|Hq]; [exact Hc|]. right.
  destruct Hc as [->|Hc]; [exact Hq|].
  exact (descendant_trans _ _ _ Hq Hc).
Qed.

Lemma final_keep_covers_fragment (f : string) :
  In f (main_fragments keep) ->
  covered (final_keep root keep partitions)
          (os_path_join root (Str.drop 1 f)).
Proof.
  intros Hf.
  pose proof main_fragments_single as Hs. rewrite Forall_forall in Hs.
  destruct (fragment_cover _ f Hf) as (g & Hg & Hsv & Hc).
  apply (covered_descendant _ (os_path_join root (Str.drop 1 g))).
  - apply final_keep_covers_kept, in_main_kept. left.
    apply normalize_keep_in. exists g. auto.
  - destruct Hc as [->|Hd]; [now left | right].
    rewrite descendant_join by auto. exact Hd.
Qed.

Lemma final_keep_non_nested : non_nested (final_keep root keep partitions).
Proof.
  rewrite final_keep_unfold. apply normalize_keep_non_nested.
  apply main_kept_single.
Qed.

Lemma final_keep_clear : clear_of (final_keep root keep partitions) root.
Proof.
  intros P HP. apply final_keep_in in HP as [HP _].
  destruct (Str.startswith (dirsep root) (P ++ "/")) eqn:E; [|reflexivity].
  apply startswith_longer in E. rewrite length_append in E. simpl in E.
  apply in_main_kept in HP as [HP|[_ HP]].
  - apply first_pass_form in HP as (_ & r & ->).
    rewrite length_append in E. lia.
  - unfold strict_descendant in HP. apply startswith_iff in HP as [t ->].
    rewrite !length_append in E. simpl in E.
    assert (String.length (dirsep root) <= String.length root + 1).
    { unfold dirsep. destruct (_ || _); [lia|].
      rewrite length_append. simpl. lia. }
    lia.
Qed.

End KeepFacts.

(** X13: the keep list [main] computes is fit for the walk: for a root and
    for fragments and mount points that begin with exactly one separator,
    it is sorted, without repetition and without nesting, every element
    begins with exactly one separator, and no element followed by a
    separator is a prefix of the root followed by its separator, so that no
    element is a strict ancestor of the root. *)
Theorem final_keep_fit_for_walk (root : string)
        (keep partitions : list string) :
  single_sep root = true ->
  Forall (fun f => single_sep f = true) keep ->
  Forall (fun m => single_sep m = true) partitions ->
  lex_sorted (final_keep root keep partitions)
  /\ NoDup (final_keep root keep partitions)
  /\ non_nested (final_keep root keep partitions)
  /\ Forall (fun k => single_sep k = true) (final_keep root keep partitions)
  /\ clear_of (final_keep root keep partitions) root
  /\ (forall k, In k (final_keep root keep partitions) ->
                strict_descendant root k = false).
Proof.
  intros Hr Hk Hp.
  pose proof (final_keep_clear root keep partitions Hr Hk Hp) as Hclear.
  pose proof (main_kept_single root keep partitions Hr Hk Hp) as Hs.
  split; [apply normalize_keep_sorted|].
  split; [|split; [|split; [|split]]].
  - rewrite final_keep_unfold. apply normalize_keep_nodup.
    + apply NoDup_nodup.
    + exact Hs.
  - now apply final_keep_non_nested.
  - apply Forall_forall. intros k Hin.
    apply (final_keep_in root keep partitions Hr Hk Hp) in Hin as [Hin _].
    rewrite Forall_forall in Hs. auto.
  - exact Hclear.
  - intros k Hin. specialize (Hclear k Hin).
    unfold strict_descendant.
    destruct (Str.startswith root (k ++ "/")) eqn:E; [|reflexivity].
    rewrite <- Hclear. symmetry.
    apply (startswith_trans _ root); [|exact E].
    unfold dirsep. destruct (_ || _); [|apply startswith_app].
    apply startswith_iff. exists "". now rewrite append_nil_r.
Qed.

Lemma final_keep_fit_for_walk_witness :
  final_keep "/data" ["/keep/sub"; "/keep"; "/a/b"]
             ["/"; "/data/mnt"; "/data/a/b/c"; "/home"]
  = ["/data/a/b"; "/data/keep"; "/data/mnt"; "/data/oldroot"]
  /\ non_nested (final_keep "/data" ["/keep/sub"; "/keep"; "/a/b"]
                            ["/"; "/data/mnt"; "/data/a/b/c"; "/home"])
  /\ clear_of (final_keep "/data" ["/keep/sub"; "/keep"; "/a/b"]
                          ["/"; "/data/mnt"; "/data/a/b/c"; "/home"])
              "/data".
Proof.
  split; [reflexivity|].
  assert (H := final_keep_fit_for_walk
                 "/data" ["/keep/sub"; "/keep"; "/a/b"]
                 ["/"; "/data/mnt"; "/data/a/b/c"; "/home"]
                 eq_refl ltac:(repeat constructor)
                 ltac:(repeat constructor)).
  split; [exact (proj1 (proj2 (proj2 H)))
         | exact (proj1 (proj2 (proj2 (proj2 (proj2 H)))))].
Defined.

(** X14: the keep list [main] computes protects what it is asked to: for
    a root and for fragments and mount points that begin with exactly one
    separator, the quarantine directory [root/oldroot] is an element of the
    list, the path of every fragment given and every mount point strictly
    under the root is an element of the list or strictly under one, and
    the list holds nothing else: each element is the quarantine directory,
    the path of a fragment given or a mount point strictly under the
    root. *)
Theorem final_keep_protects (root : string) (keep partitions : list string) :
  single_sep root = true ->
  Forall (fun f => single_sep f = true) keep ->
  Forall (fun m => single_sep m = true) partitions ->
  In (os_path_join root "oldroot") (final_keep root keep partitions)
  /\ (forall f, In f keep ->
                covered (final_keep root keep partitions)
                        (os_path_join root (Str.drop 1 f)))
  /\ (forall m, In m partitions -> strict_descendant m root = true ->
                covered (final_keep root keep partitions) m)
  /\ (forall k, In k (final_keep root keep partitions) ->
                k = os_path_join root "oldroot"
                \/ (exists f, In f keep
                              /\ k = os_path_join root (Str.drop 1 f))
                \/ (In k partitions /\ strict_descendant k root = true)).
Proof.
  intros Hr Hk Hp. split; [|split; [|split]].
  - now apply quarantine_kept.
  - intros f Hf. apply final_keep_covers_fragment; auto.
    apply in_main_fragments. now left.
  - intros m Hm Hd. apply final_keep_covers_kept; auto.
    apply in_main_kept. right. auto.
  - intros k Hin.
    apply (final_keep_in root keep partitions Hr Hk Hp) in Hin as [Hin _].
    apply in_main_kept in Hin as [Hin|Hin]; [|auto].
    apply normalize_keep_in in Hin as (f & Hf & _ & ->).
    apply in_main_fragments in Hf as [Hf| ->]; [right; left; eauto|].
    now left.
Qed.

Lemma final_keep_protects_witness :
  In (os_path_join "/data" "oldroot")
     (final_keep "/data" ["/keep/sub"; "/keep"; "/a/b"]
                 ["/"; "/data/mnt"; "/data/a/b/c"; "/home"])
  /\ covered (final_keep "/data" ["/keep/sub"; "/keep"; "/a/b"]
                         ["/"; "/data/mnt"; "/data/a/b/c"; "/home"])
             (os_path_join "/data" (Str.drop 1 "/keep/sub"))
  /\ covered (final_keep "/data" ["/keep/sub"; "/keep"; "/a/b"]
                         ["/"; "/data/mnt"; "/data/a/b/c"; "/home"])
             "/data/a/b/c".
Proof.
  assert (H := final_keep_protects
                 "/data" ["/keep/sub"; "/keep"; "/a/b"]
                 ["/"; "/data/mnt"; "/data/a/b/c"; "/home"]
                 eq_refl ltac:(repeat constructor)
                 ltac:(repeat constructor)).
  destruct H as (H1 & H2 & H3 & _). split; [exact H1|]. split.
  - apply H2. simpl. auto.
  - apply H3; [simpl; auto | reflexivity].
Defined.

Lemma same_elements_permutation (l l' : list string) :
  (forall x, In x l <-> In x l') -> Permutation (py_set l) (py_set l').
Proof.
  intros H. apply NoDup_Permutation; try apply NoDup_nodup.
  intros x. now rewrite !in_py_set.
Qed.

(** X15: the keep list [main] computes depends only on the set of the
    fragments given and the set of the mount points reported: their order
    and their repetitions, in the arguments and in the partition table, do
    not matter. *)
Theorem final_keep_of_sets (root : string)
        (keep keep' partitions partitions' : list string) :
  (forall f, In f keep <-> In f keep') ->
  (forall m, In m partitions <-> In m partitions') ->
  final_keep root keep partitions = final_keep root keep' partitions'.
Proof.
  intros Hk Hp. rewrite !final_keep_unfold. apply normalize_keep_order.
  assert (E : normalize_keep root (main_fragments keep)
              = normalize_keep root (main_fragments keep')).
  { apply normalize_keep_order. unfold main_fragments, set_union.
    apply same_elements_permutation. intros x. rewrite !in_app_iff.
    rewrite !in_py_set. now rewrite Hk. }
  apply NoDup_Permutation; try apply NoDup_nodup.
  intros x. rewrite !in_main_kept, E. now rewrite Hp.
Qed.

Lemma final_keep_of_sets_witness :
  final_keep "/data" ["/b"; "/a"; "/b"] ["/data/m"; "/"; "/data/m"]
  = final_keep "/data" ["/a"; "/b"] ["/"; "/data/m"].
Proof.
  apply (final_keep_of_sets "/data" ["/b"; "/a"; "/b"] ["/a"; "/b"]
                            ["/data/m"; "/"; "/data/m"] ["/"; "/data/m"]).
  - intros f. simpl. tauto.
  - intros m. simpl. tauto.
Defined.

Lemma double_sep_inside (x t : string) :
  no_double_sep (x ++ "//" ++ t) = false.
Proof.
  induction x as [|c x IH].
  - reflexivity.
  - change (no_double_sep (String c (x ++ "//" ++ t)) = false).
    cbn [no_double_sep]. rewrite IH. apply andb_false_r.
Qed.

(** X16: [main] looks for the mount points that begin with the root
    followed by a separator, so for a root that ends with a separator, the
    root [/] among them, no mount point without a doubled separator is
    found: the keep list is the one computed without any mount point. *)
Theorem mountpoints_unseen_under_slash_root (root : string)
        (keep partitions : list string) :
  Str.endswith_sep root = true ->
  Forall (fun m => no_double_sep m = true) partitions ->
  main_mountpoints root partitions = []
  /\ final_keep root keep partitions = final_keep root keep [].
Proof.
  intros Hr Hp.
  assert (E : filter (fun x => Str.startswith x (root ++ "/")) partitions
              = []).
  { apply filter_none. intros m Hm. rewrite Forall_forall in Hp.
    destruct (Str.startswith m (root ++ "/")) eqn:Es; [|reflexivity].
    apply endswith_sep_inv in Hr as [x ->].
    apply startswith_iff in Es as [t ->].
    specialize (Hp _ Hm). rewrite !append_assoc in Hp.
    change ("/" ++ "/" ++ t) with ("//" ++ t) in Hp.
    now rewrite double_sep_inside in Hp. }
  split.
  - unfold main_mountpoints. now rewrite E.
  - unfold final_keep. now rewrite E.
Qed.

Lemma mountpoints_unseen_under_slash_root_witness :
  (main_mountpoints "/" ["/"; "/boot"; "/nix"] = []
   /\ final_keep "/" [] ["/"; "/boot"; "/nix"] = final_keep "/" [] [])
  /\ final_keep "/" [] [] = ["/oldroot"]
  /\ moves_of
       (events (MemFS.run_main "/" sample_json_loads 5 ["/"]
                               ["/"; "/boot"; "/nix"] "T"
                               (Dir [("boot", Dir [("k", File)])])))
     = [("/boot", "/oldroot/T/boot")].
Proof.
  split; [|split; reflexivity].
  apply (mountpoints_unseen_under_slash_root "/" [] ["/"; "/boot"; "/nix"]).
  - reflexivity.
  - repeat constructor.
Defined.

(** * What a run of [main] leaves in place *)

Lemma avoids_covered (l : list string) (src p : string) :
  (forall P, In P l -> src <> P /\ strict_descendant src P = false) ->
  covered l p ->
  src <> p /\ strict_descendant src p = false.
Proof.
  intros H (k & Hk & Hc). destruct (H k Hk) as [Hne Hd].
  destruct Hc as [->|Hc]; [auto|]. split.
  - intros ->. congruence.
  - destruct (strict_descendant src p) eqn:E; [|reflexivity].
    rewrite (descendant_trans _ _ _ E Hc) in Hd. discriminate.
Qed.

Section KeptInPlace.

Context {FS : Type}.
Variable fs_listdir : string -> FS -> option (list string).
Variable fs_stat : string -> FS -> stat_result.
Variable fs_rmtree : string -> FS -> bool * FS.
Variable fs_makedirs : string -> nat -> FS -> bool * FS.
Variable fs_move : string -> string -> FS -> bool * FS.
Variable cwd : string.
Variable json_loads : string -> option json.

Hypothesis cwd_absolute : begins_with_sep cwd = true.
Hypothesis listing_valid :
  forall p f names,
    fs_listdir p f = Some names ->
    Forall (fun n => Pathlib.valid_name n = true) names.

#[local] Abbreviation move_dirty_ :=
  (move_dirty fs_listdir fs_stat fs_rmtree fs_makedirs fs_move cwd).

Lemma move_dirty_sources_avoid (fuel : nat) (root target : string)
      (keep : list string) (f : FS) (src dst : string) :
  non_nested keep ->
  clear_of keep (Pathlib.absolute cwd root) ->
  In (src, dst) (moves_of (events (move_dirty_ fuel root target keep f))) ->
  forall P, In P keep -> src <> P /\ strict_descendant src P = false.
Proof.
  intros Hkeep Hclear Hmv P HP.
  destruct (paired_sources _ _ _ _
              (move_dirty_pairs fs_listdir fs_stat fs_rmtree fs_makedirs
                                fs_move cwd fuel root target keep f))
    as [rest Hrest].
  assert (Hy : In src (yields_of
                         (events (move_dirty_ fuel root target keep f)))).
  { rewrite Hrest. apply in_or_app. left.
    apply in_map_iff. exists (src, dst). auto. }
  destruct (move_dirty_yields fs_listdir fs_stat fs_rmtree fs_makedirs
                              fs_move cwd fuel root target keep f)
    as [E|[f1 E]]; rewrite E in Hy; [contradiction|].
  apply yields_of_in in Hy.
  pose proof (walk_yields_avoid
                fs_listdir fs_stat cwd cwd_absolute listing_valid keep _
                (move_one_quiet fs_stat fs_makedirs fs_move root
                                (os_path_join root (Str.drop 1 target)))
                Hkeep fuel root Hclear f1) as H.
  rewrite Forall_forall in H. exact (H _ Hy P HP).
Qed.

End KeptInPlace.

(** ** The further properties on the sample filesystems *)

Lemma walk_descends_only_towards_keep_witness :
  (forall p P,
      In (EYield p)
         (events (walk (MemFS.listdir "/") (MemFS.stat "/") "/" 3 "/data"
                       ["/data/a/b"; "/data/keep"] (fun _ => ret tt)
                       (Dir [("data", sample_tree)]))) ->
      In P ["/data/a/b"; "/data/keep"] ->
      P <> p /\ strict_descendant P p = false)
  /\ (forall d,
         In (EListdir d)
            (events (walk (MemFS.listdir "/") (MemFS.stat "/") "/" 3 "/data"
                          ["/data/a/b"; "/data/keep"] (fun _ => ret tt)
                          (Dir [("data", sample_tree)]))) ->
         d = Pathlib.posix "/data"
         \/ exists P, In P ["/data/a/b"; "/data/keep"]
                      /\ strict_descendant P d = true).
Proof.
  apply (walk_descends_only_towards_keep
           (MemFS.listdir "/") (MemFS.stat "/") "/"
           ["/data/a/b"; "/data/keep"] (fun _ => ret tt) 3 "/data"
           (Dir [("data", sample_tree)])).
  intros p. apply always_ret.
Defined.

Lemma changes_stay_under_target_witness :
  (forall p,
      In (ERmtree p)
         (events (MemFS.run_move_dirty "/" 5 "/data" "/oldroot/T"
                                       ["/data/oldroot"] stale_fs)) ->
      p = "/data/oldroot/T"
      /\ MemFS.stat "/" "/data/oldroot/T" stale_fs = IsDirectory)
  /\ (forall p m,
         In (EMakedirs p m)
            (events (MemFS.run_move_dirty "/" 5 "/data" "/oldroot/T"
                                          ["/data/oldroot"] stale_fs)) ->
         m = 448
         /\ (p = "/data/oldroot/T"
             \/ strict_descendant p "/data/oldroot/T" = true))
  /\ (forall src dst,
         In (EMove src dst)
            (events (MemFS.run_move_dirty "/" 5 "/data" "/oldroot/T"
                                          ["/data/oldroot"] stale_fs)) ->
         below (Pathlib.absolute "/" "/data") src
         /\ strict_descendant dst "/data/oldroot/T" = true).
Proof.
  apply (changes_stay_under_target
           (MemFS.listdir "/") (MemFS.stat "/") (MemFS.rmtree "/")
           (MemFS.makedirs "/") (MemFS.move "/") "/" eq_refl
           (memfs_listing_valid "/") 5 "/data" "/oldroot/T"
           ["/data/oldroot"] stale_fs).
  - reflexivity.
  - discriminate.
  - reflexivity.
Defined.

Lemma destinations_apart_witness :
  NoDup (map snd (moves_of
                    (events (MemFS.run_move_dirty "/" 5 "/data" "/oldroot/T"
                                                  ["/data/oldroot"]
                                                  sample_fs))))
  /\ non_nested
       (map snd (moves_of
                   (events (MemFS.run_move_dirty "/" 5 "/data" "/oldroot/T"
                                                 ["/data/oldroot"]
                                                 sample_fs)))).
Proof.
  apply (destinations_apart
           (MemFS.listdir "/") (MemFS.stat "/") (MemFS.rmtree "/")
           (MemFS.makedirs "/") (MemFS.move "/") "/" eq_refl
           (memfs_listing_valid "/") (memfs_listing_distinct "/")
           5 "/data" "/oldroot/T" ["/data/oldroot"] sample_fs).
  reflexivity.
Defined.

(** * What the walk leaves behind *)

Lemma tree_paths_below (n : node) :
  Tree.wf n = true ->
  forall d p, begins_with_sep d = true -> In p (tree_paths d n) -> below d p.
Proof.
  induction n as [|es IH] using node_ind'; intros Hwf d p Hd Hp;
    [contradiction|].
  destruct (wf_dir_inv es Hwf) as [Hes _].
  simpl in Hp. apply in_flat_map in Hp as (e & He & Hp).
  destruct (Hes e He) as [Hn Hw]. rewrite Forall_forall in IH.
  destruct Hp as [<-|Hp]; [now apply below_child|].
  apply (below_under_child d (fst e)); auto.
  apply (IH e He Hw); [now apply child_begins | exact Hp].
Qed.

Lemma below_child_descendant (d n p : string) :
  begins_with_sep d = true -> Pathlib.valid_name n = true ->
  below (Pathlib.child d n) p ->
  strict_descendant p (Pathlib.child d n) = true.
Proof.
  intros Hd Hn (rel & _ & _ & ->). rewrite dirsep_child by assumption.
  apply startswith_app.
Qed.

Lemma walk_reaches_or_keeps (n : node) (keep : list string) :
  Tree.wf n = true ->
  forall d p,
    begins_with_sep d = true ->
    In p (tree_paths d n) ->
    (exists y, In y (Tree.walk d n keep)
               /\ (y = p \/ strict_descendant p y = true))
    \/ (exists k, In k keep
                  /\ (k = p \/ strict_descendant p k = true
                      \/ strict_descendant k p = true)).
Proof.
  induction n as [|es IH] using node_ind'; intros Hwf d p Hd Hp;
    [contradiction|].
  destruct (wf_dir_inv es Hwf) as [Hes _].
  simpl in Hp. apply in_flat_map in Hp as (e & He & Hp).
  destruct (Hes e He) as [Hn Hw]. rewrite Forall_forall in IH.
  set (c := Pathlib.child d (fst e)) in *.
  assert (Hunder : p = c \/ strict_descendant p c = true).
  { destruct Hp as [<-|Hp]; [now left | right].
    apply below_child_descendant; auto.
    apply (tree_paths_below (snd e) Hw); [now apply child_begins | exact Hp]. }
  assert (Hc : forall y,
             In y (Tree.walk_entry (fun q t => Tree.walk q t keep) d keep e) ->
             In y (Tree.walk d (Dir es) keep)).
  { intros y Hy. apply tree_walk_in. eauto. }
  destruct (walk_action c keep) eqn:Ea.
  - right. exists c. split; [now apply walk_action_skip_inv|].
    destruct Hunder as [->|Hu]; auto.
  - destruct Hp as [<-|Hp].
    + right. apply walk_action_recurse_inv in Ea as (k & Hk & Hd' & _).
      exists k. split; [exact Hk|]. right. right. exact Hd'.
    + assert (Hcb : begins_with_sep c = true) by now apply child_begins.
      destruct (IH e He Hw c p Hcb Hp) as [(y & Hy & Hyp)|Hk];
        [left | now right].
      exists y. split; [|exact Hyp]. apply Hc.
      unfold Tree.walk_entry. fold c. rewrite Ea.
      revert Hy. destruct (snd e); exact (fun H => H).
  - left. exists c. split; [|destruct Hunder as [->|Hu]; auto].
    apply Hc. unfold Tree.walk_entry. fold c. rewrite Ea. now left.
Qed.

(** X3: on a snapshot, the walk leaves nothing behind that the keep list
    does not name: every path of the tree below the root is yielded or
    strictly under a yielded path, or else it is a keep element, strictly
    under a keep element, or a strict ancestor of a keep element. *)
Theorem walk_leaves_only_kept (cwd root : string) (tree : node)
        (keep : list string) (p : string) :
  begins_with_sep cwd = true ->
  Tree.wf tree = true ->
  In p (tree_paths (Pathlib.absolute cwd root) tree) ->
  (exists y, In y (Tree.walk (Pathlib.absolute cwd root) tree keep)
             /\ (y = p \/ strict_descendant p y = true))
  \/ (exists k, In k keep
                /\ (k = p \/ strict_descendant p k = true
                    \/ strict_descendant k p = true)).
Proof.
  intros Hc Hwf Hp.
  apply walk_reaches_or_keeps; auto. now apply absolute_begins.
Qed.

Lemma walk_leaves_only_kept_witness :
  In "/data/drop/y" (tree_paths (Pathlib.absolute "/" "/data") sample_tree)
  /\ ((exists y, In y (Tree.walk (Pathlib.absolute "/" "/data") sample_tree
                                 ["/data/a/b"; "/data/keep"])
                 /\ (y = "/data/drop/y"
                     \/ strict_descendant "/data/drop/y" y = true))
      \/ (exists k, In k ["/data/a/b"; "/data/keep"]
                    /\ (k = "/data/drop/y"
                        \/ strict_descendant "/data/drop/y" k = true
                        \/ strict_descendant k "/data/drop/y" = true))).
Proof.
  assert (Hp : In "/data/drop/y"
                  (tree_paths (Pathlib.absolute "/" "/data") sample_tree))
    by (vm_compute; tauto).
  split; [exact Hp|].
  exact (walk_leaves_only_kept "/" "/data" sample_tree
                               ["/data/a/b"; "/data/keep"] "/data/drop/y"
                               eq_refl eq_refl Hp).
Defined.

(** * Where a run of [main] puts what it moves *)

Lemma snoc_prefix (a w : string) :
  Str.startswith (a ++ "/") w = true ->
  w = a ++ "/" \/ Str.startswith a w = true.
Proof.
  revert a. induction w as [|c w IH]; intros a H; [now right|].
  destruct a as [|x a].
  - change (Ascii.eqb "/" c && Str.startswith "" w = true) in H.
    apply andb_prop in H as [Hc Hw]. apply Ascii.eqb_eq in Hc. subst c.
    destruct w; [now left | discriminate].
  - change (Ascii.eqb x c && Str.startswith (a ++ "/") w = true) in H.
    apply andb_prop in H as [Hc Hw]. apply Ascii.eqb_eq in Hc. subst c.
    destruct (IH a Hw) as [->|Hs]; [now left | right].
    change (Ascii.eqb x x && Str.startswith a w = true).
    now rewrite Ascii.eqb_refl.
Qed.

Lemma snoc_inj (a b : string) : a ++ "/" = b ++ "/" -> a = b.
Proof.
  revert b. induction a as [|x a IH]; intros [|y b] H; cbn in H.
  - reflexivity.
  - injection H as _ H. destruct b; discriminate.
  - injection H as _ H. destruct a; discriminate.
  - injection H as -> H. f_equal. auto.
Qed.

Lemma prefixes_comparable (s p q : string) :
  Str.startswith s p = true -> Str.startswith s q = true ->
  Str.startswith p q = true \/ Str.startswith q p = true.
Proof.
  revert s q. induction p as [|a p IH]; intros s q Hp Hq; [now right|].
  destruct q as [|b q]; [now left|].
  destruct s as [|c s]; [discriminate|].
  change (Ascii.eqb c a && Str.startswith s p = true) in Hp.
  change (Ascii.eqb c b && Str.startswith s q = true) in Hq.
  apply andb_prop in Hp as [Ha Hp]. apply andb_prop in Hq as [Hb Hq].
  apply Ascii.eqb_eq in Ha, Hb. subst a b.
  change (Ascii.eqb c c && Str.startswith p q = true
          \/ Ascii.eqb c c && Str.startswith q p = true).
  rewrite Ascii.eqb_refl. exact (IH s q Hp Hq).
Qed.

(** Two strict ancestors of a path are equal or one is a strict ancestor
    of the other. *)
Lemma ancestors_comparable (d a b : string) :
  strict_descendant d a = true -> strict_descendant d b = true ->
  a = b \/ strict_descendant a b = true \/ strict_descendant b a = true.
Proof.
  unfold strict_descendant. intros Ha Hb.
  destruct (prefixes_comparable d _ _ Ha Hb) as [H|H];
    apply snoc_prefix in H as [H|H]; auto.
  - left. symmetry. now apply snoc_inj.
  - left. now apply snoc_inj.
Qed.

Lemma main_target (root stamp : string) :
  Str.no_sep stamp = true ->
  os_path_join root (Str.drop 1 (os_path_join quarantine stamp))
  = os_path_join root "oldroot" ++ "/" ++ stamp.
Proof.
  intros Hs. pose proof (no_sep_not_startswith stamp Hs) as Hb.
  assert (E : os_path_join quarantine stamp = "/oldroot/" ++ stamp).
  { unfold os_path_join. now rewrite Hb. }
  rewrite E. change (Str.drop 1 ("/oldroot/" ++ stamp))
    with ("oldroot" ++ "/" ++ stamp).
  rewrite !os_path_join_rel by reflexivity.
  now rewrite !append_assoc.
Qed.

Section Archive.

Context {FS : Type}.
Variable fs_listdir : string -> FS -> option (list string).
Variable fs_stat : string -> FS -> stat_result.
Variable fs_rmtree : string -> FS -> bool * FS.
Variable fs_makedirs : string -> nat -> FS -> bool * FS.
Variable fs_move : string -> string -> FS -> bool * FS.
Variable cwd : string.
Variable json_loads : string -> option json.

Hypothesis cwd_absolute : begins_with_sep cwd = true.
Hypothesis listing_valid :
  forall p f names,
    fs_listdir p f = Some names ->
    Forall (fun n => Pathlib.valid_name n = true) names.

(** X18: in every run of [main] on a root that is an absolute path in
    normal form, with fragments and mount points that begin with exactly
    one separator and a time stamp that is not empty and holds no
    separator, every destination of a move is strictly under
    [root/oldroot/stamp], and no entry moved in the run is a destination,
    strictly under a destination, or a strict ancestor of a destination:
    nothing is moved into itself and what has been archived is not moved
    again. *)
Theorem main_archives_apart (fuel : nat) (root : string)
        (args partitions : list string) (stamp : string)
        (decoded : list json) (keep : list string) (f : FS) :
  Pathlib.absolute cwd root = root ->
  single_sep root = true ->
  load_args json_loads args [] = Some decoded ->
  strings_of decoded = Some keep ->
  Forall (fun g => single_sep g = true) keep ->
  Forall (fun m => single_sep m = true) partitions ->
  stamp <> "" -> Str.no_sep stamp = true ->
  forall src dst,
    In (src, dst)
       (moves_of (events (main fs_listdir fs_stat fs_rmtree fs_makedirs
                               fs_move cwd json_loads fuel (root :: args)
                               partitions stamp f))) ->
    strict_descendant dst (os_path_join root "oldroot" ++ "/" ++ stamp) = true
    /\ (forall src' dst',
           In (src', dst')
              (moves_of (events (main fs_listdir fs_stat fs_rmtree
                                      fs_makedirs fs_move cwd json_loads fuel
                                      (root :: args) partitions stamp f))) ->
           src' <> dst
           /\ strict_descendant src' dst = false
           /\ strict_descendant dst src' = false).
Proof.
  intros Habs Hr Hload Hstr Hk Hp Hne Hns src dst Hmv.
  unfold main. unfold main in Hmv. rewrite Hload, Hstr in *.
  set (K := os_path_join root "oldroot").
  set (keeps := final_keep root keep partitions) in *.
  assert (HK : In K keeps) by now apply quarantine_kept.
  pose proof (main_target root stamp Hns) as ET. fold K in ET.
  assert (HTK : strict_descendant (K ++ "/" ++ stamp) K = true).
  { unfold strict_descendant. rewrite <- append_assoc. apply startswith_app. }
  assert (Hdst : strict_descendant dst (K ++ "/" ++ stamp) = true).
  { apply moves_of_in in Hmv.
    pose proof (always_mover_event
                  fs_listdir fs_stat fs_rmtree fs_makedirs fs_move cwd
                  cwd_absolute listing_valid fuel root
                  (os_path_join quarantine stamp) keeps
                  (normal_root_plain cwd root Habs Hr) f) as H.
    rewrite Forall_forall in H.
    destruct (H _ Hmv) as (rel & _ & Hrel & _ & ->). rewrite ET.
    rewrite os_path_join_plain; [| | |exact Hrel].
    - unfold strict_descendant. rewrite <- append_assoc.
      apply startswith_app.
    - destruct K; discriminate.
    - rewrite <- append_assoc, endswith_sep_app by exact Hne.
      now apply no_sep_not_endswith. }
  split; [exact Hdst|].
  pose proof (descendant_trans _ _ _ Hdst HTK) as HdK.
  intros src' dst' Hmv'.
  destruct (move_dirty_sources_avoid
              fs_listdir fs_stat fs_rmtree fs_makedirs fs_move cwd
              cwd_absolute listing_valid fuel root
              (os_path_join quarantine stamp) keeps f src' dst'
              (final_keep_non_nested root keep partitions Hr Hk Hp)
              ltac:(rewrite Habs; now apply final_keep_clear)
              Hmv' K HK) as [Hne' Hnd].
  destruct (move_dirty_sources_hold_none
              fs_listdir fs_stat fs_rmtree fs_makedirs fs_move cwd fuel root
              (os_path_join quarantine stamp) keeps f src' dst' K Hmv' HK)
    as [_ Hnu].
  split; [|split].
  - intros ->. congruence.
  - destruct (strict_descendant src' dst) eqn:E; [|reflexivity].
    rewrite (descendant_trans _ _ _ E HdK) in Hnd. discriminate.
  - destruct (strict_descendant dst src') eqn:E; [|reflexivity].
    destruct (ancestors_comparable dst src' K E HdK) as [->|[H|H]];
      congruence.
Qed.

End Archive.

Lemma main_archives_apart_witness :
  In ("/data/drop", "/data/oldroot/T/drop")
     (moves_of
        (events (MemFS.run_main "/" sample_json_loads 5 ["/data"; keep_arg]
                                ["/"] "T" sample_fs)))
  /\ strict_descendant "/data/oldroot/T/drop"
                       (os_path_join "/data" "oldroot" ++ "/" ++ "T") = true
  /\ (forall src' dst',
         In (src', dst')
            (moves_of
               (events (MemFS.run_main "/" sample_json_loads 5
                                       ["/data"; keep_arg] ["/"] "T"
                                       sample_fs))) ->
         src' <> "/data/oldroot/T/drop"
         /\ strict_descendant src' "/data/oldroot/T/drop" = false
         /\ strict_descendant "/data/oldroot/T/drop" src' = false).
Proof.
  assert (Hmv : In ("/data/drop", "/data/oldroot/T/drop")
                   (moves_of
                      (events (MemFS.run_main
                                 "/" sample_json_loads 5 ["/data"; keep_arg]
                                 ["/"] "T" sample_fs))))
    by (left; reflexivity).
  split; [exact Hmv|].
  exact (main_archives_apart
           (MemFS.listdir "/") (MemFS.stat "/") (MemFS.rmtree "/")
           (MemFS.makedirs "/") (MemFS.move "/") "/" sample_json_loads
           eq_refl (memfs_listing_valid "/") 5 "/data" [keep_arg]
           ["/"] "T" [JString "/keep"] ["/keep"] sample_fs
           eq_refl eq_refl eq_refl eq_refl
           ltac:(repeat constructor) ltac:(repeat constructor)
           ltac:(discriminate) eq_refl
           "/data/drop" "/data/oldroot/T/drop" Hmv).
Defined.

(** * Kept paths stay in place

    The classifier compares strings.  For paths in normal form the
    comparison of strings is the comparison of paths: one path is another
    or inside it exactly when its names begin with the names of the
    other. *)

Lemma is_prefix_app (l l' : list string) :
  MemFS.is_prefix l l' = true -> exists rest, l' = (l ++ rest)%list.
Proof.
  revert l'. induction l as [|x l IH]; intros l' H; [now exists l'|].
  destruct l' as [|y l']; [discriminate|]. simpl in H.
  apply andb_prop in H as [Hx Hl]. apply String.eqb_eq in Hx. subst y.
  destruct (IH _ Hl) as [rest ->]. now exists rest.
Qed.

Lemma concat_app (ps qs : list string) :
  ps <> [] -> qs <> [] ->
  String.concat "/" (ps ++ qs)
  = String.concat "/" ps ++ "/" ++ String.concat "/" qs.
Proof.
  intros Hp Hq. induction ps as [|p ps IH]; [congruence|].
  destruct ps as [|p' ps].
  - change (([p] ++ qs)%list) with (p :: qs).
    now rewrite concat_cons.
  - change (((p :: p' :: ps) ++ qs)%list) with (p :: ((p' :: ps) ++ qs)%list).
    rewrite concat_cons by discriminate.
    rewrite IH by discriminate.
    rewrite (concat_cons p (p' :: ps)) by discriminate.
    now rewrite !append_assoc.
Qed.

Lemma valid_parts_ok (ps : list string) :
  Forall (fun n => Pathlib.valid_name n = true) ps ->
  Forall (fun p => part_ok p = true) ps.
Proof.
  intros H. eapply Forall_impl; [|exact H].
  intros n. apply valid_name_part_ok.
Qed.

Lemma single_sep_anchor (p : string) :
  single_sep p = true -> Pathlib.anchor p = "/".
Proof.
  unfold single_sep, Pathlib.anchor. intros H.
  apply andb_prop in H as [H1 H2]. apply negb_true_iff in H2.
  now rewrite H1, H2.
Qed.

Lemma render_root (ps : list string) :
  Pathlib.render "/" ps = "/" ++ String.concat "/" ps.
Proof. reflexivity. Qed.

Lemma normal_path_inv (p : string) :
  normal_path p = true ->
  single_sep p = true
  /\ p = Pathlib.render "/" (Pathlib.parts p)
  /\ Forall (fun n => Pathlib.valid_name n = true) (Pathlib.parts p).
Proof.
  unfold normal_path. intros H.
  apply andb_prop in H as [H Hv]. apply andb_prop in H as [Hs Hp].
  apply String.eqb_eq in Hp. split; [exact Hs|]. split.
  - rewrite <- Hp at 1. unfold Pathlib.posix.
    now rewrite single_sep_anchor.
  - apply Forall_forall. rewrite forallb_forall in Hv. exact Hv.
Qed.

Lemma normal_render (ps : list string) :
  Forall (fun n => Pathlib.valid_name n = true) ps ->
  normal_path (Pathlib.render "/" ps) = true
  /\ (ps <> [] -> normal_entry (Pathlib.render "/" ps) = true).
Proof.
  intros Hv. pose proof (valid_parts_ok ps Hv) as Hok.
  assert (Hn : normal_path (Pathlib.render "/" ps) = true).
  { unfold normal_path.
    rewrite posix_render, parts_render by (auto; right; now left).
    rewrite String.eqb_refl.
    assert (Hf : forallb Pathlib.valid_name ps = true)
      by (apply forallb_forall; rewrite Forall_forall in Hv; exact Hv).
    rewrite Hf, !andb_true_r. rewrite render_root.
    pose proof (concat_not_begins ps Hok) as Hb.
    unfold single_sep.
    change (Str.startswith ("/" ++ String.concat "/" ps) "/") with true.
    change (Str.startswith ("/" ++ String.concat "/" ps) "//")
      with (Str.startswith (String.concat "/" ps) "/").
    now rewrite Hb. }
  split; [exact Hn|]. intros Hne. unfold normal_entry. rewrite Hn.
  apply negb_true_iff, String.eqb_neq. rewrite render_root. intros E.
  apply (concat_not_empty ps Hne Hok).
  change "/" with ("/" ++ "") in E at 3. now apply append_inj_l in E.
Qed.

Lemma normal_entry_inv (p : string) :
  normal_entry p = true ->
  normal_path p = true /\ Pathlib.parts p <> [].
Proof.
  unfold normal_entry. intros H. apply andb_prop in H as [Hn Hr].
  split; [exact Hn|]. intros E.
  destruct (normal_path_inv p Hn) as (_ & Hp & _). rewrite E in Hp.
  apply negb_true_iff, String.eqb_neq in Hr. now apply Hr.
Qed.

Lemma normal_child (d n : string) :
  normal_path d = true -> Pathlib.valid_name n = true ->
  normal_entry (Pathlib.child d n) = true.
Proof.
  intros Hd Hn. destruct (normal_path_inv d Hd) as (_ & Ed & Hv).
  rewrite Ed.
  rewrite child_render by (try (right; now left); now apply valid_parts_ok).
  apply normal_render; [|now destruct (Pathlib.parts d)].
  apply Forall_app. split; [exact Hv | now repeat constructor].
Qed.

(** For paths in normal form, a path at or inside an entry is the path of
    the entry or has it, followed by a separator, as a prefix. *)
Lemma under_as_string (a b : string) :
  normal_entry a = true -> normal_path b = true ->
  at_or_under b a = true ->
  b = a \/ strict_descendant b a = true.
Proof.
  intros Ha Hb Hu. destruct (normal_entry_inv a Ha) as [Hna Hne].
  destruct (normal_path_inv a Hna) as (_ & Ea & Hva).
  destruct (normal_path_inv b Hb) as (_ & Eb & _).
  unfold at_or_under in Hu. apply is_prefix_app in Hu as [rest Hrest].
  rewrite Eb, Ea, Hrest. destruct rest as [|r rest].
  - left. now rewrite app_nil_r.
  - right. rewrite !render_root, concat_app by (auto; discriminate).
    unfold strict_descendant. rewrite !append_assoc.
    rewrite startswith_cancel. rewrite <- append_assoc.
    apply startswith_app.
Qed.

(** Conversely, for any two strings. *)
Lemma string_as_under (a b : string) :
  b = a \/ strict_descendant b a = true -> at_or_under b a = true.
Proof.
  assert (Hrefl : forall l r, MemFS.is_prefix l (l ++ r)%list = true).
  { induction l as [|x l IH]; intros r; [reflexivity|].
    simpl. now rewrite String.eqb_refl, IH. }
  unfold at_or_under. intros [->|H].
  - rewrite <- (app_nil_r (Pathlib.parts a)) at 2. apply Hrefl.
  - unfold strict_descendant in H. apply startswith_iff in H as [r ->].
    rewrite append_assoc, parts_app. apply Hrefl.
Qed.

(** The joined path of a fragment in normal form: the names of the root
    followed by the names of the fragment. *)
Lemma join_normal (root g : string) :
  normal_path root = true -> normal_entry g = true ->
  os_path_join root (Str.drop 1 g)
  = Pathlib.render "/" (Pathlib.parts root ++ Pathlib.parts g).
Proof.
  intros Hr Hg. destruct (normal_entry_inv g Hg) as [Hng Hne].
  destruct (normal_path_inv g Hng) as (Hsg & Eg & Hvg).
  destruct (normal_path_inv root Hr) as (_ & Er & Hvr).
  pose proof (valid_parts_ok _ Hvg) as Hokg.
  pose proof (valid_parts_ok _ Hvr) as Hokr.
  assert (Ed : Str.drop 1 g = String.concat "/" (Pathlib.parts g))
    by (rewrite Eg at 1; reflexivity).
  rewrite Ed, os_path_join_rel by now apply concat_not_begins.
  destruct (Pathlib.parts root) as [|p pr] eqn:Ep.
  - rewrite Er. reflexivity.
  - assert (Hnr : p :: pr <> []) by discriminate.
    assert (He : Str.endswith_sep root = false).
    { rewrite Er, render_root, endswith_sep_app
        by now apply concat_not_empty.
      now apply concat_not_ends. }
    unfold dirsep. rewrite He.
    assert (Hn : String.eqb root "" = false).
    { apply String.eqb_neq. rewrite Er. discriminate. }
    rewrite Hn. cbn [orb]. rewrite Er at 1.
    rewrite !render_root, concat_app by assumption.
    now rewrite !append_assoc.
Qed.

Lemma join_normal_entry (root g : string) :
  normal_path root = true -> normal_entry g = true ->
  normal_entry (os_path_join root (Str.drop 1 g)) = true.
Proof.
  intros Hr Hg. rewrite join_normal by assumption.
  destruct (normal_entry_inv g Hg) as [Hng Hne].
  destruct (normal_path_inv g Hng) as (_ & _ & Hvg).
  destruct (normal_path_inv root Hr) as (_ & _ & Hvr).
  apply normal_render; [now apply Forall_app|].
  intros E. apply app_eq_nil in E as [_ E]. contradiction.
Qed.

Lemma normal_path_absolute (cwd p : string) :
  normal_path p = true -> Pathlib.absolute cwd p = p.
Proof.
  intros Hp. unfold normal_path in Hp.
  apply andb_prop in Hp as [Hp _]. apply andb_prop in Hp as [Hs Hp].
  apply String.eqb_eq in Hp. unfold single_sep in Hs.
  apply andb_prop in Hs as [Hs _].
  unfold Pathlib.absolute. now rewrite Hs.
Qed.

Section KeptPaths.

Context {FS : Type}.
Variable fs_listdir : string -> FS -> option (list string).
Variable fs_stat : string -> FS -> stat_result.
Variable fs_rmtree : string -> FS -> bool * FS.
Variable fs_makedirs : string -> nat -> FS -> bool * FS.
Variable fs_move : string -> string -> FS -> bool * FS.
Variable cwd : string.
Variable json_loads : string -> option json.

Hypothesis cwd_absolute : begins_with_sep cwd = true.
Hypothesis listing_valid :
  forall p f names,
    fs_listdir p f = Some names ->
    Forall (fun n => Pathlib.valid_name n = true) names.

#[local] Abbreviation walk_ := (walk fs_listdir fs_stat cwd).
#[local] Abbreviation move_one_ := (move_one fs_stat fs_makedirs fs_move).
#[local] Abbreviation move_dirty_ :=
  (move_dirty fs_listdir fs_stat fs_rmtree fs_makedirs fs_move cwd).

(** From a root in normal form the walk yields paths in normal form. *)
Lemma walk_yields_normal (keep : list string) (body : string -> M FS unit) :
  (forall p, always (fun e => is_yield e = false) (body p)) ->
  forall fuel root,
    normal_path (Pathlib.absolute cwd root) = true ->
    always yield_normal (walk_ fuel root keep body).
Proof.
  intros Hbody. induction fuel as [|fuel IH]; intros root Hroot.
  - intros f. constructor.
  - simpl. apply always_bind_from.
    + eapply always_single; [|apply events_path_iterdir]. exact I.
    + intros names f Hnames. apply iterdir_names in Hnames.
      apply listing_valid in Hnames. rewrite Forall_forall in Hnames.
      apply always_for_each. intros n Hn. specialize (Hnames n Hn).
      unfold walk_entry. rewrite absolute_child by assumption.
      pose proof (normal_child _ n Hroot Hnames) as Hc.
      destruct (walk_action _ keep).
      * apply always_ret.
      * apply always_bind.
        -- eapply always_single; [|apply events_path_is_dir]. exact I.
        -- intros [|]; [|apply always_ret]. apply IH.
           rewrite normal_path_absolute;
             now destruct (normal_entry_inv _ Hc).
      * apply always_bind.
        -- eapply always_single; [|reflexivity]. exact Hc.
        -- intros _. eapply always_weaken; [|apply Hbody].
           intros [] He; try exact I. discriminate.
Qed.

Lemma move_dirty_sources_normal (fuel : nat) (root target : string)
      (keep : list string) (f : FS) (src dst : string) :
  normal_path (Pathlib.absolute cwd root) = true ->
  In (src, dst) (moves_of (events (move_dirty_ fuel root target keep f))) ->
  normal_entry src = true.
Proof.
  intros Hroot Hmv.
  destruct (paired_sources _ _ _ _
              (move_dirty_pairs fs_listdir fs_stat fs_rmtree fs_makedirs
                                fs_move cwd fuel root target keep f))
    as [rest Hrest].
  assert (Hy : In (EYield src) (events (move_dirty_ fuel root target keep f))).
  { apply yields_of_in. rewrite Hrest. apply in_or_app. left.
    apply in_map_iff. exists (src, dst). auto. }
  assert (H : always yield_normal (move_dirty_ fuel root target keep)).
  { apply always_move_dirty; try exact I.
    apply walk_yields_normal; [|exact Hroot].
    intros p. now apply always_move_one. }
  specialize (H f). rewrite Forall_forall in H. exact (H _ Hy).
Qed.

(** X11: in every run of [move_dirty] from a root whose absolute form is
    in normal form, with a keep list of paths of entries in normal form,
    none nested in another and none the root or a strict ancestor of it,
    every source of a move is the path of an entry in normal form and is
    neither a keep element nor inside one: the names of no keep element
    begin the names of the source. *)
Theorem moved_entries_avoid_keep (fuel : nat) (root target : string)
        (keep : list string) (f : FS) :
  normal_path (Pathlib.absolute cwd root) = true ->
  Forall (fun P => normal_entry P = true) keep ->
  non_nested keep ->
  clear_of keep (Pathlib.absolute cwd root) ->
  forall src dst P,
    In (src, dst)
       (moves_of (events (move_dirty fs_listdir fs_stat fs_rmtree
                                     fs_makedirs fs_move cwd fuel root target
                                     keep f))) ->
    In P keep ->
    normal_entry src = true
    /\ at_or_under src P = false
    /\ src <> P
    /\ strict_descendant src P = false.
Proof.
  intros Hroot Hform Hnn Hclear src dst P Hmv HP.
  pose proof (move_dirty_sources_normal fuel root target keep f src dst
                                        Hroot Hmv) as Hsrc.
  destruct (move_dirty_sources_avoid
              fs_listdir fs_stat fs_rmtree fs_makedirs fs_move cwd
              cwd_absolute listing_valid fuel root target keep f src dst
              Hnn Hclear Hmv P HP) as [Hne Hd].
  split; [exact Hsrc|]. split; [|auto].
  destruct (at_or_under src P) eqn:E; [|reflexivity].
  rewrite Forall_forall in Hform.
  destruct (under_as_string P src (Hform P HP)
                            (proj1 (normal_entry_inv src Hsrc)) E);
    congruence.
Qed.

(** X12: in every run of [move_dirty] from a root whose absolute form is
    in normal form, with a keep list of paths of entries in normal form,
    no keep element is the source of a move or inside it: the names of
    the source do not begin the names of any keep element, so that a move
    never carries a kept path away with the directory that holds it. *)
Theorem moves_carry_no_kept_path (fuel : nat) (root target : string)
        (keep : list string) (f : FS) (src dst P : string) :
  normal_path (Pathlib.absolute cwd root) = true ->
  Forall (fun P => normal_entry P = true) keep ->
  In (src, dst)
     (moves_of (events (move_dirty fs_listdir fs_stat fs_rmtree fs_makedirs
                                   fs_move cwd fuel root target keep f))) ->
  In P keep ->
  normal_entry src = true
  /\ at_or_under P src = false
  /\ P <> src
  /\ strict_descendant P src = false.
Proof.
  intros Hroot Hform Hmv HP.
  pose proof (move_dirty_sources_normal fuel root target keep f src dst
                                        Hroot Hmv) as Hsrc.
  destruct (move_dirty_sources_hold_none
              fs_listdir fs_stat fs_rmtree fs_makedirs fs_move cwd fuel root
              target keep f src dst P Hmv HP) as [Hne Hd].
  split; [exact Hsrc|]. split; [|auto].
  destruct (at_or_under P src) eqn:E; [|reflexivity].
  rewrite Forall_forall in Hform.
  destruct (under_as_string src P Hsrc
                            (proj1 (normal_entry_inv P (Hform P HP))) E);
    congruence.
Qed.

Lemma normal_single (l : list string) :
  Forall (fun p => normal_path p = true) l ->
  Forall (fun p => single_sep p = true) l.
Proof.
  intros H. eapply Forall_impl; [|exact H].
  intros p Hp. now destruct (normal_path_inv p Hp).
Qed.

Lemma normal_entries_paths (l : list string) :
  Forall (fun p => normal_entry p = true) l ->
  Forall (fun p => normal_path p = true) l.
Proof.
  intros H. eapply Forall_impl; [|exact H].
  intros p Hp. now destruct (normal_entry_inv p Hp).
Qed.

Lemma mountpoint_entry (root m : string) :
  single_sep root = true -> normal_path m = true ->
  strict_descendant m root = true -> normal_entry m = true.
Proof.
  intros Hr Hm Hd. unfold normal_entry. rewrite Hm.
  apply negb_true_iff, String.eqb_neq. intros ->.
  apply descendant_longer in Hd. simpl in Hd.
  destruct root; [discriminate | simpl in Hd; lia].
Qed.

(** X17: in every run of [main] on a root in normal form, with fragments
    that are paths of entries in normal form (one leading separator, names
    joined by single separators, no empty name, ["."] or [".."], no
    trailing separator) and mount points in normal form, whatever the
    filesystem answers and whether the run completes or not, every source
    of a move is the path of an entry in normal form, and it is neither
    the quarantine directory [root/oldroot], nor the path of a fragment
    given (the names of the root followed by the names of the fragment),
    nor a mount point strictly under the root, nor inside one of these. *)
Theorem main_leaves_kept_in_place (fuel : nat) (root : string)
        (args partitions : list string) (stamp : string)
        (decoded : list json) (keep : list string) (f : FS) :
  normal_path root = true ->
  load_args json_loads args [] = Some decoded ->
  strings_of decoded = Some keep ->
  Forall (fun g => normal_entry g = true) keep ->
  Forall (fun m => normal_path m = true) partitions ->
  forall src dst,
    In (src, dst)
       (moves_of (events (main fs_listdir fs_stat fs_rmtree fs_makedirs
                               fs_move cwd json_loads fuel (root :: args)
                               partitions stamp f))) ->
    normal_entry src = true
    /\ at_or_under src (os_path_join root "oldroot") = false
    /\ (forall g, In g keep ->
                  Pathlib.parts (os_path_join root (Str.drop 1 g))
                  = (Pathlib.parts root ++ Pathlib.parts g)%list
                  /\ at_or_under src (os_path_join root (Str.drop 1 g))
                     = false)
    /\ (forall m, In m partitions -> strict_descendant m root = true ->
                  at_or_under src m = false).
Proof.
  intros Hroot Hload Hstr Hkeep Hparts src dst Hmv.
  destruct (normal_path_inv root Hroot) as (Hr & _ & Hvr).
  pose proof (normal_path_absolute cwd root Hroot) as Habs.
  pose proof (normal_single _ (normal_entries_paths _ Hkeep)) as Hk.
  pose proof (normal_single _ Hparts) as Hp.
  unfold main in Hmv. rewrite Hload, Hstr in Hmv.
  assert (Hsrc : normal_entry src = true).
  { apply (move_dirty_sources_normal
             fuel root (os_path_join quarantine stamp)
             (final_keep root keep partitions) f src dst);
      [now rewrite Habs | exact Hmv]. }
  assert (Hav : forall P, In P (final_keep root keep partitions) ->
                          src <> P /\ strict_descendant src P = false).
  { apply (move_dirty_sources_avoid
             fs_listdir fs_stat fs_rmtree fs_makedirs fs_move cwd
             cwd_absolute listing_valid fuel root
             (os_path_join quarantine stamp)
             (final_keep root keep partitions) f src dst).
    - now apply final_keep_non_nested.
    - rewrite Habs. now apply final_keep_clear.
    - exact Hmv. }
  assert (Hout : forall p,
             normal_entry p = true ->
             covered (final_keep root keep partitions) p ->
             at_or_under src p = false).
  { intros p Hnp Hc.
    destruct (avoids_covered _ _ _ Hav Hc) as [Hne Hd].
    destruct (at_or_under src p) eqn:E; [|reflexivity].
    destruct (under_as_string p src Hnp
                              (proj1 (normal_entry_inv src Hsrc)) E);
      congruence. }
  rewrite Forall_forall in Hkeep, Hparts.
  split; [exact Hsrc|]. split; [|split].
  - apply Hout.
    + exact (join_normal_entry root "/oldroot" Hroot eq_refl).
    + exists (os_path_join root "oldroot"). split; [|now left].
      now apply quarantine_kept.
  - intros g Hg. split.
    + rewrite join_normal by auto.
      apply parts_render; [right; now left|].
      apply valid_parts_ok, Forall_app. split; [exact Hvr|].
      destruct (normal_entry_inv g (Hkeep g Hg)) as [Hng _].
      now destruct (normal_path_inv g Hng) as (_ & _ & Hvg).
    + apply Hout; [apply join_normal_entry; auto|].
      apply final_keep_covers_fragment; auto.
      apply in_main_fragments. now left.
  - intros m Hm Hd. apply Hout.
    + apply (mountpoint_entry root); auto.
    + apply final_keep_covers_kept; auto.
      apply in_main_kept. right. auto.
Qed.

End KeptPaths.

Lemma moved_entries_avoid_keep_witness :
  normal_path (Pathlib.absolute "/" "/data") = true
  /\ Forall (fun P => normal_entry P = true)
            ["/data/keep/x"; "/data/oldroot"]
  /\ non_nested ["/data/keep/x"; "/data/oldroot"]
  /\ clear_of ["/data/keep/x"; "/data/oldroot"] (Pathlib.absolute "/" "/data")
  /\ In ("/data/drop", "/data/oldroot/T/drop")
        (moves_of
           (events (MemFS.run_move_dirty "/" 5 "/data" "/oldroot/T"
                                         ["/data/keep/x"; "/data/oldroot"]
                                         sample_fs)))
  /\ In "/data/keep/x" ["/data/keep/x"; "/data/oldroot"]
  /\ (normal_entry "/data/drop" = true
      /\ at_or_under "/data/drop" "/data/keep/x" = false
      /\ "/data/drop" <> "/data/keep/x"
      /\ strict_descendant "/data/drop" "/data/keep/x" = false).
Proof.
  assert (Hform : Forall (fun P => normal_entry P = true)
                         ["/data/keep/x"; "/data/oldroot"])
    by (repeat constructor).
  assert (Hnn : non_nested ["/data/keep/x"; "/data/oldroot"]).
  { intros p q [<-|[<-|[]]] [<-|[<-|[]]]; reflexivity. }
  assert (Hclear : clear_of ["/data/keep/x"; "/data/oldroot"]
                            (Pathlib.absolute "/" "/data")).
  { intros P [<-|[<-|[]]]; reflexivity. }
  assert (Hmv : In ("/data/drop", "/data/oldroot/T/drop")
                   (moves_of
                      (events (MemFS.run_move_dirty
                                 "/" 5 "/data" "/oldroot/T"
                                 ["/data/keep/x"; "/data/oldroot"]
                                 sample_fs))))
    by (left; reflexivity).
  assert (HP : In "/data/keep/x" ["/data/keep/x"; "/data/oldroot"])
    by (left; reflexivity).
  split; [reflexivity|]. split; [exact Hform|]. split; [exact Hnn|].
  split; [exact Hclear|]. split; [exact Hmv|]. split; [exact HP|].
  exact (moved_entries_avoid_keep
           (MemFS.listdir "/") (MemFS.stat "/") (MemFS.rmtree "/")
           (MemFS.makedirs "/") (MemFS.move "/") "/" eq_refl
           (memfs_listing_valid "/") 5 "/data" "/oldroot/T"
           ["/data/keep/x"; "/data/oldroot"] sample_fs eq_refl Hform Hnn
           Hclear "/data/drop" "/data/oldroot/T/drop" "/data/keep/x" Hmv HP).
Defined.

Lemma moves_carry_no_kept_path_witness :
  normal_path (Pathlib.absolute "/" "/data") = true
  /\ Forall (fun P => normal_entry P = true)
            ["/data/keep/x"; "/data/oldroot"]
  /\ In ("/data/drop", "/data/oldroot/T/drop")
        (moves_of
           (events (MemFS.run_move_dirty "/" 5 "/data" "/oldroot/T"
                                         ["/data/keep/x"; "/data/oldroot"]
                                         sample_fs)))
  /\ In "/data/keep/x" ["/data/keep/x"; "/data/oldroot"]
  /\ (normal_entry "/data/drop" = true
      /\ at_or_under "/data/keep/x" "/data/drop" = false
      /\ "/data/keep/x" <> "/data/drop"
      /\ strict_descendant "/data/keep/x" "/data/drop" = false).
Proof.
  assert (Hform : Forall (fun P => normal_entry P = true)
                         ["/data/keep/x"; "/data/oldroot"])
    by (repeat constructor).
  assert (Hmv : In ("/data/drop", "/data/oldroot/T/drop")
                   (moves_of
                      (events (MemFS.run_move_dirty
                                 "/" 5 "/data" "/oldroot/T"
                                 ["/data/keep/x"; "/data/oldroot"]
                                 sample_fs))))
    by (left; reflexivity).
  assert (HP : In "/data/keep/x" ["/data/keep/x"; "/data/oldroot"])
    by (left; reflexivity).
  split; [reflexivity|]. split; [exact Hform|]. split; [exact Hmv|].
  split; [exact HP|].
  exact (moves_carry_no_kept_path
           (MemFS.listdir "/") (MemFS.stat "/") (MemFS.rmtree "/")
           (MemFS.makedirs "/") (MemFS.move "/") "/" eq_refl
           (memfs_listing_valid "/") 5 "/data" "/oldroot/T"
           ["/data/keep/x"; "/data/oldroot"] sample_fs
           "/data/drop" "/data/oldroot/T/drop" "/data/keep/x"
           eq_refl Hform Hmv HP).
Defined.

Lemma main_leaves_kept_in_place_witness :
  normal_path "/data" = true
  /\ Forall (fun g => normal_entry g = true) ["/keep"]
  /\ Forall (fun m => normal_path m = true) ["/"; "/data/mnt"]
  /\ In ("/data/drop", "/data/oldroot/T/drop")
        (moves_of
           (events (MemFS.run_main "/" sample_json_loads 5
                                   ["/data"; keep_arg] ["/"; "/data/mnt"]
                                   "T" sample_fs)))
  /\ normal_entry "/data/drop" = true
  /\ at_or_under "/data/drop" (os_path_join "/data" "oldroot") = false
  /\ (forall g, In g ["/keep"] ->
                Pathlib.parts (os_path_join "/data" (Str.drop 1 g))
                = (Pathlib.parts "/data" ++ Pathlib.parts g)%list
                /\ at_or_under "/data/drop"
                               (os_path_join "/data" (Str.drop 1 g))
                   = false)
  /\ (forall m, In m ["/"; "/data/mnt"] ->
                strict_descendant m "/data" = true ->
                at_or_under "/data/drop" m = false).
Proof.
  assert (Hk : Forall (fun g => normal_entry g = true) ["/keep"])
    by (repeat constructor).
  assert (Hp : Forall (fun m => normal_path m = true) ["/"; "/data/mnt"])
    by (repeat constructor).
  assert (Hmv : In ("/data/drop", "/data/oldroot/T/drop")
                   (moves_of
                      (events (MemFS.run_main
                                 "/" sample_json_loads 5 ["/data"; keep_arg]
                                 ["/"; "/data/mnt"] "T" sample_fs))))
    by (left; reflexivity).
  split; [reflexivity|]. split; [exact Hk|]. split; [exact Hp|].
  split; [exact Hmv|].
  exact (main_leaves_kept_in_place
           (MemFS.listdir "/") (MemFS.stat "/") (MemFS.rmtree "/")
           (MemFS.makedirs "/") (MemFS.move "/") "/" sample_json_loads
           eq_refl (memfs_listing_valid "/") 5 "/data" [keep_arg]
           ["/"; "/data/mnt"] "T" [JString "/keep"] ["/keep"] sample_fs
           eq_refl eq_refl eq_refl Hk Hp
           "/data/drop" "/data/oldroot/T/drop" Hmv).
Defined.
